(** * Notebook bridge: sequence differ and mime-type output resolver

    A shallow embedding of
    - [diff], [sortMimeTypes], [getMimeTypeOrder], [mimeTypeSupportedByCore]
      (vs/workbench/contrib/notebook/common/notebookCommon, which the files
      at hand carry after notebook.contribution.ts), and
    - [transformMimeTypes], [_transformMimeTypes], [findBestMatchedRenderer],
      [eventuallyUpdateCellOutputs], [$resolveNotebookData]
      (vs/workbench/api/common/extHostNotebook.ts),
    followed by the properties proved about them.

    Array indices and lengths are [nat]; renderer handles are [Z], because
    [-1] is one of them.  Calls into extension code (a renderer's [render])
    are recorded in a list of calls that is threaded through, and may end by
    throwing. *)

From Stdlib Require Import ZArith Lia Ascii.
From stdpp Require Import base list sorting strings.

Open Scope nat_scope.

(* ===================================================================== *)
(** * Part I: definitions *)
(* ===================================================================== *)

(** ** Sequence differ *)

(** [ISplice<T>]: [start], [deleteCount] and [toInsert]. *)
Record ISplice (T : Type) : Type := mkSplice {
  start : nat;
  deleteCount : nat;
  toInsert : list T
}.
Arguments mkSplice {T} _ _ _.
Arguments start {T} _.
Arguments deleteCount {T} _.
Arguments toInsert {T} _.

(** The local function [pushSplice] of [diff].  The array [result] it closes
    over is passed in and handed back.  A splice that deletes nothing and
    inserts nothing is dropped; a splice that starts where the latest one
    ends is folded into the latest one; anything else is appended. *)
Definition pushSplice {T : Type} (result : list (ISplice T))
    (start0 deleteCount0 : nat) (toInsert0 : list T) : list (ISplice T) :=
  if (deleteCount0 =? 0) && (length toInsert0 =? 0) then result
  else
    match last result with
    | Some latest =>
        if start latest + deleteCount latest =? start0 then
          removelast result ++
            [mkSplice (start latest) (deleteCount latest + deleteCount0)
                      (toInsert latest ++ toInsert0)]
        else result ++ [mkSplice start0 deleteCount0 toInsert0]
    | None => result ++ [mkSplice start0 deleteCount0 toInsert0]
    end.

(** The [while (true)] loop of [diff], one iteration per unit of fuel.
    [same] is the strict equality [===] on [T].  [None] means that the fuel
    ran out (or that an index left its array, which the two length tests
    exclude). *)
Fixpoint diff_loop {T : Type} (same : T -> T -> bool) (fuel : nat)
    (before after : list T) (contains : T -> bool)
    (beforeIdx afterIdx : nat) (result : list (ISplice T))
    : option (list (ISplice T)) :=
  match fuel with
  | 0 => None
  | S fuel' =>
      if beforeIdx =? length before then
        Some (pushSplice result beforeIdx 0 (drop afterIdx after))
      else if afterIdx =? length after then
        Some (pushSplice result beforeIdx (length before - beforeIdx) [])
      else
        match before !! beforeIdx, after !! afterIdx with
        | Some beforeElement, Some afterElement =>
            if same beforeElement afterElement then
              diff_loop same fuel' before after contains
                        (beforeIdx + 1) (afterIdx + 1) result
            else if contains afterElement then
              diff_loop same fuel' before after contains
                        (beforeIdx + 1) afterIdx
                        (pushSplice result beforeIdx 1 [])
            else
              diff_loop same fuel' before after contains
                        beforeIdx (afterIdx + 1)
                        (pushSplice result beforeIdx 0 [afterElement])
        | _, _ => None
        end
  end.

(** [diff(before, after, contains)].  Every iteration that does not leave
    the loop advances [beforeIdx] or [afterIdx], so
    [length before + length after + 1] iterations are enough. *)
Definition diff {T : Type} (same : T -> T -> bool)
    (before after : list T) (contains : T -> bool)
    : option (list (ISplice T)) :=
  diff_loop same (length before + length after + 1) before after contains 0 0 [].

(** [Array.prototype.splice(start, deleteCount, ...items)] for indices that
    are not negative: both are clamped to the array by [take] and [drop]. *)
Definition array_splice {T : Type} (arr : list T)
    (start0 deleteCount0 : nat) (items : list T) : list T :=
  take start0 arr ++ items ++ drop (start0 + deleteCount0) arr.

(** Applying a list of splices whose positions refer to the sequence they
    were computed from: back to front, one [Array.prototype.splice] each,
    the way [$spliceNotebookCells] applies its splices
    ([splices.reverse().forEach(...)]). *)
Definition applySplices {T : Type} (splices : list (ISplice T))
    (arr : list T) : list T :=
  foldl (fun acc s => array_splice acc (start s) (deleteCount s) (toInsert s))
        arr (reverse splices).

(** Applying the splices front to back on the running array, for
    comparison. *)
Definition applySplicesForward {T : Type} (splices : list (ISplice T))
    (arr : list T) : list T :=
  foldl (fun acc s => array_splice acc (start s) (deleteCount s) (toInsert s))
        arr splices.

(** A splice that deletes nothing and inserts nothing. *)
Definition isNoop {T : Type} (s : ISplice T) : Prop :=
  deleteCount s = 0 /\ toInsert s = [].

(** Invariant of [result], read latest splice first: the latest splice ends
    at least [gap] positions before [bound], no splice is a no-op, and each
    earlier splice ends strictly before the next one starts. *)
Fixpoint chained {T : Type} (rs : list (ISplice T)) (gap bound : nat) : Prop :=
  match rs with
  | [] => True
  | s :: rs' =>
      start s + deleteCount s + gap <= bound /\ ~ isNoop s /\
      chained rs' 1 (start s)
  end.

(** ** Totals of a splice list *)

(** The number of items that the splices delete, and the items that they
    insert, in order. *)
Definition deletedCount {T : Type} (r : list (ISplice T)) : nat :=
  sum_list_with deleteCount r.

Definition insertedItems {T : Type} (r : list (ISplice T)) : list T :=
  concat (map toInsert r).

(** ** [ExtHostCell]: the outputs and the set of known outputs *)

Section CellModel.
(** [T] is the type of the output objects; equality on [T] is object
    identity, which is what [===] and [Set] compare. *)
Context {T : Type} `{EqDecision T}.

(** A [Set<T>] as its members in insertion order. *)
Definition Set_has (s : list T) (x : T) : bool := bool_decide (x ∈ s).

Definition Set_add (s : list T) (x : T) : list T :=
  if bool_decide (x ∈ s) then s else s ++ [x].

Definition Set_delete (s : list T) (x : T) : list T :=
  filter (fun y => y <> x) s.

(** The fields of [ExtHostCell] that the [outputs] setter uses. *)
Record ExtHostCell : Type := mkCell {
  _outputs : list T;
  _outputMapping : list T
}.

(** [for (let i = diff.start; i < diff.start + diff.deleteCount; i++)
    this._outputMapping.delete(this._outputs[i])], as [count] iterations
    from [i]; past the end of [outputs] the element is [undefined], which is
    no member. *)
Fixpoint deleteOutputs (outputs mapping : list T) (i count : nat) : list T :=
  match count with
  | 0 => mapping
  | S count' =>
      deleteOutputs outputs
        (match outputs !! i with
         | Some x => Set_delete mapping x
         | None => mapping
         end)
        (i + 1) count'
  end.

(** The [diffs.forEach] callback of the setter, on the set. *)
Definition updateOutputMapping (outputs : list T) (mapping : list T)
    (diff0 : ISplice T) : list T :=
  foldl Set_add
        (deleteOutputs outputs mapping (start diff0) (deleteCount diff0))
        (toInsert diff0).

(** [set outputs(newOutputs)]: the cell afterwards and the splices fired on
    [onDidChangeOutputs]. *)
Definition set_outputs (this : ExtHostCell) (newOutputs : list T)
    : option (ExtHostCell * list (ISplice T)) :=
  match diff (fun a b => bool_decide (a = b)) (_outputs this) newOutputs
             (Set_has (_outputMapping this)) with
  | Some diffs =>
      Some ({| _outputs := newOutputs;
               _outputMapping :=
                 foldl (updateOutputMapping (_outputs this))
                       (_outputMapping this) diffs |},
            diffs)
  | None => None
  end.
End CellModel.

Arguments ExtHostCell : clear implicits.

(** ** Cells of a document, sources of a cell *)

(** [$moveCell(index, newIdx)] on the array of cells:
    [cells.splice(index, 1)] takes the cell out and
    [cells.splice(newIdx, 0, ...)] puts what was taken out back in.  Indices
    are not negative. *)
Definition moveCell {C : Type} (cells : list C) (index newIdx : nat) : list C :=
  let moved := take 1 (drop index cells) in
  let cells := array_splice cells index 1 [] in
  array_splice cells newIdx 0 moved.

(** A character that [/\r|\n|\r\n/g] matches.  The alternatives are tried
    in order, so the third one never applies: a carriage return and a line
    feed are always two matches. *)
Definition isLineBreak (c : ascii) : bool :=
  Ascii.eqb c "013"%char || Ascii.eqb c "010"%char.

(** [content.split(/\r|\n|\r\n/g)]. *)
Fixpoint split_lines (content : string) : list string :=
  match content with
  | EmptyString => [EmptyString]
  | String c rest =>
      if isLineBreak c then EmptyString :: split_lines rest
      else
        match split_lines rest with
        | line :: lines => String c line :: lines
        | [] => [String c EmptyString]
        end
  end.

(** [source.join('\n')]. *)
Fixpoint join_lines (source : list string) : string :=
  match source with
  | [] => EmptyString
  | [line] => line
  | line :: rest => (line ++ String "010"%char (join_lines rest))%string
  end.

(** A string without carriage return and line feed. *)
Fixpoint isOneLine (s : string) : bool :=
  match s with
  | EmptyString => true
  | String c rest => negb (isLineBreak c) && isOneLine rest
  end.

(** The number of carriage returns and line feeds of a string. *)
Fixpoint lineBreaks (s : string) : nat :=
  match s with
  | EmptyString => 0
  | String c rest => (if isLineBreak c then 1 else 0) + lineBreaks rest
  end.

(** ** Cell edits *)

(** [ICellEditOperation]: [ICellInsertEdit] or [ICellDeleteEdit]. *)
Inductive ICellEditOperation (C : Type) : Type :=
| CellInsert (index : nat) (cells : list C)
| CellDelete (index : nat) (count : nat).
Arguments CellInsert {C} _ _.
Arguments CellDelete {C} _ _.

(** The [for] loop of [ExtHostNotebookEditor._applyEdit].  The array
    [editData.edits] is the builder's [_collectedEdits] itself, and
    [compressedEdits.push(editData.edits[i])] pushes the edit object, not a
    copy: [compressedEdits] is modelled as the positions in [editData.edits]
    of the objects that it holds, [seen] is [editData.edits] up to [i] and
    [rest] is [editData.edits] from [i] on.  [prev.cells.push(...)] and
    [prev.count += ...] change the object [prev], which both arrays hold.
    The result is [editData.edits] and [compressedEdits] after the loop;
    [None] stands for the [TypeError] of reading [prev.editType] from a
    missing entry. *)
Fixpoint compressEdits_loop {C : Type} (rest : list (ICellEditOperation C))
    (seen : list (ICellEditOperation C))
    (compressedEdits : list nat) (compressedEditsIndex : Z)
    : option (list (ICellEditOperation C) * list nat) :=
  match rest with
  | [] => Some (seen, compressedEdits)
  | edit :: rest =>
      let i := length seen in
      if (compressedEditsIndex <? 0)%Z then
        compressEdits_loop rest (seen ++ [edit]) (compressedEdits ++ [i])
                           (compressedEditsIndex + 1)%Z
      else
        let prevIndex := compressedEditsIndex in
        match compressedEdits !! Z.to_nat prevIndex with
        | None => None
        | Some prev =>
            match seen !! prev, edit with
            | None, _ => None
            | Some (CellInsert prevIdx prevCells), CellInsert idx cells =>
                if prevIdx =? idx then
                  compressEdits_loop rest
                    (<[prev := CellInsert prevIdx (prevCells ++ cells)]> seen
                     ++ [edit])
                    compressedEdits compressedEditsIndex
                else
                  compressEdits_loop rest (seen ++ [edit])
                                     (compressedEdits ++ [i])
                                     (compressedEditsIndex + 1)%Z
            | Some (CellDelete prevIdx prevCount), CellDelete idx count =>
                if prevIdx =? idx then
                  compressEdits_loop rest
                    (<[prev := CellDelete prevIdx (prevCount + count)]> seen
                     ++ [edit])
                    compressedEdits compressedEditsIndex
                else
                  compressEdits_loop rest (seen ++ [edit])
                                     (compressedEdits ++ [i])
                                     (compressedEditsIndex + 1)%Z
            | Some _, _ =>
                compressEdits_loop rest (seen ++ [edit])
                                   (compressedEdits ++ [i])
                                   (compressedEditsIndex + 1)%Z
            end
        end
  end.

(** The objects that an array of references holds, as they read in
    [store]. *)
Definition resolve {C : Type} (store : list (ICellEditOperation C))
    (refs : list nat) : list (ICellEditOperation C) :=
  omap (fun ref => store !! ref) refs.

(** The same loop on values: [compressedEdits] holds what its entries read
    as, so that [prev.cells.push(...)] and [prev.count += ...] replace the
    last entry.  [compressEdits_loop_values] below shows that this is what
    the entries of [compressedEdits] read as in [compressEdits_loop]. *)
Fixpoint compressEdits_values {C : Type} (edits : list (ICellEditOperation C))
    (compressedEdits : list (ICellEditOperation C)) (compressedEditsIndex : Z)
    : option (list (ICellEditOperation C)) :=
  match edits with
  | [] => Some compressedEdits
  | edit :: rest =>
      if (compressedEditsIndex <? 0)%Z then
        compressEdits_values rest (compressedEdits ++ [edit])
                           (compressedEditsIndex + 1)%Z
      else
        let prevIndex := compressedEditsIndex in
        match compressedEdits !! Z.to_nat prevIndex with
        | None => None
        | Some prev =>
            match prev, edit with
            | CellInsert prevIdx prevCells, CellInsert idx cells =>
                if prevIdx =? idx then
                  compressEdits_values rest
                    (<[Z.to_nat prevIndex := CellInsert prevIdx (prevCells ++ cells)]>
                       compressedEdits)
                    compressedEditsIndex
                else
                  compressEdits_values rest (compressedEdits ++ [edit])
                                     (compressedEditsIndex + 1)%Z
            | CellDelete prevIdx prevCount, CellDelete idx count =>
                if prevIdx =? idx then
                  compressEdits_values rest
                    (<[Z.to_nat prevIndex := CellDelete prevIdx (prevCount + count)]>
                       compressedEdits)
                    compressedEditsIndex
                else
                  compressEdits_values rest (compressedEdits ++ [edit])
                                     (compressedEditsIndex + 1)%Z
            | _, _ =>
                compressEdits_values rest (compressedEdits ++ [edit])
                                   (compressedEditsIndex + 1)%Z
            end
        end
  end.

(** The cells that a list of edits inserts, and the number of cells that it
    deletes. *)
Definition insertedCells {C : Type} (edits : list (ICellEditOperation C))
    : list C :=
  flat_map (fun e => match e with
                     | CellInsert _ cells => cells
                     | CellDelete _ _ => []
                     end) edits.

Definition deletedCells {C : Type} (edits : list (ICellEditOperation C)) : nat :=
  sum_list_with (fun e => match e with
                          | CellInsert _ _ => 0
                          | CellDelete _ count => count
                          end) edits.

(** Two edits that the loop of [_applyEdit] folds into one: two inserts or
    two deletes at the same index. *)
Definition sameKindAndIndex {C : Type} (e1 e2 : ICellEditOperation C) : Prop :=
  match e1, e2 with
  | CellInsert i1 _, CellInsert i2 _ => i1 = i2
  | CellDelete i1 _, CellDelete i2 _ => i1 = i2
  | _, _ => False
  end.

(** No two neighbours of a list of edits are two inserts or two deletes at
    the same index. *)
Definition neighboursDiffer {C : Type} (l : list (ICellEditOperation C)) : Prop :=
  forall k e1 e2, l !! k = Some e1 -> l !! S k = Some e2 ->
                  ~ sameKindAndIndex e1 e2.

(** ** A [Map<number, V>] as its entries in insertion order *)

Fixpoint Map_set {V : Type} (entries : list (Z * V)) (key : Z) (value : V)
    : list (Z * V) :=
  match entries with
  | [] => [(key, value)]
  | entry :: rest =>
      if (fst entry =? key)%Z then (key, value) :: rest
      else entry :: Map_set rest key value
  end.

Definition Map_delete {V : Type} (entries : list (Z * V)) (key : Z)
    : list (Z * V) :=
  filter (fun entry => fst entry <> key) entries.

(** ** Mime-type ordering *)

(** [CellOutputKind]. *)
Inductive CellOutputKind : Type := Text | Error | Rich.

(** [mimeTypes.indexOf(mimeType)] on an array of strings: the position of
    the first equal entry, [-1] when there is none. *)
Fixpoint indexOf_from (arr : list string) (x : string) (i : Z) : Z :=
  match arr with
  | [] => (-1)%Z
  | y :: rest => if String.eqb y x then i else indexOf_from rest x (i + 1)%Z
  end.

Definition indexOf (arr : list string) (x : string) : Z := indexOf_from arr x 0%Z.

(** The allow-list written out in [mimeTypeSupportedByCore]. *)
Definition coreMimeTypes : list string :=
  [ "application/json"; "application/javascript"; "text/html";
    "image/svg+xml"; "text/markdown"; "image/png"; "image/jpeg";
    "text/plain"; "text/x-javascript" ]%string.

Definition mimeTypeSupportedByCore (mimeType : string) : bool :=
  if (indexOf coreMimeTypes mimeType >? -1)%Z then true else false.

(** What [matchGlobUniversal] takes from other modules: [isWindows] of
    vs/base/common/platform and [glob.match] of vs/base/common/glob.  Neither
    is defined in the files at hand; both are parameters of the model. *)
Record Host : Type := mkHost {
  isWindows : bool;
  glob_match : string -> string -> bool
}.

(** [s.replace(/\//g, '\\')]: every slash becomes a backslash. *)
Fixpoint replaceSlashes (s : string) : string :=
  match s with
  | EmptyString => EmptyString
  | String c rest =>
      String (if Ascii.eqb c "/"%char then "\"%char else c) (replaceSlashes rest)
  end.

Definition matchGlobUniversal (host : Host) (pattern path : string) : bool :=
  if isWindows host then
    glob_match host (replaceSlashes pattern) (replaceSlashes path)
  else glob_match host pattern path.

(** One [for] loop of [getMimeTypeOrder] over a display order, started with
    the running counter [order]: [inl] is the early [return order], [inr] is
    the counter with which the loop falls through. *)
Fixpoint scanDisplayOrder (host : Host) (displayOrder : list string)
    (mimeType : string) (order : nat) : nat + nat :=
  match displayOrder with
  | [] => inr order
  | pattern :: rest =>
      if matchGlobUniversal host pattern mimeType then inl order
      else scanDisplayOrder host rest mimeType (order + 1)
  end.

Definition getMimeTypeOrder (host : Host) (mimeType : string)
    (userDisplayOrder documentDisplayOrder defaultOrder : list string) : nat :=
  match scanDisplayOrder host userDisplayOrder mimeType 0 with
  | inl order => order
  | inr order =>
      match scanDisplayOrder host documentDisplayOrder mimeType order with
      | inl order => order
      | inr order =>
          match scanDisplayOrder host defaultOrder mimeType order with
          | inl order => order
          | inr order => order
          end
      end
  end.

(** [Array.prototype.sort(compareFn)].  The sort is stable (ECMAScript 2019),
    and for a comparator that orders by a rank a stable sort has one possible
    result; it is computed here by inserting each element, from the last to
    the first, in front of the first element that does not compare below
    it. *)
Fixpoint sort_insert {A : Type} (compareFn : A -> A -> Z) (x : A)
    (sorted : list A) : list A :=
  match sorted with
  | [] => [x]
  | y :: rest =>
      if (compareFn x y <=? 0)%Z then x :: y :: rest
      else y :: sort_insert compareFn x rest
  end.

Definition array_sort {A : Type} (compareFn : A -> A -> Z) (arr : list A)
    : list A :=
  foldr (sort_insert compareFn) [] arr.

Definition sortMimeTypes (host : Host) (mimeTypes : list string)
    (userDisplayOrder documentDisplayOrder defaultOrder : list string)
    : list string :=
  array_sort
    (fun a b =>
       (Z.of_nat (getMimeTypeOrder host a userDisplayOrder documentDisplayOrder defaultOrder)
        - Z.of_nat (getMimeTypeOrder host b userDisplayOrder documentDisplayOrder defaultOrder))%Z)
    mimeTypes.

(** [pattern] is the first entry of [displayOrder] that matches [mimeType],
    at index [k]. *)
Definition firstMatchAt (host : Host) (displayOrder : list string)
    (mimeType : string) (k : nat) : Prop :=
  (exists pattern, displayOrder !! k = Some pattern
                   /\ matchGlobUniversal host pattern mimeType = true)
  /\ forall k' pattern, k' < k -> displayOrder !! k' = Some pattern ->
       matchGlobUniversal host pattern mimeType = false.

(** No entry of [displayOrder] matches [mimeType]. *)
Definition noMatch (host : Host) (displayOrder : list string)
    (mimeType : string) : Prop :=
  forall pattern, pattern ∈ displayOrder ->
    matchGlobUniversal host pattern mimeType = false.

(** A host on which a pattern matches exactly the paths equal to it, as
    [glob.match] does for patterns without wildcards. *)
Definition literalHost : Host :=
  {| isWindows := false; glob_match := String.eqb |}.

(** A Windows host with the same literal matching. *)
Definition windowsHost : Host :=
  {| isWindows := true; glob_match := String.eqb |}.

(** ** Mime-type output resolver *)

(** [IOrderedMimeType]; the optional fields [rendererId] and [output] are
    [None] when the object literal leaves them out. *)
Record IOrderedMimeType : Type := mkOrderedMimeType {
  mimeType : string;
  isResolved : bool;
  rendererId : option Z;
  output : option string
}.

(** [INotebookDisplayOrder]. *)
Record INotebookDisplayOrder : Type := mkDisplayOrder {
  defaultOrder : list string;
  userOrder : option (list string)
}.

(** [vscode.NotebookOutputSelector]. *)
Record NotebookOutputSelector : Type := mkSelector {
  selectorType : string;
  subTypes : option (list string)
}.

(** [IStreamOutput] and [IErrorOutput]; their [outputKind] is fixed by the
    type. *)
Record IStreamOutput : Type := mkStreamOutput { text : string }.

Record IErrorOutput : Type := mkErrorOutput {
  ename : option string;
  evalue : option string;
  traceback : option (list string)
}.

(** [CellKind]. *)
Inductive CellKind : Type := Markdown | Code.

(** [x || []] on an optional array. *)
Definition orEmpty {A : Type} (x : option (list A)) : list A :=
  match x with Some l => l | None => [] end.

(** A [Set<number>] filled with [add] and read with [Array.from]: its
    members in insertion order.  Members are optional because the callers
    add [rendererId!], an optional field. *)
Definition set_add (x : option Z) (s : list (option Z)) : list (option Z) :=
  if bool_decide (x ∈ s) then s else s ++ [x].

Section ResolverModel.
(** [Payload] is a raw output value ([any]), [DocRef] the identity of the
    document object handed to a renderer, [Exn] a thrown value. *)
Context {Payload DocRef Exn : Type}.

(** [vscode.CellDisplayOutput]: [data] maps mime types to raw values.  It
    is kept as the list of the object's own properties in the order in
    which [Object.keys] lists them. *)
Record CellDisplayOutput : Type := mkDisplayOutput {
  data : list (string * Payload)
}.

(** [vscode.CellOutput], the union discriminated by [outputKind]. *)
Inductive CellOutput : Type :=
| CellStreamOutput (o : IStreamOutput)
| CellErrorOutput (o : IErrorOutput)
| CellRichOutput (o : CellDisplayOutput).

Definition outputKind (o : CellOutput) : CellOutputKind :=
  match o with
  | CellStreamOutput _ => Text
  | CellErrorOutput _ => Error
  | CellRichOutput _ => Rich
  end.

Definition Object_keys (d : list (string * Payload)) : list string :=
  map fst d.

(** [ITransformedDisplayOutputDto]. *)
Record ITransformedDisplayOutputDto : Type := mkTransformed {
  dto_outputKind : CellOutputKind;
  dto_data : list (string * Payload);
  orderedMimeTypes : list IOrderedMimeType;
  pickedMimeTypeIndex : nat
}.

(** [IOutput]. *)
Inductive IOutput : Type :=
| OutTransformed (o : ITransformedDisplayOutputDto)
| OutStream (o : IStreamOutput)
| OutError (o : IErrorOutput).

(** How a call ends: with a value, or with a thrown value. *)
Inductive Completion (A : Type) : Type :=
| Normal (a : A)
| Throw (e : Exn).
Arguments Normal {A} _.
Arguments Throw {A} _.

(** [ExtHostNotebookOutputRenderer].  [renderer] is the [render] function
    of the extension's [vscode.NotebookOutputRenderer]; it returns the
    html or throws. *)
Record ExtHostNotebookOutputRenderer : Type := mkRenderer {
  rendererType : string;
  rendererFilter : NotebookOutputSelector;
  handle : Z;
  renderer : DocRef -> CellDisplayOutput -> string -> Completion string
}.

(** One call of a renderer's [render]: which renderer, for which mime
    type. *)
Definition Invocation : Type := (ExtHostNotebookOutputRenderer * string)%type.

(** Computations that call renderers: the calls made so far are threaded
    through, and a thrown value ends the computation. *)
Definition Eff (A : Type) : Type :=
  list Invocation -> list Invocation * Completion A.

Definition ret {A : Type} (a : A) : Eff A := fun calls => (calls, Normal a).

Definition throw {A : Type} (e : Exn) : Eff A := fun calls => (calls, Throw e).

Definition bind {A B : Type} (m : Eff A) (k : A -> Eff B) : Eff B :=
  fun calls =>
    match m calls with
    | (calls', Normal a) => k a calls'
    | (calls', Throw e) => (calls', Throw e)
    end.

Notation "'let!' x := m 'in' k" := (bind m (fun x => k))
  (at level 10, x name, m at level 100, k at level 200).

(** [arr.forEach(callback)] for a callback that updates a captured
    variable [s]. *)
Fixpoint forEachM {A S : Type} (callback : S -> A -> Eff S) (arr : list A)
    (s : S) : Eff S :=
  match arr with
  | [] => ret s
  | x :: rest => let! s' := callback s x in forEachM callback rest s'
  end.

(** [arr.map(callback)] for a callback that also updates a captured
    variable [s]. *)
Fixpoint mapM {A B S : Type} (callback : S -> A -> Eff (S * B))
    (arr : list A) (s : S) : Eff (S * list B) :=
  match arr with
  | [] => ret (s, [])
  | x :: rest =>
      let! r := callback s x in
      let! rs := mapM callback rest (fst r) in
      ret (fst rs, snd r :: snd rs)
  end.

(** [ExtHostNotebookOutputRenderer.matches]. *)
Definition matches (r : ExtHostNotebookOutputRenderer) (mimeType0 : string)
    : bool :=
  match subTypes (rendererFilter r) with
  | Some types =>
      if (indexOf types mimeType0 >=? 0)%Z then true else false
  | None => false
  end.

(** [ExtHostNotebookOutputRenderer.render]: the call is recorded and the
    extension's function decides how it ends. *)
Definition render (r : ExtHostNotebookOutputRenderer) (document : DocRef)
    (o : CellDisplayOutput) (mimeType0 : string) : Eff string :=
  fun calls => (calls ++ [(r, mimeType0)], renderer r document o mimeType0).

(** The fields of [ExtHostNotebookController] that the resolver reads.
    [_notebookOutputRenderers] is a [Map<number, ...>], kept as its entries
    in insertion order, which is the order in which it is iterated. *)
Record ExtHostNotebookController : Type := mkController {
  _outputDisplayOrder : option INotebookDisplayOrder;
  _notebookOutputRenderers : list (Z * ExtHostNotebookOutputRenderer)
}.

Definition outputDisplayOrder (c : ExtHostNotebookController)
    : option INotebookDisplayOrder :=
  _outputDisplayOrder c.

(** [ExtHostNotebookController.findBestMatchedRenderer]. *)
Fixpoint findBestMatchedRenderer_loop
    (entries : list (Z * ExtHostNotebookOutputRenderer)) (mimeType0 : string)
    (matches0 : list ExtHostNotebookOutputRenderer)
    : list ExtHostNotebookOutputRenderer :=
  match entries with
  | [] => matches0
  | entry :: rest =>
      if matches (snd entry) mimeType0 then
        findBestMatchedRenderer_loop rest mimeType0 (matches0 ++ [snd entry])
      else findBestMatchedRenderer_loop rest mimeType0 matches0
  end.

Definition findBestMatchedRenderer (c : ExtHostNotebookController)
    (mimeType0 : string) : list ExtHostNotebookOutputRenderer :=
  findBestMatchedRenderer_loop (_notebookOutputRenderers c) mimeType0 [].

(** The fields of [ExtHostNotebookDocument] that the resolver reads;
    [documentRef] stands for [this] where it is passed on. *)
Record ExtHostNotebookDocument : Type := mkDocument {
  documentRef : DocRef;
  _displayOrder : list string;
  renderingHandler : ExtHostNotebookController
}.

(** The [sorted.forEach] callback, the same text in [transformMimeTypes]
    and in [_transformMimeTypes]; [orderMimeTypes] is the array it pushes
    to. *)
Definition orderMimeType (handler : ExtHostNotebookController)
    (document : DocRef) (o : CellDisplayOutput)
    (orderMimeTypes : list IOrderedMimeType) (mimeType0 : string)
    : Eff (list IOrderedMimeType) :=
  let handlers := findBestMatchedRenderer handler mimeType0 in
  match handlers with
  | first :: others =>
      let! renderedOutput := render first document o mimeType0 in
      let orderMimeTypes :=
        orderMimeTypes ++
          [mkOrderedMimeType mimeType0 true (Some (handle first))
                             (Some renderedOutput)] in
      let orderMimeTypes :=
        orderMimeTypes ++
          map (fun h => mkOrderedMimeType mimeType0 false (Some (handle h)) None)
              others in
      let orderMimeTypes :=
        if mimeTypeSupportedByCore mimeType0 then
          orderMimeTypes ++
            [mkOrderedMimeType mimeType0 false (Some (-1)%Z) None]
        else orderMimeTypes in
      ret orderMimeTypes
  | [] =>
      ret (orderMimeTypes ++ [mkOrderedMimeType mimeType0 false None None])
  end.

Variable host : Host.

(** [ExtHostNotebookDocument.transformMimeTypes]. *)
Definition transformMimeTypes (this : ExtHostNotebookDocument)
    (o : CellDisplayOutput) : Eff ITransformedDisplayOutputDto :=
  let mimeTypes := Object_keys (data o) in
  let coreDisplayOrder := outputDisplayOrder (renderingHandler this) in
  let sorted :=
    sortMimeTypes host mimeTypes
      (orEmpty (coreDisplayOrder ≫= userOrder))
      (_displayOrder this)
      (orEmpty (defaultOrder <$> coreDisplayOrder)) in
  let! orderMimeTypes :=
    forEachM (orderMimeType (renderingHandler this) (documentRef this) o)
             sorted [] in
  ret {| dto_outputKind := outputKind (CellRichOutput o);
         dto_data := data o;
         orderedMimeTypes := orderMimeTypes;
         pickedMimeTypeIndex := 0 |}.

(** [ExtHostNotebookController._transformMimeTypes]. *)
Definition _transformMimeTypes (this : ExtHostNotebookController)
    (document : ExtHostNotebookDocument) (displayOrder : list string)
    (o : CellDisplayOutput) : Eff ITransformedDisplayOutputDto :=
  let mimeTypes := Object_keys (data o) in
  let coreDisplayOrder := outputDisplayOrder this in
  let sorted :=
    sortMimeTypes host mimeTypes
      (orEmpty (coreDisplayOrder ≫= userOrder))
      displayOrder
      (orEmpty (defaultOrder <$> coreDisplayOrder)) in
  let! orderMimeTypes :=
    forEachM (orderMimeType this (documentRef document) o) sorted [] in
  ret {| dto_outputKind := outputKind (CellRichOutput o);
         dto_data := data o;
         orderedMimeTypes := orderMimeTypes;
         pickedMimeTypeIndex := 0 |}.

(** The value thrown when a property is read from [undefined]. *)
Variable typeError : Exn.

(** The [outputs.map] callback of [eventuallyUpdateCellOutputs], of
    [$resolveNotebookData] and of [NotebookEditorCellEditBuilder.insert]:
    the same text, up to the transform that is called.  [renderers] is the
    set the callback adds to. *)
Definition transformOutput
    (transform : CellDisplayOutput -> Eff ITransformedDisplayOutputDto)
    (renderers : list (option Z)) (o : CellOutput)
    : Eff (list (option Z) * IOutput) :=
  match o with
  | CellRichOutput rich =>
      let! r := transform rich in
      match orderedMimeTypes r !! pickedMimeTypeIndex r with
      | Some picked =>
          if isResolved picked then
            ret (set_add (rendererId picked) renderers, OutTransformed r)
          else ret (renderers, OutTransformed r)
      | None => throw typeError
      end
  | CellStreamOutput s => ret (renderers, OutStream s)
  | CellErrorOutput e => ret (renderers, OutError e)
  end.

(** [NotebookCellOutputsSplice]: the tuple [start, deleteCount, outputs]. *)
Definition NotebookCellOutputsSplice : Type := (nat * nat * list IOutput)%type.

(** The arguments of [$spliceNotebookCellOutputs] that
    [eventuallyUpdateCellOutputs] computes. *)
Record SpliceNotebookCellOutputs : Type := mkSpliceCall {
  call_cellHandle : Z;
  call_outputDtos : list NotebookCellOutputsSplice;
  call_renderers : list (option Z)
}.

(** [ExtHostNotebookDocument.eventuallyUpdateCellOutputs]; the result is
    the call made on the proxy. *)
Definition eventuallyUpdateCellOutputs (this : ExtHostNotebookDocument)
    (cellHandle : Z) (diffs : list (ISplice CellOutput))
    : Eff SpliceNotebookCellOutputs :=
  let renderers := [] in
  let! r := mapM (fun renderers diff =>
               let outputs := toInsert diff in
               let! t := mapM (transformOutput (transformMimeTypes this))
                         outputs renderers in
               ret (fst t, (start diff, deleteCount diff, snd t)))
            diffs renderers in
  ret {| call_cellHandle := cellHandle;
         call_outputDtos := snd r;
         call_renderers := fst r |}.

(** The [outputs.map] of [NotebookEditorCellEditBuilder.insert], the third
    place with that callback; [document] is [this.editor.document] and
    [_renderers] the set kept by the builder. *)
Definition insert_transformedOutputs (document : ExtHostNotebookDocument)
    (_renderers : list (option Z)) (outputs : list CellOutput)
    : Eff (list (option Z) * list IOutput) :=
  mapM (transformOutput (transformMimeTypes document)) outputs _renderers.

(** A cell as [openNotebook] gives it and as [$resolveNotebookData] hands
    it on; [metadata], copied like [language] and [source], is left out. *)
Record NotebookCellData (O : Type) : Type := mkCellData {
  cell_language : string;
  cell_cellKind : CellKind;
  cell_source : string;
  cell_outputs : list O
}.
Arguments mkCellData {O} _ _ _ _.
Arguments cell_language {O} _.
Arguments cell_cellKind {O} _.
Arguments cell_source {O} _.
Arguments cell_outputs {O} _.

(** The part of [$resolveNotebookData] after [openNotebook] has answered:
    the [rawCells.cells.map] that builds the cells of the dto.
    [displayOrder] is [rawCells.metadata.displayOrder]. *)
Definition resolveNotebookData_cells (this : ExtHostNotebookController)
    (document : ExtHostNotebookDocument) (displayOrder : option (list string))
    (cells : list (NotebookCellData CellOutput))
    : Eff (list (NotebookCellData IOutput)) :=
  let renderers := [] in
  let! r := mapM (fun renderers cell =>
               let! t := mapM (transformOutput
                            (_transformMimeTypes this document
                               (orEmpty displayOrder)))
                         (cell_outputs cell) renderers in
               ret (fst t,
                    {| cell_language := cell_language cell;
                       cell_cellKind := cell_cellKind cell;
                       cell_source := cell_source cell;
                       cell_outputs := snd t |}))
            cells renderers in
  ret (snd r).

(** The candidates that the [forEach] callback pushes for one mime type,
    given what the first matching renderer returned. *)
Definition candidatesOf (handler : ExtHostNotebookController)
    (mimeType0 : string) (renderedOutput : string) : list IOrderedMimeType :=
  match findBestMatchedRenderer handler mimeType0 with
  | first :: others =>
      mkOrderedMimeType mimeType0 true (Some (handle first)) (Some renderedOutput)
      :: map (fun h => mkOrderedMimeType mimeType0 false (Some (handle h)) None)
             others
      ++ (if mimeTypeSupportedByCore mimeType0
          then [mkOrderedMimeType mimeType0 false (Some (-1)%Z) None] else [])
  | [] => [mkOrderedMimeType mimeType0 false None None]
  end.

(** Every renderer that the resolver calls for the mime types [sorted]
    returns. *)
Definition rendersReturn (handler : ExtHostNotebookController)
    (document : DocRef) (o : CellDisplayOutput) (sorted : list string) : Prop :=
  forall m first others, m ∈ sorted ->
    findBestMatchedRenderer handler m = first :: others ->
    exists html, renderer first document o m = Normal html.

(** The calls that the resolver makes for the mime types [sorted]: one per
    mime type that has a matching renderer, on the first of them. *)
Definition firstRendererCalls (handler : ExtHostNotebookController)
    (sorted : list string) : list Invocation :=
  flat_map (fun m => match findBestMatchedRenderer handler m with
                     | first :: _ => [(first, m)]
                     | [] => []
                     end) sorted.
(** The list [sorted] of both transforms, for the controller and the
    document display order they read. *)
Definition sortedMimeTypes (handler : ExtHostNotebookController)
    (displayOrder : list string) (o : CellDisplayOutput) : list string :=
  sortMimeTypes host (Object_keys (data o))
    (orEmpty (outputDisplayOrder handler ≫= userOrder))
    displayOrder
    (orEmpty (defaultOrder <$> outputDisplayOrder handler)).

(** What the first matching renderer returns for a mime type (the empty
    string when there is none, or when it throws). *)
Definition renderedOutputOf (handler : ExtHostNotebookController)
    (document : DocRef) (o : CellDisplayOutput) (mimeType0 : string) : string :=
  match findBestMatchedRenderer handler mimeType0 with
  | first :: _ =>
      match renderer first document o mimeType0 with
      | Normal html => html
      | Throw _ => EmptyString
      end
  | [] => EmptyString
  end.

(** The candidates of mime type [mimeType0] in [dto] are [candidates], one
    after the other. *)
Definition emitsFor (dto : ITransformedDisplayOutputDto) (mimeType0 : string)
    (candidates : list IOrderedMimeType) : Prop :=
  exists earlier later,
    orderedMimeTypes dto = earlier ++ candidates ++ later
    /\ forall c, c ∈ earlier ++ later -> mimeType c <> mimeType0.
(** How an inserted output and the output handed to the proxy for it are
    related: a stream or error output is the same object, a rich output is
    a record returned by [transformMimeTypes] of the document. *)
Definition handedOn (this : ExtHostNotebookDocument) (o : CellOutput)
    (dto : IOutput) : Prop :=
  match o with
  | CellStreamOutput s => dto = OutStream s
  | CellErrorOutput e => dto = OutError e
  | CellRichOutput rich =>
      exists calls calls' r,
        transformMimeTypes this rich calls = (calls', Normal r)
        /\ dto = OutTransformed r
  end.

(** An output splice that answers an input splice: same [start], same
    [deleteCount], and the inserted outputs handed on one by one. *)
Definition spliceHandedOn (this : ExtHostNotebookDocument)
    (diff : ISplice CellOutput) (dto : NotebookCellOutputsSplice) : Prop :=
  fst (fst dto) = start diff
  /\ snd (fst dto) = deleteCount diff
  /\ Forall2 (handedOn this) (toInsert diff) (snd dto).

(** A rich output that has a mime type and whose renderers return. *)
Definition wellBehaved (this : ExtHostNotebookDocument) (o : CellOutput)
    : Prop :=
  match o with
  | CellRichOutput rich =>
      data rich <> []
      /\ rendersReturn (renderingHandler this) (documentRef this) rich
           (sortedMimeTypes (renderingHandler this) (_displayOrder this) rich)
  | _ => True
  end.
(** The output handed on for a stream or an error output. *)
Definition forwarded (o : CellOutput) : option IOutput :=
  match o with
  | CellStreamOutput s => Some (OutStream s)
  | CellErrorOutput e => Some (OutError e)
  | CellRichOutput _ => None
  end.
(** What [eventuallyUpdateCellOutputs] keeps true of its set [renderers]:
    its members are distinct, and each one is the handle of a renderer
    called since [calls0]. *)
Definition reportedSince (calls0 : list Invocation)
    (renderers0 : list (option Z)) (calls : list Invocation) : Prop :=
  NoDup renderers0
  /\ exists made, calls = calls0 ++ made
     /\ forall x, x ∈ renderers0 ->
          exists r m, (r, m) ∈ made /\ x = Some (handle r).

(** ** The edit builder *)

(** [NotebookCellRunState] and [NotebookCellMetadata]. *)
Inductive NotebookCellRunState : Type :=
| RunStateRunning | RunStateIdle | RunStateSuccess | RunStateError.

Record NotebookCellMetadata : Type := mkCellMetadata {
  editable : option bool;
  runnable : option bool;
  executionOrder : option Z;
  statusMessage : option string;
  runState : option NotebookCellRunState
}.

(** [ICellDto2], with [source] as the array that [insert] makes of it. *)
Record ICellDto2 : Type := mkCellDto2 {
  source : list string;
  language : string;
  cellKind : CellKind;
  outputs : list IOutput;
  metadata : option NotebookCellMetadata
}.

(** [INotebookEditData]. *)
Record INotebookEditData : Type := mkEditData {
  documentVersionId : Z;
  edits : list (ICellEditOperation ICellDto2);
  renderers : list (option Z)
}.

(** [NotebookEditorCellEditBuilder]; [editor_document] is
    [this.editor.document]. *)
Record NotebookEditorCellEditBuilder : Type := mkBuilder {
  _finalized : bool;
  _documentVersionId : Z;
  _collectedEdits : list (ICellEditOperation ICellDto2);
  _renderers : list (option Z);
  editor_document : ExtHostNotebookDocument
}.

(** [new NotebookEditorCellEditBuilder(editor)]; [versionId] is
    [editor.document.versionId]. *)
Definition newBuilder (document : ExtHostNotebookDocument) (versionId : Z)
    : NotebookEditorCellEditBuilder :=
  {| _finalized := false;
     _documentVersionId := versionId;
     _collectedEdits := [];
     _renderers := [];
     editor_document := document |}.

(** [finalize]: the builder afterwards and the data returned. *)
Definition finalize (this : NotebookEditorCellEditBuilder)
    : NotebookEditorCellEditBuilder * INotebookEditData :=
  ({| _finalized := true;
      _documentVersionId := _documentVersionId this;
      _collectedEdits := _collectedEdits this;
      _renderers := _renderers this;
      editor_document := editor_document this |},
   {| documentVersionId := _documentVersionId this;
      edits := _collectedEdits this;
      renderers := _renderers this |}).

(** The [Error('Edit is only valid while callback runs')]. *)
Variable editFinalized : Exn.

Definition _throwIfFinalized (this : NotebookEditorCellEditBuilder) : Eff unit :=
  if _finalized this then throw editFinalized else ret tt.

(** The [content] argument of [insert]: a string or an array of strings. *)
Inductive CellContent : Type :=
| ContentString (s : string)
| ContentLines (lines : list string).

(** [insert]; the result is the builder afterwards. *)
Definition insert (this : NotebookEditorCellEditBuilder) (index : nat)
    (content : CellContent) (language0 : string) (type : CellKind)
    (outputs0 : list CellOutput) (metadata0 : option NotebookCellMetadata)
    : Eff NotebookEditorCellEditBuilder :=
  let! _ := _throwIfFinalized this in
  let sourceArr :=
    match content with
    | ContentLines lines => lines
    | ContentString s => split_lines s
    end in
  let! t := insert_transformedOutputs (editor_document this) (_renderers this)
                                      outputs0 in
  let cell := {| source := sourceArr;
                 language := language0;
                 cellKind := type;
                 outputs := snd t;
                 metadata := metadata0 |} in
  ret {| _finalized := _finalized this;
         _documentVersionId := _documentVersionId this;
         _collectedEdits := _collectedEdits this ++ [CellInsert index [cell]];
         _renderers := fst t;
         editor_document := editor_document this |}.

(** [delete]. *)
Definition delete (this : NotebookEditorCellEditBuilder) (index : nat)
    : Eff NotebookEditorCellEditBuilder :=
  let! _ := _throwIfFinalized this in
  ret {| _finalized := _finalized this;
         _documentVersionId := _documentVersionId this;
         _collectedEdits := _collectedEdits this ++ [CellDelete index 1];
         _renderers := _renderers this;
         editor_document := editor_document this |}.

(** What [_applyEdit] returns: the promise resolved with [true], or the
    promise of [$tryApplyEdits] with the arguments computed. *)
Inductive AppliedEdit : Type :=
| ResolvedTrue
| TryApplyEdits (documentVersionId0 : Z)
                (compressedEdits : list (ICellEditOperation ICellDto2))
                (renderers0 : list (option Z)).

(** [ExtHostNotebookEditor._applyEdit]: the builder afterwards and what is
    returned; [None] as in [compressEdits_loop].  The builder afterwards
    holds the edit objects as the loop has left them. *)
Definition _applyEdit (editBuilder : NotebookEditorCellEditBuilder)
    : option (NotebookEditorCellEditBuilder * AppliedEdit) :=
  let (editBuilder', editData) := finalize editBuilder in
  if length (edits editData) =? 0 then Some (editBuilder', ResolvedTrue)
  else
    match compressEdits_loop (edits editData) [] [] (-1)%Z with
    | Some (edits', compressedEdits) =>
        Some ({| _finalized := _finalized editBuilder';
                 _documentVersionId := _documentVersionId editBuilder';
                 _collectedEdits := edits';
                 _renderers := _renderers editBuilder';
                 editor_document := editor_document editBuilder' |},
              TryApplyEdits (documentVersionId editData)
                            (resolve edits' compressedEdits)
                            (renderers editData))
    | None => None
    end.

(** ** Registering renderers *)

(** The calls on the proxy that registering and disposing make; the
    extension's identifier and location and the preloads are left out. *)
Inductive RendererProxyCall : Type :=
| RegisterNotebookRenderer (type : string) (filter0 : NotebookOutputSelector)
                           (handle0 : Z)
| UnregisterNotebookRenderer (handle0 : Z).

(** The static counter [ExtHostNotebookOutputRenderer._handlePool], the
    controller, and the calls made on the proxy. *)
Record RendererRegistry : Type := mkRegistry {
  _handlePool : Z;
  registry_controller : ExtHostNotebookController;
  registry_proxyCalls : list RendererProxyCall
}.

(** [registerNotebookOutputRenderer]: the state afterwards, and the
    renderer whose handle the returned disposable closes over. *)
Definition registerNotebookOutputRenderer (st : RendererRegistry)
    (type : string) (filter0 : NotebookOutputSelector)
    (renderer0 : DocRef -> CellDisplayOutput -> string -> Completion string)
    : RendererRegistry * ExtHostNotebookOutputRenderer :=
  let extHostRenderer :=
    {| rendererType := type;
       rendererFilter := filter0;
       handle := _handlePool st;
       renderer := renderer0 |} in
  ({| _handlePool := (_handlePool st + 1)%Z;
      registry_controller :=
        {| _outputDisplayOrder := _outputDisplayOrder (registry_controller st);
           _notebookOutputRenderers :=
             Map_set (_notebookOutputRenderers (registry_controller st))
                     (handle extHostRenderer) extHostRenderer |};
      registry_proxyCalls :=
        registry_proxyCalls st
        ++ [RegisterNotebookRenderer type filter0 (handle extHostRenderer)] |},
   extHostRenderer).

(** The callback of the disposable that [registerNotebookOutputRenderer]
    returns. *)
Definition disposeNotebookOutputRenderer (st : RendererRegistry)
    (extHostRenderer : ExtHostNotebookOutputRenderer) : RendererRegistry :=
  {| _handlePool := _handlePool st;
     registry_controller :=
       {| _outputDisplayOrder := _outputDisplayOrder (registry_controller st);
          _notebookOutputRenderers :=
            Map_delete (_notebookOutputRenderers (registry_controller st))
                       (handle extHostRenderer) |};
     registry_proxyCalls :=
       registry_proxyCalls st
       ++ [UnregisterNotebookRenderer (handle extHostRenderer)] |}.
End ResolverModel.

Arguments CellDisplayOutput : clear implicits.
Arguments CellOutput : clear implicits.
Arguments ITransformedDisplayOutputDto : clear implicits.
Arguments IOutput : clear implicits.
Arguments Completion : clear implicits.
Arguments Normal {Exn A} _.
Arguments Throw {Exn A} _.
Arguments ExtHostNotebookOutputRenderer : clear implicits.
Arguments Invocation : clear implicits.
Arguments Eff : clear implicits.
Arguments ExtHostNotebookController : clear implicits.
Arguments ExtHostNotebookDocument : clear implicits.
Arguments NotebookCellOutputsSplice : clear implicits.
Arguments SpliceNotebookCellOutputs : clear implicits.
Arguments ICellDto2 : clear implicits.
Arguments INotebookEditData : clear implicits.
Arguments NotebookEditorCellEditBuilder : clear implicits.
Arguments AppliedEdit : clear implicits.
Arguments RendererRegistry : clear implicits.
Arguments NotebookCellData : clear implicits.
Arguments mkCellData {O} _ _ _ _.
Arguments cell_language {O} _.
Arguments cell_cellKind {O} _.
Arguments cell_source {O} _.
Arguments cell_outputs {O} _.

(** ** Sample data

    Raw values, document identities and thrown values are strings here. *)

(** A rich output without any mime type. *)
Definition emptyRichOutput {Payload : Type} : CellDisplayOutput Payload :=
  {| data := [] |}.

(** A renderer with the given handle and sub types whose [render] always
    ends the same way. *)
Definition sampleRenderer (handle0 : Z) (types : list string)
    (outcome : Completion string string)
    : ExtHostNotebookOutputRenderer string string string :=
  {| rendererType := "sample";
     rendererFilter := {| selectorType := "display"; subTypes := Some types |};
     handle := handle0;
     renderer := fun _ _ _ => outcome |}.

(** A controller without renderers and without a display order. *)
Definition bareController : ExtHostNotebookController string string string :=
  {| _outputDisplayOrder := None; _notebookOutputRenderers := [] |}.

(** A controller with two renderers for [text/html], registered in this
    order, and the default display order html, plain. *)
Definition htmlController : ExtHostNotebookController string string string :=
  {| _outputDisplayOrder :=
       Some {| defaultOrder := ["text/html"; "text/plain"]%string;
               userOrder := None |};
     _notebookOutputRenderers :=
       [ (0%Z, sampleRenderer 0 ["text/html"]%string (Normal "<b>first</b>"%string));
         (1%Z, sampleRenderer 1 ["text/html"; "x/custom"]%string
                              (Normal "<i>second</i>"%string)) ] |}.

(** A controller whose only renderer, for [text/html], throws. *)
Definition throwingController : ExtHostNotebookController string string string :=
  {| _outputDisplayOrder := None;
     _notebookOutputRenderers :=
       [ (0%Z, sampleRenderer 0 ["text/html"]%string (Throw "boom"%string)) ] |}.

Definition sampleDocument (c : ExtHostNotebookController string string string)
    : ExtHostNotebookDocument string string string :=
  {| documentRef := "file:///notebook";
     _displayOrder := [];
     renderingHandler := c |}.

Definition plainOutput : CellDisplayOutput string :=
  {| data := [("text/plain", "hello")]%string |}.

Definition mixedOutput : CellDisplayOutput string :=
  {| data := [("x/unknown", "?"); ("text/html", "<p>hello</p>")]%string |}.

(** Splices that insert a stream output and a rich output, and splices
    that insert only a stream and an error output. *)
Definition richDiffs : list (ISplice (CellOutput string)) :=
  [mkSplice 0 1 [CellStreamOutput (mkStreamOutput "out");
                 CellRichOutput mixedOutput]].

Definition plainDiffs : list (ISplice (CellOutput string)) :=
  [mkSplice 2 0 [CellStreamOutput (mkStreamOutput "out")];
   mkSplice 5 1 [CellErrorOutput (mkErrorOutput (Some "E"%string) None None)]].

(** The registry after the two renderers of [htmlController] have been
    registered. *)
Definition htmlRegistry : RendererRegistry string string string :=
  {| _handlePool := 2;
     registry_controller := htmlController;
     registry_proxyCalls := [] |}.

(* ===================================================================== *)
(** * Part II: properties *)
(* ===================================================================== *)

Example diff_example_delete :
  diff Nat.eqb [1; 2; 3] [1; 3] (fun x => bool_decide (x ∈ [1; 2; 3]))
  = Some [mkSplice 1 1 []].
Proof. reflexivity. Qed.

Example diff_example_insert :
  diff Nat.eqb [1; 2] [1; 7; 2] (fun _ => false) = Some [mkSplice 1 0 [7]].
Proof. reflexivity. Qed.

(** ** Sequence differ *)

Section DiffProperties.
Context {T : Type}.
Implicit Types (r result : list (ISplice T)) (s : ISplice T).
Implicit Types (before after arr : list T).

Lemma applySplices_snoc r s arr :
  applySplices (r ++ [s]) arr
  = applySplices r (array_splice arr (start s) (deleteCount s) (toInsert s)).
Proof. unfold applySplices. by rewrite reverse_snoc. Qed.

Lemma array_splice_app arr (X : list T) st d ins :
  st + d <= length arr ->
  array_splice (arr ++ X) st d ins = array_splice arr st d ins ++ X.
Proof.
  intros Hle. unfold array_splice.
  rewrite take_app_le by lia. rewrite drop_app_le by lia.
  by rewrite <- !app_assoc.
Qed.

Lemma array_splice_length_ge arr st d ins :
  st <= length arr -> st <= length (array_splice arr st d ins).
Proof.
  intros Hle. unfold array_splice. rewrite length_app, length_take. lia.
Qed.

Lemma chained_mono (rs : list (ISplice T)) g g' n n' :
  chained rs g n -> g' + n <= g + n' -> chained rs g' n'.
Proof.
  destruct rs as [|s rs]; simpl; [done|].
  intros (Hend & Hnoop & Hrest) Hle. split; [lia|]. by split.
Qed.

(** Splices that end inside a prefix of the array leave the rest of the
    array alone. *)
Lemma foldl_splice_app (rs : list (ISplice T)) g n (P X : list T) :
  chained rs g n -> n <= length P ->
  foldl (fun acc s => array_splice acc (start s) (deleteCount s) (toInsert s))
        (P ++ X) rs
  = foldl (fun acc s => array_splice acc (start s) (deleteCount s) (toInsert s))
        P rs ++ X.
Proof.
  revert g n P. induction rs as [|s rs IH]; intros g n P Hch Hn; simpl; [done|].
  destruct Hch as (Hend & _ & Hrest).
  rewrite array_splice_app by lia.
  apply (IH 1 (start s)); [done|].
  apply array_splice_length_ge. lia.
Qed.

Lemma applySplices_app r g n (P X : list T) :
  chained (reverse r) g n -> n <= length P ->
  applySplices r (P ++ X) = applySplices r P ++ X.
Proof. intros. unfold applySplices. by eapply foldl_splice_app. Qed.

(** What one call of [pushSplice] does to the invariant and to the array
    that the splices produce. *)
Lemma pushSplice_spec result before i d ins :
  chained (reverse result) 0 i ->
  i + d <= length before ->
  applySplices (pushSplice result i d ins) (take (i + d) before)
    = applySplices result (take i before) ++ ins
  /\ chained (reverse (pushSplice result i d ins)) 0 (i + d).
Proof.
  intros Hch Hle. unfold pushSplice.
  destruct ((d =? 0) && (length ins =? 0)) eqn:Hnoop.
  { apply andb_true_iff in Hnoop as [Hd Hins].
    apply Nat.eqb_eq in Hd. apply Nat.eqb_eq in Hins.
    apply nil_length_inv in Hins. subst d ins.
    rewrite Nat.add_0_r, app_nil_r. by split. }
  assert (Hnn : ~ (d = 0 /\ ins = [])).
  { intros [-> ->]. simpl in Hnoop. done. }
  assert (Hfresh : chained (reverse result) 1 i ->
    applySplices (result ++ [mkSplice i d ins]) (take (i + d) before)
      = applySplices result (take i before) ++ ins
    /\ chained (reverse (result ++ [mkSplice i d ins])) 0 (i + d)).
  { intros Hg. split.
    - rewrite applySplices_snoc. simpl. unfold array_splice.
      rewrite take_take, Nat.min_l by lia.
      rewrite drop_ge by (rewrite length_take; lia).
      rewrite app_nil_r.
      apply (applySplices_app _ 1 i); [done|].
      rewrite length_take. lia.
    - rewrite reverse_snoc. simpl. split; [lia|]. split; [|done].
      intros [Hd Hins]. simpl in *. by apply Hnn. }
  destruct result as [|l r' _] using rev_ind.
  { simpl. by apply Hfresh. }
  rewrite last_snoc.
  destruct (start l + deleteCount l =? i) eqn:Hcont.
  - apply Nat.eqb_eq in Hcont.
    rewrite removelast_last.
    rewrite reverse_snoc in Hch. simpl in Hch.
    destruct Hch as (Hend & Hlnoop & Hrest).
    split.
    + rewrite !applySplices_snoc. simpl. unfold array_splice.
      rewrite !take_take, !Nat.min_l by lia.
      rewrite !drop_ge by (rewrite length_take; lia).
      rewrite !app_nil_r.
      rewrite !(applySplices_app r' 1 (start l))
        by (done || (rewrite length_take; lia)).
      by rewrite <- app_assoc.
    + rewrite reverse_snoc. simpl. split; [lia|]. split; [|done].
      intros [Hd Hins]. simpl in *. apply Hlnoop. split; [lia|].
      by apply app_eq_nil in Hins as [? _].
  - apply Nat.eqb_neq in Hcont. apply Hfresh.
    rewrite reverse_snoc in Hch |- *. simpl in *.
    destruct Hch as (Hend & Hlnoop & Hrest). split; [lia|]. by split.
Qed.

Section Loop.
Variable same : T -> T -> bool.
Variable contains : T -> bool.
Variables before after : list T.

(** The loop returns, and keeps the invariant, whatever [same] and
    [contains] answer. *)
Lemma diff_loop_shape fuel i j result :
  (length before - i) + (length after - j) < fuel ->
  i <= length before -> j <= length after ->
  chained (reverse result) 0 i ->
  exists r, diff_loop same fuel before after contains i j result = Some r
            /\ chained (reverse r) 0 (length before).
Proof.
  revert i j result.
  induction fuel as [|fuel IH]; intros i j result Hfuel Hi Hj Hch; [lia|].
  simpl.
  destruct (i =? length before) eqn:Ei.
  { apply Nat.eqb_eq in Ei. subst i. eexists. split; [done|].
    destruct (pushSplice_spec result before (length before) 0
                (drop j after)) as [_ H]; [done|lia|].
    by rewrite Nat.add_0_r in H. }
  apply Nat.eqb_neq in Ei.
  destruct (j =? length after) eqn:Ej.
  { apply Nat.eqb_eq in Ej. subst j. eexists. split; [done|].
    destruct (pushSplice_spec result before i (length before - i) [])
      as [_ H]; [done|lia|].
    by replace (i + (length before - i)) with (length before) in H by lia. }
  apply Nat.eqb_neq in Ej.
  destruct (lookup_lt_is_Some_2 before i) as [b Hb]; [lia|].
  destruct (lookup_lt_is_Some_2 after j) as [a Ha]; [lia|].
  rewrite Hb, Ha.
  destruct (same b a).
  - apply IH; [lia..|]. eapply chained_mono; [done|lia].
  - destruct (contains a).
    + apply IH; [lia..|].
      by destruct (pushSplice_spec result before i 1 []) as [_ H]; [|lia|].
    + apply IH; [lia..|].
      destruct (pushSplice_spec result before i 0 [a]) as [_ H]; [done|lia|].
      by rewrite Nat.add_0_r in H.
Qed.

Hypothesis same_sound : forall x y, same x y = true -> x = y.

(** With a sound [same], the splices built so far turn the part of
    [before] already walked into the part of [after] already walked. *)
Lemma diff_loop_apply fuel i j result r :
  i <= length before -> j <= length after ->
  chained (reverse result) 0 i ->
  applySplices result (take i before) = take j after ->
  diff_loop same fuel before after contains i j result = Some r ->
  applySplices r before = after.
Proof.
  revert i j result.
  induction fuel as [|fuel IH]; intros i j result Hi Hj Hch Hinv; [done|].
  simpl.
  destruct (i =? length before) eqn:Ei.
  { apply Nat.eqb_eq in Ei. subst i. intros [= <-].
    destruct (pushSplice_spec result before (length before) 0
                (drop j after)) as [H _]; [done|lia|].
    rewrite Nat.add_0_r, firstn_all in H. rewrite H.
    rewrite firstn_all in Hinv. rewrite Hinv. apply take_drop. }
  apply Nat.eqb_neq in Ei.
  destruct (j =? length after) eqn:Ej.
  { apply Nat.eqb_eq in Ej. subst j. intros [= <-].
    destruct (pushSplice_spec result before i (length before - i) [])
      as [H _]; [done|lia|].
    replace (i + (length before - i)) with (length before) in H by lia.
    rewrite firstn_all in H. rewrite H, Hinv, app_nil_r.
    apply firstn_all. }
  apply Nat.eqb_neq in Ej.
  destruct (lookup_lt_is_Some_2 before i) as [b Hb]; [lia|].
  destruct (lookup_lt_is_Some_2 after j) as [a Ha]; [lia|].
  rewrite Hb, Ha.
  destruct (same b a) eqn:Hsame.
  - apply same_sound in Hsame. subst a.
    apply IH; [lia..| |].
    + eapply chained_mono; [done|lia].
    + rewrite !Nat.add_1_r.
      rewrite (take_S_r before i b), (take_S_r after j b) by done.
      rewrite (applySplices_app result 0 i)
        by (done || (rewrite length_take; lia)).
      by rewrite Hinv.
  - destruct (contains a).
    + destruct (pushSplice_spec result before i 1 []) as [H1 H2]; [done|lia|].
      apply IH; [lia..|done|].
      by rewrite H1, app_nil_r.
    + destruct (pushSplice_spec result before i 0 [a]) as [H1 H2]; [done|lia|].
      rewrite Nat.add_0_r in H1, H2.
      apply IH; [lia..|done|].
      rewrite H1, Hinv, Nat.add_1_r. by rewrite (take_S_r after j a).
Qed.
End Loop.

(** The invariant read front to back. *)
Lemma chained_forward r g n :
  chained (reverse r) g n ->
  (forall s, s ∈ r -> ~ isNoop s) /\
  (forall k s1 s2, r !! k = Some s1 -> r !! S k = Some s2 ->
                   start s1 + deleteCount s1 < start s2).
Proof.
  revert g n. induction r as [|s r IH] using rev_ind; intros g n Hch.
  { split; [by intros s Hs%elem_of_nil | by intros k s1 s2 Hk]. }
  rewrite reverse_snoc in Hch. simpl in Hch.
  destruct Hch as (Hend & Hnoop & Hrest).
  destruct (IH _ _ Hrest) as [IH1 IH2]. split.
  - intros s' [Hs'|Hs']%elem_of_app; [by apply IH1|].
    apply list_elem_of_singleton in Hs'. by subst.
  - intros k s1 s2 H1 H2.
    destruct (decide (S k < length r)) as [Hlt|Hge].
    + rewrite lookup_app_l in H1 by lia. rewrite lookup_app_l in H2 by lia.
      by eapply IH2.
    + assert (Hk : S k = length r).
      { apply lookup_lt_Some in H2. rewrite length_app in H2. simpl in H2. lia. }
      rewrite lookup_app_l in H1 by lia.
      rewrite lookup_app_r in H2 by lia.
      replace (S k - length r) with 0 in H2 by lia. simpl in H2.
      injection H2 as <-.
      destruct r as [|l r' _] using rev_ind; [done|].
      rewrite length_app in Hk. simpl in Hk.
      rewrite lookup_app_r in H1 by lia.
      replace (k - length r') with 0 in H1 by lia. simpl in H1.
      injection H1 as <-.
      rewrite reverse_snoc in Hrest. simpl in Hrest. lia.
Qed.
End DiffProperties.

Section DiffTheorems.
Context {T : Type}.

Lemma diff_returns (same : T -> T -> bool) (contains : T -> bool)
    (before after : list T) :
  exists r, diff same before after contains = Some r
            /\ chained (reverse r) 0 (length before).
Proof.
  unfold diff. apply diff_loop_shape; simpl; [lia|lia|lia|done].
Qed.

Lemma adjacent_lt_sorted (r : list (ISplice T)) :
  (forall k s1 s2, r !! k = Some s1 -> r !! S k = Some s2 ->
                   start s1 + deleteCount s1 < start s2) ->
  forall k k' s1 s2, k < k' -> r !! k = Some s1 -> r !! k' = Some s2 ->
                     start s1 + deleteCount s1 < start s2.
Proof.
  intros Hadj k k'. induction k' as [|k' IH]; intros s1 s2 Hlt H1 H2; [lia|].
  destruct (decide (k = k')) as [->|Hne]; [by eapply Hadj|].
  destruct (lookup_lt_is_Some_2 r k') as [s Hs].
  { apply lookup_lt_Some in H2. lia. }
  specialize (IH s1 s ltac:(lia) H1 Hs).
  specialize (Hadj k' s s2 Hs H2). lia.
Qed.

(** C2.  Whatever [before], [after] and [contains] are, and for any
    equality test [same] that only accepts equal elements (strict equality
    does), [diff] returns splices that turn [before] into exactly [after]
    when each of them deletes [deleteCount] items at [start] and inserts
    [toInsert] there, [start] being a position of [before] (the splices
    are applied from the last to the first, as the repository applies
    splices). *)
Theorem diff_applied_to_before_gives_after
    (same : T -> T -> bool) (contains : T -> bool) (before after : list T) :
  (forall x y, same x y = true -> x = y) ->
  exists r, diff same before after contains = Some r
            /\ applySplices r before = after.
Proof.
  intros Hsound.
  destruct (diff_returns same contains before after) as (r & Hr & _).
  exists r. split; [done|].
  unfold diff in Hr.
  eapply (diff_loop_apply same contains before after Hsound _ 0 0 []);
    [lia|lia|done|done|exact Hr].
Qed.

(** C3.  [diff] returns, and in what it returns: starts never decrease
    from one splice to a later one; no splice has both [deleteCount = 0]
    and an empty [toInsert]; no splice starts where the splice just before
    it ends ([start + deleteCount]); and for two empty inputs the result is
    the empty list. *)
Theorem diff_splices_ordered_merged_nonempty
    (same : T -> T -> bool) (contains : T -> bool) (before after : list T) :
  (exists r, diff same before after contains = Some r
     /\ (forall k k' s1 s2, k < k' -> r !! k = Some s1 -> r !! k' = Some s2 ->
                            start s1 <= start s2)
     /\ (forall s, s ∈ r -> ~ (deleteCount s = 0 /\ toInsert s = []))
     /\ (forall k s1 s2, r !! k = Some s1 -> r !! S k = Some s2 ->
                         start s2 <> start s1 + deleteCount s1))
  /\ diff same [] [] contains = Some [].
Proof.
  split; [|done].
  destruct (diff_returns same contains before after) as (r & Hr & Hch).
  exists r. split; [done|].
  apply chained_forward in Hch as [Hnoop Hadj].
  split; [|split].
  - intros k k' s1 s2 Hlt H1 H2.
    pose proof (adjacent_lt_sorted r Hadj k k' s1 s2 Hlt H1 H2). lia.
  - exact Hnoop.
  - intros k s1 s2 H1 H2. specialize (Hadj k s1 s2 H1 H2). lia.
Qed.
End DiffTheorems.

Lemma diff_applied_to_before_gives_after_witness :
  (forall x y : nat, Nat.eqb x y = true -> x = y) /\
  exists r, diff Nat.eqb [1; 2; 3] [3; 1; 4]
                 (fun x => bool_decide (x ∈ [1; 2; 3])) = Some r
            /\ applySplices r [1; 2; 3] = [3; 1; 4].
Proof.
  split.
  - intros x y H. by apply Nat.eqb_eq.
  - apply diff_applied_to_before_gives_after.
    intros x y H. by apply Nat.eqb_eq.
Defined.

(** The positions of the splices are positions of [before]: applied from
    the first to the last on the running array, the second splice below
    would land one place too early. *)
Example diff_positions_refer_to_before :
  diff Nat.eqb [1; 2; 3] [7; 1; 2; 8; 3] (fun _ => false)
    = Some [mkSplice 0 0 [7]; mkSplice 2 0 [8]]
  /\ applySplices [mkSplice 0 0 [7]; mkSplice 2 0 [8]] [1; 2; 3] = [7; 1; 2; 8; 3]
  /\ applySplicesForward [mkSplice 0 0 [7]; mkSplice 2 0 [8]] [1; 2; 3]
     = [7; 1; 8; 2; 3].
Proof. repeat split. Qed.

(** ** Mime-type ordering *)

Section ScanProperties.
Variable host : Host.
Implicit Types (displayOrder : list string) (m : string).

Lemma firstMatchAt_cons_0 pattern displayOrder m :
  firstMatchAt host (pattern :: displayOrder) m 0 ->
  matchGlobUniversal host pattern m = true.
Proof. intros [(p & Hp & Hm) _]. simpl in Hp. by injection Hp as ->. Qed.

Lemma firstMatchAt_cons_S pattern displayOrder m k :
  firstMatchAt host (pattern :: displayOrder) m (S k) ->
  matchGlobUniversal host pattern m = false
  /\ firstMatchAt host displayOrder m k.
Proof.
  intros [(p & Hp & Hm) Hbefore]. split.
  - apply (Hbefore 0); [lia|done].
  - split; [by exists p|].
    intros k' p' Hlt Hp'. apply (Hbefore (S k')); [lia|done].
Qed.

Lemma scanDisplayOrder_match displayOrder m k order :
  firstMatchAt host displayOrder m k ->
  scanDisplayOrder host displayOrder m order = inl (order + k).
Proof.
  revert k order. induction displayOrder as [|p rest IH]; intros k order H.
  { by destruct H as [(p & Hp & _) _]. }
  simpl. destruct k as [|k].
  - rewrite (firstMatchAt_cons_0 _ _ _ H). f_equal. lia.
  - apply firstMatchAt_cons_S in H as [-> H].
    rewrite (IH k (order + 1) H). f_equal. lia.
Qed.

Lemma scanDisplayOrder_noMatch displayOrder m order :
  noMatch host displayOrder m ->
  scanDisplayOrder host displayOrder m order
  = inr (order + length displayOrder).
Proof.
  revert order. induction displayOrder as [|p rest IH]; intros order H; simpl.
  { f_equal. lia. }
  rewrite (H p) by apply list_elem_of_here.
  rewrite IH.
  - f_equal. lia.
  - intros p' Hp'. apply H. by apply list_elem_of_further.
Qed.

(** Every scan ends in one of the two ways. *)
Lemma firstMatchAt_or_noMatch displayOrder m :
  (exists k, k < length displayOrder
             /\ firstMatchAt host displayOrder m k)
  \/ noMatch host displayOrder m.
Proof.
  induction displayOrder as [|p rest IH].
  { right. by intros p Hp%elem_of_nil. }
  destruct (matchGlobUniversal host p m) eqn:Hp.
  { left. exists 0. split; [simpl; lia|]. split; [by exists p|]. intros; lia. }
  destruct IH as [(k & Hk & (p' & Hp' & Hm) & Hbefore)|Hnone].
  - left. exists (S k). split; [simpl; lia|]. split; [by exists p'|].
    intros [|k'] q Hlt Hq; simpl in Hq.
    + by injection Hq as <-.
    + apply (Hbefore k'); [lia|done].
  - right. intros q [->|Hq]%elem_of_cons; [done|by apply Hnone].
Qed.
End ScanProperties.

Section SortProperties.
Context {A : Type} (rank : A -> nat).

Local Abbreviation byRank :=
  (fun a b : A => (Z.of_nat (rank a) - Z.of_nat (rank b))%Z).

Lemma sort_insert_Permutation x (l : list A) :
  sort_insert byRank x l ≡ₚ x :: l.
Proof.
  induction l as [|y l IH]; simpl; [done|].
  destruct (byRank x y <=? 0)%Z; [done|].
  rewrite IH. apply Permutation_swap.
Qed.

Lemma array_sort_Permutation (l : list A) : array_sort byRank l ≡ₚ l.
Proof.
  induction l as [|x l IH]; simpl; [done|].
  unfold array_sort in *. simpl. by rewrite sort_insert_Permutation, IH.
Qed.

Lemma sort_insert_sorted x (l : list A) :
  StronglySorted (fun a b => rank a <= rank b) l ->
  StronglySorted (fun a b => rank a <= rank b) (sort_insert byRank x l).
Proof.
  induction 1 as [|y l Hl IH Hy]; simpl.
  { by repeat constructor. }
  destruct (byRank x y <=? 0)%Z eqn:Hcmp.
  - apply Z.leb_le in Hcmp.
    constructor; [by constructor|].
    constructor; [lia|].
    eapply Forall_impl; [exact Hy|]. simpl. intros; lia.
  - apply Z.leb_gt in Hcmp.
    constructor; [done|].
    rewrite sort_insert_Permutation. constructor; [lia|done].
Qed.

Lemma array_sort_sorted (l : list A) :
  StronglySorted (fun a b => rank a <= rank b) (array_sort byRank l).
Proof.
  induction l as [|x l IH]; [constructor|].
  unfold array_sort in *. simpl. by apply sort_insert_sorted.
Qed.

(** Stability: the elements of one rank keep their order. *)
Lemma sort_insert_stable n x (l : list A) :
  filter (fun a => rank a = n) (sort_insert byRank x l)
  = filter (fun a => rank a = n) (x :: l).
Proof.
  induction l as [|y l IH]; simpl; [done|].
  destruct (byRank x y <=? 0)%Z eqn:Hcmp; [done|].
  apply Z.leb_gt in Hcmp.
  rewrite (filter_cons _ y (sort_insert _ _ _)), IH.
  rewrite !filter_cons.
  repeat case_decide; try done; lia.
Qed.

Lemma array_sort_stable n (l : list A) :
  filter (fun a => rank a = n) (array_sort byRank l)
  = filter (fun a => rank a = n) l.
Proof.
  induction l as [|x l IH]; [done|].
  unfold array_sort in *. simpl.
  rewrite sort_insert_stable, !filter_cons, IH. done.
Qed.

Lemma StronglySorted_lookup (l : list A) i j a b :
  StronglySorted (fun a b => rank a <= rank b) l ->
  i < j -> l !! i = Some a -> l !! j = Some b -> rank a <= rank b.
Proof.
  intros Hs. revert i j. induction Hs as [|y l Hl IH Hy]; intros i j Hlt Hi Hj.
  { done. }
  destruct j as [|j]; [lia|]. simpl in Hj.
  destruct i as [|i]; simpl in Hi.
  - injection Hi as ->. rewrite Forall_forall in Hy. apply Hy.
    by eapply list_elem_of_lookup_2.
  - apply (IH i j); [lia|done..].
Qed.
End SortProperties.

Section SortMimeTypes.
Variable host : Host.
Variables userOrder0 documentOrder0 defaultOrder0 : list string.

Local Abbreviation rank m :=
  (getMimeTypeOrder host m userOrder0 documentOrder0 defaultOrder0).

Lemma rank_user m k :
  firstMatchAt host userOrder0 m k -> rank m = k.
Proof.
  intros H. unfold getMimeTypeOrder.
  by rewrite (scanDisplayOrder_match host _ _ k 0 H).
Qed.

Lemma rank_document m k :
  noMatch host userOrder0 m -> firstMatchAt host documentOrder0 m k ->
  rank m = length userOrder0 + k.
Proof.
  intros Hu H. unfold getMimeTypeOrder.
  rewrite (scanDisplayOrder_noMatch host _ _ 0 Hu).
  by rewrite (scanDisplayOrder_match host _ _ k _ H).
Qed.

Lemma rank_default m k :
  noMatch host userOrder0 m -> noMatch host documentOrder0 m ->
  firstMatchAt host defaultOrder0 m k ->
  rank m = length userOrder0 + length documentOrder0 + k.
Proof.
  intros Hu Hd H. unfold getMimeTypeOrder.
  rewrite (scanDisplayOrder_noMatch host _ _ 0 Hu).
  rewrite (scanDisplayOrder_noMatch host _ _ _ Hd).
  by rewrite (scanDisplayOrder_match host _ _ k _ H).
Qed.

Lemma rank_unmatched m :
  noMatch host userOrder0 m -> noMatch host documentOrder0 m ->
  noMatch host defaultOrder0 m ->
  rank m = length userOrder0 + length documentOrder0 + length defaultOrder0.
Proof.
  intros Hu Hd H. unfold getMimeTypeOrder.
  rewrite (scanDisplayOrder_noMatch host _ _ 0 Hu).
  rewrite (scanDisplayOrder_noMatch host _ _ _ Hd).
  by rewrite (scanDisplayOrder_noMatch host _ _ _ H).
Qed.

Lemma rank_not_user m :
  noMatch host userOrder0 m -> noMatch host documentOrder0 m ->
  length userOrder0 + length documentOrder0 <= rank m.
Proof.
  intros Hu Hd.
  destruct (firstMatchAt_or_noMatch host defaultOrder0 m) as [(k & _ & H)|H].
  - rewrite (rank_default m k); [lia|done..].
  - rewrite rank_unmatched; [lia|done..].
Qed.

Lemma firstMatchAt_lt displayOrder m k :
  firstMatchAt host displayOrder m k -> k < length displayOrder.
Proof. intros [(p & Hp & _) _]. by eapply lookup_lt_Some. Qed.

Lemma sortMimeTypes_sorted mimeTypes i j a b :
  i < j ->
  sortMimeTypes host mimeTypes userOrder0 documentOrder0 defaultOrder0 !! i
    = Some a ->
  sortMimeTypes host mimeTypes userOrder0 documentOrder0 defaultOrder0 !! j
    = Some b ->
  rank a <= rank b.
Proof.
  apply (StronglySorted_lookup (fun m => rank m)).
  apply (array_sort_sorted (fun m => rank m)).
Qed.

Lemma sortMimeTypes_Permutation mimeTypes :
  sortMimeTypes host mimeTypes userOrder0 documentOrder0 defaultOrder0
  ≡ₚ mimeTypes.
Proof. apply (array_sort_Permutation (fun m => rank m)). Qed.
End SortMimeTypes.

(** C4.  [sortMimeTypes] orders the mime types by [getMimeTypeOrder], which
    is: the index of the first matching pattern of [userOrder]; failing
    that, [userOrder.length] plus the index of the first matching pattern of
    [documentOrder]; failing that, both lengths plus the index of the first
    matching pattern of [defaultOrder]; failing that, the three lengths
    together.  The result has the mime types of the input, in ascending rank,
    and the mime types of one rank (the unmatched ones among them) in the
    order they had.  So a mime type matched by [userOrder] comes before any
    mime type matched by neither [userOrder] nor [documentOrder], and with
    empty user and document orders the result follows [defaultOrder]. *)
Theorem sortMimeTypes_orders_by_first_match
    (host : Host) (mimeTypes userOrder0 documentOrder0 defaultOrder0 : list string) :
  (forall m k, firstMatchAt host userOrder0 m k ->
     getMimeTypeOrder host m userOrder0 documentOrder0 defaultOrder0 = k)
  /\ (forall m k, noMatch host userOrder0 m ->
        firstMatchAt host documentOrder0 m k ->
        getMimeTypeOrder host m userOrder0 documentOrder0 defaultOrder0
        = length userOrder0 + k)
  /\ (forall m k, noMatch host userOrder0 m -> noMatch host documentOrder0 m ->
        firstMatchAt host defaultOrder0 m k ->
        getMimeTypeOrder host m userOrder0 documentOrder0 defaultOrder0
        = length userOrder0 + length documentOrder0 + k)
  /\ (forall m, noMatch host userOrder0 m -> noMatch host documentOrder0 m ->
        noMatch host defaultOrder0 m ->
        getMimeTypeOrder host m userOrder0 documentOrder0 defaultOrder0
        = length userOrder0 + length documentOrder0 + length defaultOrder0)
  /\ sortMimeTypes host mimeTypes userOrder0 documentOrder0 defaultOrder0
     ≡ₚ mimeTypes
  /\ (forall i j a b, i < j ->
        sortMimeTypes host mimeTypes userOrder0 documentOrder0 defaultOrder0 !! i
          = Some a ->
        sortMimeTypes host mimeTypes userOrder0 documentOrder0 defaultOrder0 !! j
          = Some b ->
        getMimeTypeOrder host a userOrder0 documentOrder0 defaultOrder0
        <= getMimeTypeOrder host b userOrder0 documentOrder0 defaultOrder0)
  /\ (forall n,
        filter (fun m => getMimeTypeOrder host m userOrder0 documentOrder0
                                          defaultOrder0 = n)
               (sortMimeTypes host mimeTypes userOrder0 documentOrder0
                              defaultOrder0)
        = filter (fun m => getMimeTypeOrder host m userOrder0 documentOrder0
                                            defaultOrder0 = n)
                 mimeTypes)
  /\ (forall a b k i j,
        firstMatchAt host userOrder0 a k ->
        noMatch host userOrder0 b -> noMatch host documentOrder0 b ->
        sortMimeTypes host mimeTypes userOrder0 documentOrder0 defaultOrder0 !! i
          = Some a ->
        sortMimeTypes host mimeTypes userOrder0 documentOrder0 defaultOrder0 !! j
          = Some b ->
        i < j)
  /\ (forall i j a b kb, i < j ->
        sortMimeTypes host mimeTypes [] [] defaultOrder0 !! i = Some a ->
        sortMimeTypes host mimeTypes [] [] defaultOrder0 !! j = Some b ->
        firstMatchAt host defaultOrder0 b kb ->
        exists ka, firstMatchAt host defaultOrder0 a ka /\ ka <= kb).
Proof.
  split; [apply rank_user|].
  split; [apply rank_document|].
  split; [apply rank_default|].
  split; [apply rank_unmatched|].
  split; [apply sortMimeTypes_Permutation|].
  split; [apply sortMimeTypes_sorted|].
  split.
  { intros n.
    apply (array_sort_stable
             (fun m => getMimeTypeOrder host m userOrder0 documentOrder0
                                         defaultOrder0)). }
  split.
  - intros a b k i j Ha Hbu Hbd Hi Hj.
    pose proof (rank_user host _ documentOrder0 defaultOrder0 a k Ha) as Hra.
    pose proof (firstMatchAt_lt host _ _ _ Ha) as Hk.
    pose proof (rank_not_user host _ _ defaultOrder0 b Hbu Hbd) as Hrb.
    destruct (decide (i < j)) as [|Hge]; [done|].
    destruct (decide (i = j)) as [->|Hne].
    + rewrite Hi in Hj. injection Hj as ->. lia.
    + pose proof (sortMimeTypes_sorted host _ _ _ mimeTypes j i b a
                    ltac:(lia) Hj Hi). lia.
  - intros i j a b kb Hlt Hi Hj Hb.
    assert (Hnil : forall m, noMatch host [] m)
      by (intros m p Hp; by apply elem_of_nil in Hp).
    pose proof (sortMimeTypes_sorted host _ _ _ mimeTypes i j a b Hlt Hi Hj)
      as Hle.
    rewrite (rank_default host [] [] defaultOrder0 b kb) in Hle by done.
    pose proof (firstMatchAt_lt host _ _ _ Hb) as Hkb.
    destruct (firstMatchAt_or_noMatch host defaultOrder0 a) as [(ka & _ & Ha)|Ha].
    + exists ka. split; [done|].
      rewrite (rank_default host [] [] defaultOrder0 a ka) in Hle by done.
      simpl in Hle. lia.
    + rewrite (rank_unmatched host [] [] defaultOrder0 a) in Hle by done.
      simpl in Hle. lia.
Qed.

(** The two orderings that the description of [sortMimeTypes] gives as
    examples, on patterns without wildcards. *)
Example sortMimeTypes_default_order :
  sortMimeTypes literalHost ["text/plain"; "text/html"]%string [] []
                ["text/html"; "text/plain"]%string
  = ["text/html"; "text/plain"]%string.
Proof. reflexivity. Qed.

Example sortMimeTypes_user_order_first :
  sortMimeTypes literalHost ["a"; "b"]%string ["b"]%string []
                ["a"; "b"]%string
  = ["b"; "a"]%string.
Proof. reflexivity. Qed.

(** ** Mime-type output resolver *)

Section ResolverProperties.
Context {Payload DocRef Exn : Type}.
Variable host : Host.

Local Abbreviation Controller := (ExtHostNotebookController Payload DocRef Exn).
Local Abbreviation Document := (ExtHostNotebookDocument Payload DocRef Exn).
Local Abbreviation Renderer := (ExtHostNotebookOutputRenderer Payload DocRef Exn).
Local Abbreviation Output := (CellDisplayOutput Payload).
Local Abbreviation Calls := (list (Invocation Payload DocRef Exn)).

Implicit Types (handler : Controller) (document : DocRef) (o : Output).
Implicit Types (sorted : list string) (calls : Calls).

(** The document's transform is the controller's transform at the
    document's own handler and display order. *)
Lemma transformMimeTypes_unfold (this : Document) o :
  transformMimeTypes host this o
  = _transformMimeTypes host (renderingHandler this) this (_displayOrder this) o.
Proof. reflexivity. Qed.

Lemma rendersReturn_cons handler document o m sorted :
  rendersReturn handler document o (m :: sorted) ->
  rendersReturn handler document o sorted.
Proof.
  intros H m' first others Hin. apply H. by apply list_elem_of_further.
Qed.

Lemma rendersReturn_app handler document o sorted1 sorted2 :
  rendersReturn handler document o (sorted1 ++ sorted2) ->
  rendersReturn handler document o sorted1.
Proof.
  intros H m' first others Hin. apply H. apply elem_of_app. by left.
Qed.

(** One turn of the [forEach] callback. *)
Lemma orderMimeType_no_renderer handler document o acc m calls :
  findBestMatchedRenderer handler m = [] ->
  orderMimeType handler document o acc m calls
  = (calls, Normal (acc ++ [mkOrderedMimeType m false None None])).
Proof. intros H. unfold orderMimeType. by rewrite H. Qed.

Lemma orderMimeType_renderer handler document o acc m calls first others :
  findBestMatchedRenderer handler m = first :: others ->
  orderMimeType handler document o acc m calls
  = (calls ++ [(first, m)],
     match renderer first document o m with
     | Normal html =>
         Normal (acc ++
           mkOrderedMimeType m true (Some (handle first)) (Some html)
           :: map (fun h => mkOrderedMimeType m false (Some (handle h)) None)
                  others
           ++ (if mimeTypeSupportedByCore m
               then [mkOrderedMimeType m false (Some (-1)%Z) None] else []))
     | Throw e => Throw e
     end).
Proof.
  intros H. unfold orderMimeType. rewrite H. unfold bind, render.
  destruct (renderer first document o m) as [html|e]; [|done].
  unfold ret. f_equal. f_equal.
  destruct (mimeTypeSupportedByCore m).
  - by rewrite <- !app_assoc.
  - by rewrite <- !app_assoc, app_nil_r.
Qed.

Lemma orderMimeType_returns handler document o acc m calls :
  rendersReturn handler document o [m] ->
  orderMimeType handler document o acc m calls
  = (calls ++ firstRendererCalls handler [m],
     Normal (acc ++ candidatesOf handler m
                      (renderedOutputOf handler document o m))).
Proof.
  intros Hret. unfold firstRendererCalls, candidatesOf, renderedOutputOf.
  simpl.
  destruct (findBestMatchedRenderer handler m) as [|first others] eqn:Hm.
  - rewrite (orderMimeType_no_renderer _ _ _ _ _ _ Hm).
    by rewrite !app_nil_r.
  - rewrite (orderMimeType_renderer _ _ _ _ _ _ _ _ Hm).
    destruct (Hret m first others) as [html Hhtml];
      [apply list_elem_of_here|done|].
    by rewrite Hhtml.
Qed.

(** The whole [forEach] when every renderer called returns. *)
Lemma forEachM_orderMimeType_returns handler document o sorted acc calls :
  rendersReturn handler document o sorted ->
  forEachM (orderMimeType handler document o) sorted acc calls
  = (calls ++ firstRendererCalls handler sorted,
     Normal (acc ++ flat_map
               (fun m => candidatesOf handler m
                           (renderedOutputOf handler document o m))
               sorted)).
Proof.
  revert acc calls. induction sorted as [|m sorted IH]; intros acc calls Hret.
  { simpl. unfold ret. by rewrite !app_nil_r. }
  simpl. unfold bind at 1.
  rewrite orderMimeType_returns.
  2:{ intros m' f' o' Hin. apply Hret.
      apply list_elem_of_singleton in Hin. subst. apply list_elem_of_here. }
  rewrite IH by (by eapply rendersReturn_cons).
  unfold firstRendererCalls. simpl. by rewrite <- !app_assoc.
Qed.

(** The whole [forEach] when a renderer throws: the mime types before it
    are handled, the call that throws is the last one made, and what it
    throws is the outcome. *)
Lemma forEachM_orderMimeType_throws handler document o earlier m later
    first others e acc calls :
  rendersReturn handler document o earlier ->
  findBestMatchedRenderer handler m = first :: others ->
  renderer first document o m = Throw e ->
  forEachM (orderMimeType handler document o) (earlier ++ m :: later) acc calls
  = (calls ++ firstRendererCalls handler earlier ++ [(first, m)], Throw e).
Proof.
  intros Hret Hm He. revert acc calls.
  induction earlier as [|m' earlier IH]; intros acc calls.
  { simpl. unfold bind at 1.
    rewrite (orderMimeType_renderer _ _ _ _ _ _ _ _ Hm), He. done. }
  simpl. unfold bind at 1.
  rewrite orderMimeType_returns.
  2:{ intros m'' f' o' Hin. apply Hret.
      apply list_elem_of_singleton in Hin. subst. apply list_elem_of_here. }
  rewrite IH by (by eapply rendersReturn_cons).
  unfold firstRendererCalls. simpl. by rewrite <- !app_assoc.
Qed.

Lemma _transformMimeTypes_returns (this : Controller) (doc : Document)
    displayOrder o calls :
  rendersReturn this (documentRef doc) o (sortedMimeTypes host this displayOrder o) ->
  _transformMimeTypes host this doc displayOrder o calls
  = (calls ++ firstRendererCalls this (sortedMimeTypes host this displayOrder o),
     Normal {| dto_outputKind := Rich;
               dto_data := data o;
               orderedMimeTypes :=
                 flat_map (fun m => candidatesOf this m
                                      (renderedOutputOf this (documentRef doc) o m))
                          (sortedMimeTypes host this displayOrder o);
               pickedMimeTypeIndex := 0 |}).
Proof.
  intros Hret. unfold _transformMimeTypes. unfold bind.
  fold (sortedMimeTypes host this displayOrder o).
  by rewrite forEachM_orderMimeType_returns.
Qed.

Lemma candidatesOf_mimeType handler m html c :
  c ∈ candidatesOf handler m html -> mimeType c = m.
Proof.
  unfold candidatesOf.
  destruct (findBestMatchedRenderer handler m) as [|first others].
  { by intros ->%list_elem_of_singleton. }
  intros [->|[H|H]%elem_of_app]%elem_of_cons; [done| |].
  - apply list_elem_of_fmap in H as (h & -> & _). done.
  - destruct (mimeTypeSupportedByCore m).
    + by apply list_elem_of_singleton in H as ->.
    + by apply elem_of_nil in H.
Qed.

Lemma flat_map_candidates_mimeType handler (html : string -> string) sorted c :
  c ∈ flat_map (fun m => candidatesOf handler m (html m)) sorted ->
  mimeType c ∈ sorted
  /\ c ∈ candidatesOf handler (mimeType c) (html (mimeType c)).
Proof.
  intros H. apply list_elem_of_In, in_flat_map in H as (m & Hm & Hc).
  apply list_elem_of_In in Hm, Hc.
  pose proof (candidatesOf_mimeType _ _ _ _ Hc) as ->. done.
Qed.

(** With distinct mime types, the candidates of one mime type sit together
    in the flattened list. *)
Lemma flat_map_candidates_split handler (html : string -> string) sorted m :
  NoDup sorted -> m ∈ sorted ->
  exists earlier later,
    flat_map (fun m => candidatesOf handler m (html m)) sorted
      = earlier ++ candidatesOf handler m (html m) ++ later
    /\ forall c, c ∈ earlier ++ later -> mimeType c <> m.
Proof.
  intros Hnd Hin.
  apply list_elem_of_split in Hin as (l1 & l2 & ->).
  apply NoDup_app in Hnd as (_ & Hdisj & Hnd2).
  apply NoDup_cons in Hnd2 as [Hnotin _].
  exists (flat_map (fun m => candidatesOf handler m (html m)) l1),
         (flat_map (fun m => candidatesOf handler m (html m)) l2).
  split.
  { by rewrite flat_map_app. }
  intros c [Hc|Hc]%elem_of_app Heq;
    apply flat_map_candidates_mimeType in Hc as [Hc _]; rewrite Heq in Hc.
  - apply (Hdisj m Hc). apply list_elem_of_here.
  - done.
Qed.

Lemma sortedMimeTypes_NoDup handler displayOrder o :
  NoDup (Object_keys (data o)) ->
  NoDup (sortedMimeTypes host handler displayOrder o).
Proof.
  intros H. unfold sortedMimeTypes.
  by rewrite sortMimeTypes_Permutation.
Qed.
End ResolverProperties.

Example transformMimeTypes_html :
  transformMimeTypes literalHost (sampleDocument htmlController) mixedOutput []
  = ([(sampleRenderer 0 ["text/html"]%string (Normal "<b>first</b>"%string),
       "text/html"%string)],
     Normal {| dto_outputKind := Rich;
               dto_data := data mixedOutput;
               orderedMimeTypes :=
                 [ mkOrderedMimeType "text/html" true (Some 0%Z)
                                     (Some "<b>first</b>"%string);
                   mkOrderedMimeType "text/html" false (Some 1%Z) None;
                   mkOrderedMimeType "text/html" false (Some (-1)%Z) None;
                   mkOrderedMimeType "x/unknown" false None None ];
               pickedMimeTypeIndex := 0 |}).
Proof. reflexivity. Qed.

Section ResolverTheorems.
Context {Payload DocRef Exn : Type}.
Variable host : Host.

Local Abbreviation Controller := (ExtHostNotebookController Payload DocRef Exn).
Local Abbreviation Document := (ExtHostNotebookDocument Payload DocRef Exn).
Local Abbreviation Renderer := (ExtHostNotebookOutputRenderer Payload DocRef Exn).
Local Abbreviation Output := (CellDisplayOutput Payload).
Local Abbreviation Calls := (list (Invocation Payload DocRef Exn)).

Implicit Types (this : Controller) (doc : Document) (o : Output).
Implicit Types (displayOrder : list string) (calls : Calls).

(** Both transforms return, with the same record, when every renderer
    they call returns. *)
Lemma transforms_return this doc displayOrder o calls :
  rendersReturn this (documentRef doc) o
                (sortedMimeTypes host this displayOrder o) ->
  exists dto,
    _transformMimeTypes host this doc displayOrder o calls
      = (calls ++ firstRendererCalls this (sortedMimeTypes host this displayOrder o),
         Normal dto)
    /\ transformMimeTypes host (mkDocument (documentRef doc) displayOrder this) o
                          calls
       = (calls ++ firstRendererCalls this (sortedMimeTypes host this displayOrder o),
          Normal dto)
    /\ dto_outputKind dto = Rich
    /\ dto_data dto = data o
    /\ orderedMimeTypes dto
       = flat_map (fun m => candidatesOf this m
                              (renderedOutputOf this (documentRef doc) o m))
                  (sortedMimeTypes host this displayOrder o)
    /\ pickedMimeTypeIndex dto = 0.
Proof.
  intros Hret. eexists. split; [|split].
  - by apply _transformMimeTypes_returns.
  - rewrite transformMimeTypes_unfold. simpl.
    by apply (_transformMimeTypes_returns host this
                (mkDocument (documentRef doc) displayOrder this)).
  - done.
Qed.

(** A [forEach] that returns has had every renderer it called return. *)
Lemma forEachM_orderMimeType_Normal_inv this (document : DocRef) o
    (sorted : list string) acc calls calls' r :
  forEachM (orderMimeType this document o) sorted acc calls = (calls', Normal r) ->
  rendersReturn this document o sorted.
Proof.
  revert acc calls.
  induction sorted as [|m sorted IH]; intros acc calls Hrun m' first others Hin Hm'.
  { by apply elem_of_nil in Hin. }
  simpl in Hrun. unfold bind at 1 in Hrun.
  destruct (orderMimeType this document o acc m calls) as [calls1 [acc1|e]] eqn:Hm;
    [|done].
  apply elem_of_cons in Hin as [->|Hin].
  - rewrite (orderMimeType_renderer _ _ _ _ _ _ _ _ Hm') in Hm.
    destruct (renderer first document o m) as [html|e]; [by exists html|].
    by injection Hm.
  - by eapply IH.
Qed.

(** The transforms return exactly when every renderer they call returns. *)
Lemma transforms_return_iff this doc displayOrder o calls :
  (exists calls' dto,
     _transformMimeTypes host this doc displayOrder o calls = (calls', Normal dto))
  <-> rendersReturn this (documentRef doc) o
                    (sortedMimeTypes host this displayOrder o).
Proof.
  split.
  - intros (calls' & dto & Hrun).
    unfold _transformMimeTypes, bind in Hrun.
    fold (sortedMimeTypes host this displayOrder o) in Hrun.
    destruct (forEachM _ _ _ _) as [calls1 [cands|e]] eqn:Hloop; [|done].
    by eapply forEachM_orderMimeType_Normal_inv.
  - intros Hret.
    destruct (transforms_return this doc displayOrder o calls Hret)
      as (dto & H1 & _).
    eauto.
Qed.

(** C6.  A mime type of the sorted list for which
    [findBestMatchedRenderer] finds no renderer and which is not supported
    by the core gets exactly one candidate, [{mimeType, isResolved: false}]
    without [rendererId]: the [forEach] callback pushes just that and calls
    no renderer, and when the renderers called for the other mime types
    return, it is the only candidate of that mime type in the record that
    [_transformMimeTypes] and [transformMimeTypes] return. *)
Theorem unmatched_mime_type_gets_one_bare_candidate
    this doc displayOrder o calls m :
  NoDup (Object_keys (data o)) ->
  rendersReturn this (documentRef doc) o
                (sortedMimeTypes host this displayOrder o) ->
  m ∈ sortedMimeTypes host this displayOrder o ->
  findBestMatchedRenderer this m = [] ->
  mimeTypeSupportedByCore m = false ->
  (forall acc calls0,
     orderMimeType this (documentRef doc) o acc m calls0
     = (calls0, Normal (acc ++ [mkOrderedMimeType m false None None])))
  /\ exists calls' dto,
       _transformMimeTypes host this doc displayOrder o calls
         = (calls', Normal dto)
       /\ transformMimeTypes host
            (mkDocument (documentRef doc) displayOrder this) o calls
          = (calls', Normal dto)
       /\ emitsFor dto m [mkOrderedMimeType m false None None].
Proof.
  intros Hnd Hret Hin Hnone _. split.
  { intros acc calls0. by apply orderMimeType_no_renderer. }
  destruct (transforms_return this doc displayOrder o calls Hret)
    as (dto & H1 & H2 & _ & _ & Hcands & _).
  eexists _, dto. split; [exact H1|]. split; [exact H2|].
  unfold emitsFor. rewrite Hcands.
  destruct (flat_map_candidates_split this
              (renderedOutputOf this (documentRef doc) o)
              (sortedMimeTypes host this displayOrder o) m)
    as (earlier & later & Heq & Hother);
    [by apply sortedMimeTypes_NoDup|done|].
  exists earlier, later. split; [|done].
  rewrite Heq. unfold candidatesOf. by rewrite Hnone.
Qed.

(** C5.  For a mime type of the sorted list with matching renderers
    [first :: others], only [first] is called, once: the [forEach] callback
    makes that one call and, when it returns [html], pushes the resolved
    candidate [{mimeType, isResolved: true, rendererId: first.handle,
    output: html}] followed by one unresolved candidate with the handle of
    each of [others], in order (and then the core candidate, when the mime
    type is supported by the core).  When the renderers called return,
    these are the candidates of that mime type in the record returned, the
    calls made for that mime type are the single call of [first], and
    every call made is on the first matching renderer of its mime type. *)
Theorem first_renderer_called_rest_listed
    this doc displayOrder o calls m first others :
  NoDup (Object_keys (data o)) ->
  rendersReturn this (documentRef doc) o
                (sortedMimeTypes host this displayOrder o) ->
  m ∈ sortedMimeTypes host this displayOrder o ->
  findBestMatchedRenderer this m = first :: others ->
  exists html,
    renderer first (documentRef doc) o m = Normal html
    /\ (forall acc calls0,
          orderMimeType this (documentRef doc) o acc m calls0
          = (calls0 ++ [(first, m)],
             Normal (acc ++
               mkOrderedMimeType m true (Some (handle first)) (Some html)
               :: map (fun h => mkOrderedMimeType m false (Some (handle h)) None)
                      others
               ++ (if mimeTypeSupportedByCore m
                   then [mkOrderedMimeType m false (Some (-1)%Z) None]
                   else []))))
    /\ exists calls' dto,
         _transformMimeTypes host this doc displayOrder o calls
           = (calls ++ calls', Normal dto)
         /\ transformMimeTypes host
              (mkDocument (documentRef doc) displayOrder this) o calls
            = (calls ++ calls', Normal dto)
         /\ emitsFor dto m
              (mkOrderedMimeType m true (Some (handle first)) (Some html)
               :: map (fun h => mkOrderedMimeType m false (Some (handle h)) None)
                      others
               ++ (if mimeTypeSupportedByCore m
                   then [mkOrderedMimeType m false (Some (-1)%Z) None]
                   else []))
         /\ (exists before after,
               calls' = before ++ (first, m) :: after
               /\ forall c, c ∈ before ++ after -> snd c <> m)
         /\ (forall r m', (r, m') ∈ calls' ->
               exists others', findBestMatchedRenderer this m' = r :: others').
Proof.
  intros Hnd Hret Hin Hm.
  destruct (Hret m first others Hin Hm) as [html Hhtml].
  exists html. split; [done|]. split.
  { intros acc calls0.
    rewrite (orderMimeType_renderer _ _ _ _ _ _ _ _ Hm). by rewrite Hhtml. }
  destruct (transforms_return this doc displayOrder o calls Hret)
    as (dto & H1 & H2 & _ & _ & Hcands & _).
  eexists _, dto. split; [exact H1|]. split; [exact H2|].
  pose proof (sortedMimeTypes_NoDup host this displayOrder o Hnd) as Hnds.
  split; [|split].
  - unfold emitsFor. rewrite Hcands.
    destruct (flat_map_candidates_split this
                (renderedOutputOf this (documentRef doc) o)
                (sortedMimeTypes host this displayOrder o) m Hnds Hin)
      as (earlier & later & Heq & Hother).
    exists earlier, later. split; [|done].
    rewrite Heq. unfold candidatesOf, renderedOutputOf.
    by rewrite Hm, Hhtml.
  - apply list_elem_of_split in Hin as (l1 & l2 & Hsplit).
    rewrite Hsplit in Hnds |- *.
    apply NoDup_app in Hnds as (_ & Hdisj & Hnd2).
    apply NoDup_cons in Hnd2 as [Hnotin _].
    exists (firstRendererCalls this l1), (firstRendererCalls this l2).
    split.
    { unfold firstRendererCalls. rewrite flat_map_app. simpl. by rewrite Hm. }
    assert (Hcalls : forall l c, c ∈ firstRendererCalls this l -> snd c ∈ l).
    { intros l c Hc. apply list_elem_of_In, in_flat_map in Hc as (m' & Hm' & Hc).
      apply list_elem_of_In in Hm'.
      destruct (findBestMatchedRenderer this m'); [by destruct Hc|].
      destruct Hc as [<-|[]]. done. }
    intros c [Hc|Hc]%elem_of_app Heq; apply Hcalls in Hc; rewrite Heq in Hc.
    + apply (Hdisj m Hc). apply list_elem_of_here.
    + done.
  - intros r m' Hc.
    apply list_elem_of_In, in_flat_map in Hc as (m'' & _ & Hc).
    destruct (findBestMatchedRenderer this m'') as [|f' o'] eqn:Hf;
      [by destruct Hc|].
    destruct Hc as [[= <- <-]|[]]. by exists o'.
Qed.

(** C1, as the code has it.  When the renderers called return, the record
    returned by [_transformMimeTypes] and [transformMimeTypes] contains,
    for a mime type of the sorted list that is supported by the core, the
    candidate [{mimeType, isResolved: false, rendererId: -1}] if
    [findBestMatchedRenderer] found at least one renderer for it; if it
    found none, the record holds the candidate [{mimeType, isResolved:
    false}] without [rendererId] and not the one with [rendererId: -1]. *)
Theorem core_candidate_only_beside_a_renderer
    this doc displayOrder o calls m :
  rendersReturn this (documentRef doc) o
                (sortedMimeTypes host this displayOrder o) ->
  m ∈ sortedMimeTypes host this displayOrder o ->
  mimeTypeSupportedByCore m = true ->
  exists calls' dto,
    _transformMimeTypes host this doc displayOrder o calls = (calls', Normal dto)
    /\ transformMimeTypes host
         (mkDocument (documentRef doc) displayOrder this) o calls
       = (calls', Normal dto)
    /\ (findBestMatchedRenderer this m <> [] ->
          mkOrderedMimeType m false (Some (-1)%Z) None ∈ orderedMimeTypes dto)
    /\ (findBestMatchedRenderer this m = [] ->
          mkOrderedMimeType m false None None ∈ orderedMimeTypes dto
          /\ mkOrderedMimeType m false (Some (-1)%Z) None ∉ orderedMimeTypes dto).
Proof.
  intros Hret Hin Hcore.
  destruct (transforms_return this doc displayOrder o calls Hret)
    as (dto & H1 & H2 & _ & _ & Hcands & _).
  eexists _, dto. split; [exact H1|]. split; [exact H2|].
  rewrite Hcands.
  assert (Hhere : forall c,
    c ∈ candidatesOf this m (renderedOutputOf this (documentRef doc) o m) ->
    c ∈ flat_map (fun m => candidatesOf this m
                             (renderedOutputOf this (documentRef doc) o m))
                 (sortedMimeTypes host this displayOrder o)).
  { intros c Hc. apply list_elem_of_In, in_flat_map. exists m.
    split; by apply list_elem_of_In. }
  split.
  - intros Hsome. apply Hhere. unfold candidatesOf.
    destruct (findBestMatchedRenderer this m) as [|first others]; [done|].
    rewrite Hcore. apply list_elem_of_further, elem_of_app. right.
    apply list_elem_of_here.
  - intros Hnone. split.
    + apply Hhere. unfold candidatesOf. rewrite Hnone. apply list_elem_of_here.
    + intros Hc. apply flat_map_candidates_mimeType in Hc as [_ Hc].
      simpl in Hc. unfold candidatesOf in Hc. rewrite Hnone in Hc.
      by apply list_elem_of_singleton in Hc.
Qed.

(** C7.  Neither transform handles exceptions.  If the first renderer of
    some mime type [m] of the sorted list throws [e] (the renderers called
    for the mime types before [m] having returned), the outcome of
    [_transformMimeTypes] and of [transformMimeTypes] is [e] itself, thrown,
    and no record; the throwing call is the last call made and is made
    once, and nothing is called for the mime types after [m]. *)
Theorem render_exception_reaches_caller
    this doc displayOrder o calls earlier m later first others e :
  sortedMimeTypes host this displayOrder o = earlier ++ m :: later ->
  rendersReturn this (documentRef doc) o earlier ->
  findBestMatchedRenderer this m = first :: others ->
  renderer first (documentRef doc) o m = Throw e ->
  _transformMimeTypes host this doc displayOrder o calls
    = (calls ++ firstRendererCalls this earlier ++ [(first, m)], Throw e)
  /\ transformMimeTypes host
       (mkDocument (documentRef doc) displayOrder this) o calls
     = (calls ++ firstRendererCalls this earlier ++ [(first, m)], Throw e).
Proof.
  intros Hsorted Hret Hm He.
  assert (H : _transformMimeTypes host this doc displayOrder o calls
    = (calls ++ firstRendererCalls this earlier ++ [(first, m)], Throw e)).
  { unfold _transformMimeTypes. unfold bind.
    fold (sortedMimeTypes host this displayOrder o). rewrite Hsorted.
    by rewrite (forEachM_orderMimeType_throws this (documentRef doc) o
                  earlier m later first others e [] calls Hret Hm He). }
  split; [exact H|].
  rewrite transformMimeTypes_unfold. simpl. exact H.
Qed.

(** Whatever the renderers do, a record that a transform returns carries
    the kind and the data of its input and picks index 0. *)
Lemma returned_record_fields this doc displayOrder o calls calls' dto :
  _transformMimeTypes host this doc displayOrder o calls = (calls', Normal dto) ->
  dto_outputKind dto = outputKind (CellRichOutput o)
  /\ dto_data dto = data o
  /\ pickedMimeTypeIndex dto = 0.
Proof.
  unfold _transformMimeTypes, bind.
  destruct (forEachM _ _ _ _) as [calls1 [cands|e]]; [|done].
  unfold ret. intros [= _ <-]. done.
Qed.

(** C8.  The record that [_transformMimeTypes] and [transformMimeTypes]
    return for a rich output has the [outputKind] and the [data] of that
    output, unchanged, and [pickedMimeTypeIndex] 0; a record is returned
    whenever the renderers called return. *)
Theorem transformed_output_keeps_kind_data_and_picks_0
    this doc displayOrder o calls :
  rendersReturn this (documentRef doc) o
                (sortedMimeTypes host this displayOrder o) ->
  exists calls' dto,
    _transformMimeTypes host this doc displayOrder o calls = (calls', Normal dto)
    /\ transformMimeTypes host
         (mkDocument (documentRef doc) displayOrder this) o calls
       = (calls', Normal dto)
    /\ dto_outputKind dto = outputKind (CellRichOutput o)
    /\ dto_data dto = data o
    /\ pickedMimeTypeIndex dto = 0.
Proof.
  intros Hret.
  destruct (transforms_return this doc displayOrder o calls Hret)
    as (dto & H1 & H2 & _).
  eexists _, dto. split; [exact H1|]. split; [exact H2|].
  by eapply returned_record_fields.
Qed.
End ResolverTheorems.

(** Concrete hypotheses about the sample data. *)
Ltac sample_rendersReturn :=
  let m := fresh "m" in
  let Hin := fresh "Hin" in
  let Hf := fresh "Hf" in
  intros m ? ? Hin Hf; vm_compute in Hin;
  repeat (apply elem_of_cons in Hin as [->|Hin]);
  [ vm_compute in Hf;
    first [ discriminate Hf
          | injection Hf as <- <-; eexists; reflexivity ] ..
  | by apply elem_of_nil in Hin ].

Ltac sample_NoDup :=
  apply (bool_decide_unpack _); vm_compute; reflexivity.

Lemma htmlController_rendersReturn :
  rendersReturn htmlController "file:///notebook"%string mixedOutput
    (sortedMimeTypes literalHost htmlController [] mixedOutput).
Proof. sample_rendersReturn. Defined.

Lemma mixedOutput_NoDup : NoDup (Object_keys (data mixedOutput)).
Proof. sample_NoDup. Defined.

Lemma htmlController_sorted :
  sortedMimeTypes literalHost htmlController [] mixedOutput
  = ["text/html"; "x/unknown"]%string.
Proof. reflexivity. Defined.

(** C1 fails as stated: [text/plain] is supported by the core and is in the
    sorted list, no renderer matches it, and the record returned by both
    transforms holds for it the single candidate without [rendererId], not
    the candidate with [rendererId: -1]. *)
Lemma core_candidate_absent_without_renderer :
  mimeTypeSupportedByCore "text/plain" = true
  /\ sortedMimeTypes literalHost bareController [] plainOutput
     = ["text/plain"]%string
  /\ findBestMatchedRenderer bareController "text/plain" = []
  /\ transformMimeTypes literalHost (sampleDocument bareController) plainOutput []
     = ([], Normal {| dto_outputKind := Rich;
                      dto_data := data plainOutput;
                      orderedMimeTypes :=
                        [mkOrderedMimeType "text/plain" false None None];
                      pickedMimeTypeIndex := 0 |})
  /\ _transformMimeTypes literalHost bareController
       (sampleDocument bareController) [] plainOutput []
     = ([], Normal {| dto_outputKind := Rich;
                      dto_data := data plainOutput;
                      orderedMimeTypes :=
                        [mkOrderedMimeType "text/plain" false None None];
                      pickedMimeTypeIndex := 0 |})
  /\ mkOrderedMimeType "text/plain" false (Some (-1)%Z) None
     ∉ [mkOrderedMimeType "text/plain" false None None].
Proof.
  repeat split.
  intros H. by apply list_elem_of_singleton in H.
Qed.

Lemma core_candidate_only_beside_a_renderer_witness :
  rendersReturn htmlController "file:///notebook"%string mixedOutput
    (sortedMimeTypes literalHost htmlController [] mixedOutput)
  /\ "text/html"%string ∈ sortedMimeTypes literalHost htmlController [] mixedOutput
  /\ mimeTypeSupportedByCore "text/html" = true
  /\ exists calls' dto,
       _transformMimeTypes literalHost htmlController
         (sampleDocument htmlController) [] mixedOutput [] = (calls', Normal dto)
       /\ transformMimeTypes literalHost
            (mkDocument "file:///notebook"%string [] htmlController)
            mixedOutput [] = (calls', Normal dto)
       /\ (findBestMatchedRenderer htmlController "text/html" <> [] ->
             mkOrderedMimeType "text/html" false (Some (-1)%Z) None
             ∈ orderedMimeTypes dto)
       /\ (findBestMatchedRenderer htmlController "text/html" = [] ->
             mkOrderedMimeType "text/html" false None None ∈ orderedMimeTypes dto
             /\ mkOrderedMimeType "text/html" false (Some (-1)%Z) None
                ∉ orderedMimeTypes dto).
Proof.
  split; [exact htmlController_rendersReturn|].
  split; [rewrite htmlController_sorted; apply list_elem_of_here|].
  split; [reflexivity|].
  apply (core_candidate_only_beside_a_renderer literalHost htmlController
           (sampleDocument htmlController) [] mixedOutput [] "text/html"%string).
  - exact htmlController_rendersReturn.
  - rewrite htmlController_sorted. apply list_elem_of_here.
  - reflexivity.
Defined.

Lemma unmatched_mime_type_gets_one_bare_candidate_witness :
  NoDup (Object_keys (data mixedOutput))
  /\ rendersReturn htmlController "file:///notebook"%string mixedOutput
       (sortedMimeTypes literalHost htmlController [] mixedOutput)
  /\ "x/unknown"%string ∈ sortedMimeTypes literalHost htmlController [] mixedOutput
  /\ findBestMatchedRenderer htmlController "x/unknown" = []
  /\ mimeTypeSupportedByCore "x/unknown" = false
  /\ exists calls' dto,
       _transformMimeTypes literalHost htmlController
         (sampleDocument htmlController) [] mixedOutput [] = (calls', Normal dto)
       /\ transformMimeTypes literalHost
            (mkDocument "file:///notebook"%string [] htmlController)
            mixedOutput [] = (calls', Normal dto)
       /\ emitsFor dto "x/unknown" [mkOrderedMimeType "x/unknown" false None None].
Proof.
  split; [exact mixedOutput_NoDup|].
  split; [exact htmlController_rendersReturn|].
  split; [rewrite htmlController_sorted; apply list_elem_of_further, list_elem_of_here|].
  split; [reflexivity|]. split; [reflexivity|].
  apply (unmatched_mime_type_gets_one_bare_candidate literalHost htmlController
           (sampleDocument htmlController) [] mixedOutput [] "x/unknown"%string).
  - exact mixedOutput_NoDup.
  - exact htmlController_rendersReturn.
  - rewrite htmlController_sorted. apply list_elem_of_further, list_elem_of_here.
  - reflexivity.
  - reflexivity.
Defined.

Lemma first_renderer_called_rest_listed_witness :
  NoDup (Object_keys (data mixedOutput))
  /\ rendersReturn htmlController "file:///notebook"%string mixedOutput
       (sortedMimeTypes literalHost htmlController [] mixedOutput)
  /\ "text/html"%string ∈ sortedMimeTypes literalHost htmlController [] mixedOutput
  /\ findBestMatchedRenderer htmlController "text/html"
     = [sampleRenderer 0 ["text/html"]%string (Normal "<b>first</b>"%string);
        sampleRenderer 1 ["text/html"; "x/custom"]%string
                         (Normal "<i>second</i>"%string)]
  /\ exists html calls' dto,
       transformMimeTypes literalHost
         (mkDocument "file:///notebook"%string [] htmlController)
         mixedOutput [] = ([] ++ calls', Normal dto)
       /\ emitsFor dto "text/html"
            (mkOrderedMimeType "text/html" true (Some 0%Z) (Some html)
             :: [mkOrderedMimeType "text/html" false (Some 1%Z) None]
             ++ [mkOrderedMimeType "text/html" false (Some (-1)%Z) None]).
Proof.
  split; [exact mixedOutput_NoDup|].
  split; [exact htmlController_rendersReturn|].
  split; [rewrite htmlController_sorted; apply list_elem_of_here|].
  split; [reflexivity|].
  destruct (first_renderer_called_rest_listed literalHost htmlController
              (sampleDocument htmlController) [] mixedOutput [] "text/html"%string
              (sampleRenderer 0 ["text/html"]%string (Normal "<b>first</b>"%string))
              [sampleRenderer 1 ["text/html"; "x/custom"]%string
                              (Normal "<i>second</i>"%string)])
    as (html & _ & _ & calls' & dto & _ & H2 & H3 & _).
  - exact mixedOutput_NoDup.
  - exact htmlController_rendersReturn.
  - rewrite htmlController_sorted. apply list_elem_of_here.
  - reflexivity.
  - exists html, calls', dto. split; [exact H2|exact H3].
Defined.

Lemma render_exception_reaches_caller_witness :
  sortedMimeTypes literalHost throwingController [] mixedOutput
  = ["x/unknown"]%string ++ "text/html"%string :: []
  /\ rendersReturn throwingController "file:///notebook"%string mixedOutput
       ["x/unknown"]%string
  /\ findBestMatchedRenderer throwingController "text/html"
     = sampleRenderer 0 ["text/html"]%string (Throw "boom"%string) :: []
  /\ renderer (sampleRenderer 0 ["text/html"]%string (Throw "boom"%string))
              "file:///notebook"%string mixedOutput "text/html"%string
     = Throw "boom"%string
  /\ _transformMimeTypes literalHost throwingController
       (sampleDocument throwingController) [] mixedOutput []
     = ([] ++ firstRendererCalls throwingController ["x/unknown"]%string
           ++ [(sampleRenderer 0 ["text/html"]%string (Throw "boom"%string),
                "text/html"%string)],
        Throw "boom"%string)
  /\ transformMimeTypes literalHost
       (mkDocument "file:///notebook"%string [] throwingController)
       mixedOutput []
     = ([] ++ firstRendererCalls throwingController ["x/unknown"]%string
           ++ [(sampleRenderer 0 ["text/html"]%string (Throw "boom"%string),
                "text/html"%string)],
        Throw "boom"%string).
Proof.
  assert (Hret : rendersReturn throwingController "file:///notebook"%string
                   mixedOutput ["x/unknown"]%string) by sample_rendersReturn.
  split; [reflexivity|]. split; [exact Hret|].
  split; [reflexivity|]. split; [reflexivity|].
  apply (render_exception_reaches_caller literalHost throwingController
           (sampleDocument throwingController) [] mixedOutput []
           ["x/unknown"]%string "text/html"%string []
           (sampleRenderer 0 ["text/html"]%string (Throw "boom"%string)) []
           "boom"%string).
  - reflexivity.
  - exact Hret.
  - reflexivity.
  - reflexivity.
Defined.

Lemma transformed_output_keeps_kind_data_and_picks_0_witness :
  rendersReturn htmlController "file:///notebook"%string mixedOutput
    (sortedMimeTypes literalHost htmlController [] mixedOutput)
  /\ exists calls' dto,
       _transformMimeTypes literalHost htmlController
         (sampleDocument htmlController) [] mixedOutput [] = (calls', Normal dto)
       /\ transformMimeTypes literalHost
            (mkDocument "file:///notebook"%string [] htmlController)
            mixedOutput [] = (calls', Normal dto)
       /\ dto_outputKind dto = outputKind (CellRichOutput mixedOutput)
       /\ dto_data dto = data mixedOutput
       /\ pickedMimeTypeIndex dto = 0.
Proof.
  split; [exact htmlController_rendersReturn|].
  apply (transformed_output_keeps_kind_data_and_picks_0 literalHost
           htmlController (sampleDocument htmlController) [] mixedOutput []).
  exact htmlController_rendersReturn.
Defined.

(** ** The callers of the transforms *)

Section CallerProperties.
Context {Payload DocRef Exn : Type}.
Variable host : Host.
Variable typeError : Exn.

Local Abbreviation Controller := (ExtHostNotebookController Payload DocRef Exn).
Local Abbreviation Document := (ExtHostNotebookDocument Payload DocRef Exn).
Local Abbreviation Output := (CellDisplayOutput Payload).
Local Abbreviation Calls := (list (Invocation Payload DocRef Exn)).
Local Abbreviation Dto := (ITransformedDisplayOutputDto Payload).

Implicit Types (this : Controller) (doc : Document) (o : Output).
Implicit Types (displayOrder : list string) (calls : Calls).

(** A callback that throws on [x], whatever it is handed, makes [map]
    throw on every array that holds [x]. *)
Lemma mapM_throws {A B S : Type}
    (callback : S -> A -> Eff Payload DocRef Exn (S * B)) (x : A) (arr : list A) :
  (forall s calls, exists calls' e, callback s x calls = (calls', Throw e)) ->
  x ∈ arr ->
  forall s calls, exists calls' e, mapM callback arr s calls = (calls', Throw e).
Proof.
  intros Hx. induction arr as [|y arr IH]; intros Hin s calls.
  { by apply elem_of_nil in Hin. }
  simpl. unfold bind at 1.
  apply elem_of_cons in Hin as [<-|Hin].
  - destruct (Hx s calls) as (calls' & e & ->). eauto.
  - destruct (callback s y calls) as [calls1 [r|e]]; [|eauto].
    unfold bind at 1.
    destruct (IH Hin (fst r) calls1) as (calls' & e & ->). eauto.
Qed.

(** Without mime types there is nothing to sort, nothing to call and no
    candidate. *)
Lemma _transformMimeTypes_empty this doc displayOrder calls :
  _transformMimeTypes host this doc displayOrder emptyRichOutput calls
  = (calls, Normal {| dto_outputKind := Rich;
                      dto_data := [];
                      orderedMimeTypes := [];
                      pickedMimeTypeIndex := 0 |}).
Proof. reflexivity. Qed.

(** The [outputs.map] callback on a rich output without mime types reads
    [orderedMimeTypes[0]] of an empty array. *)
Lemma transformOutput_empty this doc displayOrder renderers calls :
  transformOutput typeError (_transformMimeTypes host this doc displayOrder)
                  renderers (CellRichOutput emptyRichOutput) calls
  = (calls, Throw typeError).
Proof. reflexivity. Qed.

(** C9.  For a rich output whose [data] has no keys, both transforms
    return a record with an empty [orderedMimeTypes] and with
    [pickedMimeTypeIndex] 0, which is therefore no index of
    [orderedMimeTypes]; and [eventuallyUpdateCellOutputs] and
    [$resolveNotebookData] (and [NotebookEditorCellEditBuilder.insert]),
    which read [orderedMimeTypes[pickedMimeTypeIndex].isResolved], end by
    throwing for every input that holds such an output: the [TypeError] of
    the missing element when that output is the first one they come to. *)
Theorem empty_data_leaves_picked_index_dangling
    this doc displayOrder (resolveOrder : option (list string)) calls :
  (exists dto : Dto,
     _transformMimeTypes host this doc displayOrder emptyRichOutput calls
       = (calls, Normal dto)
     /\ transformMimeTypes host
          (mkDocument (documentRef doc) displayOrder this) emptyRichOutput calls
        = (calls, Normal dto)
     /\ orderedMimeTypes dto = []
     /\ pickedMimeTypeIndex dto = 0
     /\ orderedMimeTypes dto !! pickedMimeTypeIndex dto = None)
  /\ (forall cellHandle start0 deleteCount0 outputs diffs,
        eventuallyUpdateCellOutputs host typeError doc cellHandle
          (mkSplice start0 deleteCount0
                    (CellRichOutput emptyRichOutput :: outputs) :: diffs)
          calls
        = (calls, Throw typeError))
  /\ (forall language kind source outputs cells,
        resolveNotebookData_cells host typeError this doc resolveOrder
          (mkCellData language kind source
                      (CellRichOutput emptyRichOutput :: outputs) :: cells)
          calls
        = (calls, Throw typeError))
  /\ (forall renderers outputs,
        insert_transformedOutputs host typeError doc renderers
          (CellRichOutput emptyRichOutput :: outputs) calls
        = (calls, Throw typeError))
  /\ (forall cellHandle diffs diff,
        diff ∈ diffs -> CellRichOutput emptyRichOutput ∈ toInsert diff ->
        exists calls' e,
          eventuallyUpdateCellOutputs host typeError doc cellHandle diffs calls
          = (calls', Throw e))
  /\ (forall cells cell,
        cell ∈ cells -> CellRichOutput emptyRichOutput ∈ cell_outputs cell ->
        exists calls' e,
          resolveNotebookData_cells host typeError this doc resolveOrder
            cells calls
          = (calls', Throw e)).
Proof.
  split; [|split; [|split; [|split; [|split]]]].
  - eexists. split; [apply _transformMimeTypes_empty|].
    split; [reflexivity|]. done.
  - reflexivity.
  - reflexivity.
  - reflexivity.
  - intros cellHandle diffs diff Hdiff Hout.
    unfold eventuallyUpdateCellOutputs, bind at 1.
    match goal with |- context [mapM ?f diffs [] calls] =>
      destruct (mapM_throws f diff diffs) with (s := @nil (option Z))
                                               (calls := calls)
        as (calls' & e & ->); [|done|eauto]
    end.
    intros s calls0. unfold bind at 1.
    destruct (mapM_throws
                (transformOutput typeError (transformMimeTypes host doc))
                (CellRichOutput emptyRichOutput) (toInsert diff))
      with (s := s) (calls := calls0) as (calls' & e & ->); [|done|eauto].
    intros s' calls1. by exists calls1, typeError.
  - intros cells cell Hcell Hout.
    unfold resolveNotebookData_cells, bind at 1.
    match goal with |- context [mapM ?f cells [] calls] =>
      destruct (mapM_throws f cell cells) with (s := @nil (option Z))
                                               (calls := calls)
        as (calls' & e & ->); [|done|eauto]
    end.
    intros s calls0. unfold bind at 1.
    destruct (mapM_throws
                (transformOutput typeError
                   (_transformMimeTypes host this doc (orEmpty resolveOrder)))
                (CellRichOutput emptyRichOutput) (cell_outputs cell))
      with (s := s) (calls := calls0) as (calls' & e & ->); [|done|eauto].
    intros s' calls1. by exists calls1, typeError.
Qed.

Lemma mapM_Forall2 {A B S : Type} (R : A -> B -> Prop)
    (callback : S -> A -> Eff Payload DocRef Exn (S * B)) (arr : list A) :
  (forall s x calls calls' r,
     x ∈ arr -> callback s x calls = (calls', Normal r) -> R x (snd r)) ->
  forall s calls calls' r,
    mapM callback arr s calls = (calls', Normal r) -> Forall2 R arr (snd r).
Proof.
  induction arr as [|x arr IH]; intros HR s calls calls' r; simpl.
  { unfold ret. intros [= _ <-]. constructor. }
  unfold bind at 1.
  destruct (callback s x calls) as [calls1 [r1|e]] eqn:H1; [|done].
  unfold bind at 1.
  destruct (mapM callback arr (fst r1) calls1) as [calls2 [r2|e]] eqn:H2;
    [|done].
  unfold ret. intros [= _ <-]. simpl. constructor.
  - eapply HR; [apply list_elem_of_here|exact H1].
  - eapply IH; [|exact H2].
    intros s0 x0 c0 c0' r0 Hin. apply HR. by apply list_elem_of_further.
Qed.

Lemma mapM_returns {A B S : Type}
    (callback : S -> A -> Eff Payload DocRef Exn (S * B)) (arr : list A) :
  (forall s x calls, x ∈ arr ->
     exists calls' r, callback s x calls = (calls', Normal r)) ->
  forall s calls, exists calls' r, mapM callback arr s calls = (calls', Normal r).
Proof.
  induction arr as [|x arr IH]; intros Hok s calls; simpl.
  { unfold ret. eauto. }
  unfold bind at 1.
  destruct (Hok s x calls) as (calls1 & r1 & ->); [apply list_elem_of_here|].
  unfold bind at 1.
  destruct (IH (fun s0 x0 c0 Hin => Hok s0 x0 c0 (list_elem_of_further _ _ _ Hin))
               (fst r1) calls1) as (calls2 & r2 & ->).
  unfold ret. eauto.
Qed.

Lemma transformOutput_handedOn doc renderers out calls calls' r :
  transformOutput typeError (transformMimeTypes host doc) renderers out calls
    = (calls', Normal r) ->
  handedOn host doc out (snd r).
Proof.
  destruct out as [s|e|rich]; simpl.
  - unfold ret. by intros [= _ <-].
  - unfold ret. by intros [= _ <-].
  - unfold bind.
    destruct (transformMimeTypes host doc rich calls) as [calls1 [dto|e]] eqn:Ht;
      [|done].
    destruct (orderedMimeTypes dto !! pickedMimeTypeIndex dto) as [picked|];
      [|done].
    intros Hr. exists calls, calls1, dto. split; [done|].
    destruct (isResolved picked); unfold ret in Hr; by injection Hr as _ <-.
Qed.

(** What [eventuallyUpdateCellOutputs] hands to the proxy when it gets
    there: one output splice per input splice, in the same order, with the
    same [start] and [deleteCount], in which rich outputs are replaced by
    their transform and the other outputs are the ones received. *)
Lemma eventuallyUpdateCellOutputs_hands_on doc cellHandle diffs calls calls' call :
  eventuallyUpdateCellOutputs host typeError doc cellHandle diffs calls
    = (calls', Normal call) ->
  call_cellHandle call = cellHandle
  /\ Forall2 (spliceHandedOn host doc) diffs (call_outputDtos call).
Proof.
  unfold eventuallyUpdateCellOutputs, bind at 1.
  match goal with |- context [mapM ?f diffs [] calls] =>
    destruct (mapM f diffs [] calls) as [calls1 [r|e]] eqn:Hmap; [|done]
  end.
  unfold ret. intros [= _ <-]. simpl. split; [done|].
  eapply mapM_Forall2; [|exact Hmap].
  intros s diff c c' r0 _. unfold bind at 1.
  destruct (mapM _ (toInsert diff) s c) as [c1 [t|e]] eqn:Hin; [|done].
  unfold ret. intros [= _ <-]. simpl.
  split; [done|]. split; [done|].
  apply (mapM_Forall2 (handedOn host doc)
           (transformOutput typeError (transformMimeTypes host doc))
           (toInsert diff)) with (s := s) (calls := c) (calls' := c1);
    [|exact Hin].
  intros s1 out c2 c3 r1 _. apply transformOutput_handedOn.
Qed.

Lemma candidatesOf_nonempty this m html :
  candidatesOf this m html <> [].
Proof.
  unfold candidatesOf. by destruct (findBestMatchedRenderer this m).
Qed.

Lemma transformOutput_returns doc renderers out calls :
  wellBehaved host doc out ->
  exists calls' r,
    transformOutput typeError (transformMimeTypes host doc) renderers out calls
    = (calls', Normal r).
Proof.
  destruct out as [s|e|rich]; simpl; [unfold ret; eauto..|].
  intros [Hdata Hret]. unfold bind.
  rewrite transformMimeTypes_unfold.
  rewrite _transformMimeTypes_returns by done. simpl.
  destruct (sortedMimeTypes host (renderingHandler doc) (_displayOrder doc) rich)
    as [|m sorted] eqn:Hsorted.
  { exfalso. apply Hdata.
    assert (Hperm : sortedMimeTypes host (renderingHandler doc)
                      (_displayOrder doc) rich ≡ₚ Object_keys (data rich))
      by apply sortMimeTypes_Permutation.
    rewrite Hsorted in Hperm. symmetry in Hperm.
    apply Permutation_nil_r in Hperm. unfold Object_keys in Hperm.
    by apply fmap_nil_inv in Hperm. }
  simpl.
  destruct (candidatesOf (renderingHandler doc) m _) as [|c cs] eqn:Hc.
  { by apply candidatesOf_nonempty in Hc. }
  simpl. destruct (isResolved c); unfold ret; eauto.
Qed.

(** [eventuallyUpdateCellOutputs] gets to the proxy when every inserted
    rich output has a mime type and the renderers called return. *)
Lemma eventuallyUpdateCellOutputs_returns doc cellHandle diffs calls :
  (forall diff out, diff ∈ diffs -> out ∈ toInsert diff ->
                    wellBehaved host doc out) ->
  exists calls' call,
    eventuallyUpdateCellOutputs host typeError doc cellHandle diffs calls
      = (calls', Normal call)
    /\ call_cellHandle call = cellHandle
    /\ Forall2 (spliceHandedOn host doc) diffs (call_outputDtos call).
Proof.
  intros Hok.
  assert (exists calls' call,
    eventuallyUpdateCellOutputs host typeError doc cellHandle diffs calls
      = (calls', Normal call)) as (calls' & call & Heq).
  { unfold eventuallyUpdateCellOutputs, bind at 1.
    match goal with |- context [mapM ?f diffs [] calls] =>
      destruct (mapM_returns f diffs) with (s := @nil (option Z))
                                           (calls := calls)
        as (calls1 & r & ->)
    end.
    - intros s diff c Hdiff. unfold bind at 1.
      destruct (mapM_returns
                  (transformOutput typeError (transformMimeTypes host doc))
                  (toInsert diff)) with (s := s) (calls := c)
        as (c1 & t & ->).
      + intros s1 out c2 Hout. apply transformOutput_returns. by eapply Hok.
      + unfold ret. eauto.
    - unfold ret. eauto. }
  exists calls', call. split; [done|].
  by eapply eventuallyUpdateCellOutputs_hands_on.
Qed.
End CallerProperties.

(** C10 at an input on which the code does not do what the claim says: the
    single splice that [diff] computes when a cell without outputs is given
    one rich output without mime types.  [eventuallyUpdateCellOutputs]
    throws the [TypeError] of the missing [orderedMimeTypes[0]] and hands no
    splice to the proxy. *)
Theorem eventuallyUpdateCellOutputs_empty_rich_output_throws :
  diff (fun _ _ => false) [] [CellRichOutput (@emptyRichOutput string)]
       (fun _ => false)
  = Some [mkSplice 0 0 [CellRichOutput emptyRichOutput]]
  /\ eventuallyUpdateCellOutputs literalHost "TypeError"%string
       (sampleDocument bareController) 7%Z
       [mkSplice 0 0 [CellRichOutput emptyRichOutput]] []
     = ([], Throw "TypeError"%string).
Proof. split; reflexivity. Qed.

(** The same call with a stream output and a rich output that has a mime
    type goes through. *)
Example eventuallyUpdateCellOutputs_plain :
  eventuallyUpdateCellOutputs literalHost "TypeError"%string
    (sampleDocument bareController) 7%Z
    [mkSplice 2 1 [CellStreamOutput (mkStreamOutput "out");
                   CellRichOutput plainOutput]] []
  = ([], Normal {| call_cellHandle := 7%Z;
                   call_outputDtos :=
                     [(2, 1,
                       [OutStream (mkStreamOutput "out");
                        OutTransformed
                          {| dto_outputKind := Rich;
                             dto_data := data plainOutput;
                             orderedMimeTypes :=
                               [mkOrderedMimeType "text/plain" false None None];
                             pickedMimeTypeIndex := 0 |}])];
                   call_renderers := [] |}).
Proof. reflexivity. Qed.

(* ===================================================================== *)
(** * Part III: further properties *)
(* ===================================================================== *)

(** ** More on [diff] *)

Section DiffTotals.
Context {T : Type}.
Implicit Types (r result : list (ISplice T)) (before after : list T).

Lemma deletedCount_snoc r (s : ISplice T) :
  deletedCount (r ++ [s]) = deletedCount r + deleteCount s.
Proof. unfold deletedCount. rewrite sum_list_with_app. simpl. lia. Qed.

Lemma insertedItems_snoc r (s : ISplice T) :
  insertedItems (r ++ [s]) = insertedItems r ++ toInsert s.
Proof.
  unfold insertedItems. rewrite map_app, concat_app. simpl.
  by rewrite app_nil_r.
Qed.

(** [pushSplice] adds its arguments to the totals, whether it drops,
    merges or appends. *)
Lemma pushSplice_totals result i d (ins : list T) :
  deletedCount (pushSplice result i d ins) = deletedCount result + d
  /\ insertedItems (pushSplice result i d ins) = insertedItems result ++ ins.
Proof.
  unfold pushSplice.
  destruct ((d =? 0) && (length ins =? 0)) eqn:Hnoop.
  { apply andb_true_iff in Hnoop as [Hd Hins].
    apply Nat.eqb_eq in Hd. apply Nat.eqb_eq in Hins.
    apply nil_length_inv in Hins. subst. by rewrite Nat.add_0_r, app_nil_r. }
  destruct result as [|l r' _] using rev_ind.
  { simpl. split; [unfold deletedCount; simpl; lia|].
    unfold insertedItems. simpl. by rewrite app_nil_r. }
  rewrite last_snoc.
  destruct (start l + deleteCount l =? i).
  - rewrite removelast_last, !deletedCount_snoc, !insertedItems_snoc. simpl.
    split; [lia|by rewrite app_assoc].
  - rewrite !deletedCount_snoc, !insertedItems_snoc. simpl. done.
Qed.

Section Walk.
Variable same : T -> T -> bool.
Variable contains : T -> bool.
Variables before after : list T.

(** The walk accounts for every position: what is behind [afterIdx] plus
    what was deleted is what is behind [beforeIdx] plus what was
    inserted, and the inserted items are taken from [after] in order. *)
Lemma diff_loop_totals fuel i j result r :
  i <= length before -> j <= length after ->
  j + deletedCount result = i + length (insertedItems result) ->
  insertedItems result `sublist_of` take j after ->
  diff_loop same fuel before after contains i j result = Some r ->
  length after + deletedCount r = length before + length (insertedItems r)
  /\ insertedItems r `sublist_of` after.
Proof.
  revert i j result.
  induction fuel as [|fuel IH]; intros i j result Hi Hj Hbal Hsub; [done|].
  simpl.
  destruct (i =? length before) eqn:Ei.
  { apply Nat.eqb_eq in Ei. subst i. intros [= <-].
    destruct (pushSplice_totals result (length before) 0 (drop j after))
      as [-> ->].
    rewrite length_app, length_drop. split; [lia|].
    rewrite <- (take_drop j after) at 2. by apply sublist_app. }
  apply Nat.eqb_neq in Ei.
  destruct (j =? length after) eqn:Ej.
  { apply Nat.eqb_eq in Ej. subst j. intros [= <-].
    destruct (pushSplice_totals result i (length before - i) []) as [-> ->].
    rewrite app_nil_r. split; [lia|].
    by rewrite firstn_all in Hsub. }
  apply Nat.eqb_neq in Ej.
  destruct (lookup_lt_is_Some_2 before i) as [b Hb]; [lia|].
  destruct (lookup_lt_is_Some_2 after j) as [a Ha]; [lia|].
  rewrite Hb, Ha.
  destruct (same b a).
  - apply IH; [lia..|].
    rewrite Nat.add_1_r, (take_S_r after j a) by done.
    by apply sublist_inserts_r.
  - destruct (contains a).
    + destruct (pushSplice_totals result i 1 []) as [Hd Hins].
      apply IH; [lia|lia| |].
      * rewrite Hd, Hins, app_nil_r. lia.
      * by rewrite Hins, app_nil_r.
    + destruct (pushSplice_totals result i 0 [a]) as [Hd Hins].
      apply IH; [lia|lia| |].
      * rewrite Hd, Hins, length_app. simpl. lia.
      * rewrite Hins, Nat.add_1_r, (take_S_r after j a) by done.
        by apply sublist_app.
Qed.


(** Arrays that agree position by position from here on leave [result]
    as it is. *)
Lemma diff_loop_same fuel i j result :
  (length before - i) + (length after - j) < fuel ->
  i <= length before -> j <= length after ->
  Forall2 (fun b a => same b a = true) (drop i before) (drop j after) ->
  diff_loop same fuel before after contains i j result = Some result.
Proof.
  revert i j.
  induction fuel as [|fuel IH]; intros i j Hfuel Hi Hj Hall; [lia|].
  simpl.
  pose proof (Forall2_length _ _ _ Hall) as Hlen.
  rewrite !length_drop in Hlen.
  destruct (i =? length before) eqn:Ei.
  { apply Nat.eqb_eq in Ei. rewrite (drop_ge after j) by lia. done. }
  apply Nat.eqb_neq in Ei.
  destruct (j =? length after) eqn:Ej.
  { apply Nat.eqb_eq in Ej. lia. }
  apply Nat.eqb_neq in Ej.
  destruct (lookup_lt_is_Some_2 before i) as [b Hb]; [lia|].
  destruct (lookup_lt_is_Some_2 after j) as [a Ha]; [lia|].
  rewrite Hb, Ha.
  rewrite (drop_S before b i Hb), (drop_S after a j Ha) in Hall.
  apply Forall2_cons in Hall as [-> Hall].
  rewrite !Nat.add_1_r. apply IH; [lia..|done].
Qed.
End Walk.
End DiffTotals.

Section DiffExtras.
Context {T : Type}.
Implicit Types (before after : list T).

Lemma chained_deleted_le (rs : list (ISplice T)) g n :
  chained rs g n ->
  sum_list_with deleteCount rs <= n
  /\ forall s, s ∈ rs -> start s + deleteCount s <= n.
Proof.
  revert g n. induction rs as [|s rs IH]; intros g n Hch; simpl.
  { split; [lia|]. by intros s Hs%elem_of_nil. }
  destruct Hch as (Hend & _ & Hrest).
  destruct (IH _ _ Hrest) as [Hsum Hall]. split; [lia|].
  intros s' [->|Hs']%elem_of_cons; [lia|].
  specialize (Hall s' Hs'). lia.
Qed.

(** X1.  For an equality test that accepts exactly the equal elements,
    [diff] returns the empty list of splices exactly when the two arrays
    are equal. *)
Theorem diff_is_empty_iff_arrays_equal
    (same : T -> T -> bool) (contains : T -> bool) before after :
  (forall x y, same x y = true <-> x = y) ->
  diff same before after contains = Some [] <-> before = after.
Proof.
  intros Hsame. split.
  - intros Hr. unfold diff in Hr.
    apply (diff_loop_apply same contains before after
             (fun x y H => proj1 (Hsame x y) H) _ 0 0 [] []) in Hr;
      [done|lia|lia|done|done].
  - intros <-. unfold diff.
    apply diff_loop_same; [simpl; lia|lia|lia|].
    simpl. induction before as [|x l IH]; constructor; [by apply Hsame|done].
Qed.

(** X2.  An empty side.  With an empty [before], [diff] returns one splice
    that inserts all of [after] at 0 (none if [after] is empty too); with
    an empty [after], one splice that deletes all of [before] (none if
    [before] is empty). *)
Theorem diff_with_an_empty_side
    (same : T -> T -> bool) (contains : T -> bool) before after :
  diff same [] after contains
  = Some (match after with [] => [] | _ => [mkSplice 0 0 after] end)
  /\ diff same before [] contains
     = Some (match before with
             | [] => []
             | _ => [mkSplice 0 (length before) []]
             end).
Proof.
  split.
  - by destruct after.
  - destruct before as [|b l]; [done|].
    unfold diff. simpl. done.
Qed.

(** X3.  Whatever [same] and [contains] answer, the splices of [diff] stay
    inside [before], delete at most [before.length] items in all, insert
    items of [after] in the order of [after], and account for the lengths:
    [after.length] is [before.length] minus the items deleted plus the
    items inserted. *)
Theorem diff_accounts_for_every_item
    (same : T -> T -> bool) (contains : T -> bool) before after :
  exists r,
    diff same before after contains = Some r
    /\ (forall s, s ∈ r -> start s + deleteCount s <= length before)
    /\ deletedCount r <= length before
    /\ insertedItems r `sublist_of` after
    /\ length after + deletedCount r
       = length before + length (insertedItems r).
Proof.
  destruct (diff_returns same contains before after) as (r & Hr & Hch).
  exists r. split; [done|].
  apply chained_deleted_le in Hch as [Hsum Hall].
  split; [|split].
  - intros s Hs. apply Hall. by apply elem_of_reverse.
  - unfold deletedCount.
    by rewrite <- (sum_list_with_reverse deleteCount r).
  - unfold diff in Hr.
    apply (diff_loop_totals same contains before after _ 0 0 [] r) in Hr
      as [Hbal Hsub]; [done|lia|lia|done|apply sublist_nil_l].
Qed.

End DiffExtras.

Lemma diff_is_empty_iff_arrays_equal_witness :
  (forall x y : nat, Nat.eqb x y = true <-> x = y)
  /\ (diff Nat.eqb [1; 2; 3] [1; 2; 3] (fun _ => false) = Some []
      <-> [1; 2; 3] = [1; 2; 3]).
Proof.
  split; [apply Nat.eqb_eq|].
  apply diff_is_empty_iff_arrays_equal. apply Nat.eqb_eq.
Defined.


(** ** The [outputs] setter of [ExtHostCell] *)

Section CellProperties.
Context {T : Type} `{EqDecision T}.
Implicit Types (x y : T) (outputs mapping before after : list T).
Implicit Types (result : list (ISplice T)).

Lemma elem_of_Set_add mapping x y : x ∈ Set_add mapping y <-> x ∈ mapping \/ x = y.
Proof.
  unfold Set_add. case_bool_decide as Hy.
  - split; [by left|]. intros [?| ->]; done.
  - rewrite elem_of_app, list_elem_of_singleton. done.
Qed.

Lemma elem_of_Set_delete mapping x y :
  x ∈ Set_delete mapping y <-> x ∈ mapping /\ x <> y.
Proof. unfold Set_delete. rewrite list_elem_of_filter. tauto. Qed.

Lemma elem_of_foldl_Set_add mapping (l : list T) x :
  x ∈ foldl Set_add mapping l <-> x ∈ mapping \/ x ∈ l.
Proof.
  revert mapping. induction l as [|y l IH]; intros mapping; simpl.
  { rewrite elem_of_nil. tauto. }
  rewrite IH, elem_of_Set_add, elem_of_cons. tauto.
Qed.

Lemma elem_of_deleteOutputs outputs mapping i count x :
  x ∈ deleteOutputs outputs mapping i count
  <-> x ∈ mapping /\ x ∉ take count (drop i outputs).
Proof.
  revert mapping i. induction count as [|count IH]; intros mapping i; simpl.
  { rewrite elem_of_nil. tauto. }
  rewrite IH, Nat.add_1_r.
  destruct (outputs !! i) as [o|] eqn:Ho.
  - rewrite (drop_S outputs o i Ho). simpl.
    rewrite elem_of_Set_delete, not_elem_of_cons. tauto.
  - apply lookup_ge_None in Ho.
    rewrite !drop_ge by lia. rewrite !take_nil. tauto.
Qed.

Lemma elem_of_updateOutputMapping outputs mapping (s : ISplice T) x :
  x ∈ updateOutputMapping outputs mapping s
  <-> (x ∈ mapping /\ x ∉ take (deleteCount s) (drop (start s) outputs))
      \/ x ∈ toInsert s.
Proof.
  unfold updateOutputMapping.
  by rewrite elem_of_foldl_Set_add, elem_of_deleteOutputs.
Qed.

Lemma insertedItems_elem_of_snoc result (s : ISplice T) x :
  x ∈ insertedItems (result ++ [s]) <-> x ∈ insertedItems result \/ x ∈ toInsert s.
Proof. by rewrite insertedItems_snoc, elem_of_app. Qed.

(** One [pushSplice], seen from the set: the items of the range leave it
    and the inserted items join it.  Merging into the latest splice does
    not change this as long as nothing inserted so far was an item of
    [before]. *)
Lemma pushSplice_mapping before mapping result i d (ins : list T) x :
  (forall y, y ∈ insertedItems result -> y ∉ before) ->
  x ∈ foldl (updateOutputMapping before) mapping (pushSplice result i d ins)
  <-> (x ∈ foldl (updateOutputMapping before) mapping result
       /\ x ∉ take d (drop i before))
      \/ x ∈ ins.
Proof.
  intros Hfresh. unfold pushSplice.
  destruct ((d =? 0) && (length ins =? 0)) eqn:Hnoop.
  { apply andb_true_iff in Hnoop as [Hd Hins].
    apply Nat.eqb_eq in Hd. apply Nat.eqb_eq in Hins.
    apply nil_length_inv in Hins. subst. simpl.
    rewrite take_0, elem_of_nil. tauto. }
  destruct result as [|l r' _] using rev_ind.
  { simpl. by rewrite elem_of_updateOutputMapping. }
  rewrite last_snoc.
  destruct (start l + deleteCount l =? i) eqn:Hcont.
  - apply Nat.eqb_eq in Hcont. subst i.
    rewrite removelast_last, !foldl_snoc, !elem_of_updateOutputMapping.
    simpl.
    rewrite <- take_take_drop, drop_drop, !elem_of_app.
    assert (x ∈ toInsert l -> x ∉ take d (drop (start l + deleteCount l) before)).
    { intros Hx Hin. apply (Hfresh x).
      - apply insertedItems_elem_of_snoc. by right.
      - by apply subseteq_take, subseteq_drop in Hin. }
    tauto.
  - by rewrite foldl_snoc, elem_of_updateOutputMapping.
Qed.

Section SetterWalk.
Variables before after mapping : list T.
Hypothesis before_NoDup : NoDup before.
Hypothesis mapping_before : forall x, x ∈ mapping <-> x ∈ before.

Lemma before_split_NoDup i x :
  x ∈ take i before -> x ∉ drop i before.
Proof.
  intros Hx. rewrite <- (take_drop i before) in before_NoDup.
  apply NoDup_app in before_NoDup as (_ & Hdisj & _). by apply Hdisj.
Qed.

(** The set follows the walk: it holds what of [after] has been passed
    and what of [before] is still ahead. *)
Lemma diff_loop_mapping fuel i j result r :
  i <= length before -> j <= length after ->
  (forall x, x ∈ foldl (updateOutputMapping before) mapping result
             <-> x ∈ take j after \/ x ∈ drop i before) ->
  (forall x, x ∈ take j after -> x ∈ take i before \/ x ∉ before) ->
  (forall y, y ∈ insertedItems result -> y ∉ before) ->
  diff_loop (fun a b => bool_decide (a = b)) fuel before after
            (Set_has mapping) i j result = Some r ->
  forall x, x ∈ foldl (updateOutputMapping before) mapping r <-> x ∈ after.
Proof.
  revert i j result.
  induction fuel as [|fuel IH]; intros i j result Hi Hj Hset Hpassed Hfresh;
    [done|].
  simpl.
  destruct (i =? length before) eqn:Ei.
  { apply Nat.eqb_eq in Ei. subst i. intros [= <-] x.
    rewrite pushSplice_mapping by done. simpl.
    rewrite Hset, drop_all, !elem_of_nil.
    rewrite <- (take_drop j after) at 3. rewrite elem_of_app. tauto. }
  apply Nat.eqb_neq in Ei.
  destruct (j =? length after) eqn:Ej.
  { apply Nat.eqb_eq in Ej. subst j. intros [= <-] x.
    rewrite pushSplice_mapping by done.
    rewrite Hset, firstn_all, elem_of_nil.
    rewrite take_ge by (rewrite length_drop; lia).
    rewrite firstn_all in Hpassed.
    split; [|intros Hx; left; split; [by left|]].
    - intros [[[Hx|Hx] Hnot]|[]]; done.
    - intros Hd. destruct (Hpassed x Hx) as [Ht|Hn].
      + by apply before_split_NoDup in Ht.
      + by apply Hn, (subseteq_drop i). }
  apply Nat.eqb_neq in Ej.
  destruct (lookup_lt_is_Some_2 before i) as [b Hb]; [lia|].
  destruct (lookup_lt_is_Some_2 after j) as [a Ha]; [lia|].
  rewrite Hb, Ha.
  assert (Hbi : b ∈ take (S i) before).
  { rewrite (take_S_r before i b Hb), elem_of_app, list_elem_of_singleton.
    by right. }
  assert (Hb_ahead : b ∉ drop (S i) before) by by apply before_split_NoDup.
  assert (Hb_passed : b ∉ take j after).
  { intros Hin. destruct (Hpassed b Hin) as [Ht|Hn].
    - apply before_split_NoDup in Ht. apply Ht.
      rewrite (drop_S before b i Hb). apply list_elem_of_here.
    - by apply Hn, (subseteq_take (S i)). }
  rewrite !Nat.add_1_r.
  case_bool_decide as Heq.
  - subst a. apply IH; [lia|lia| | |done].
    + intros x. rewrite Hset, (take_S_r after j b Ha), (drop_S before b i Hb).
      rewrite elem_of_app, elem_of_cons, list_elem_of_singleton. tauto.
    + intros x. rewrite (take_S_r after j b Ha), (take_S_r before i b Hb).
      rewrite !elem_of_app, list_elem_of_singleton.
      intros [Hx| ->]; [|by left; right].
      destruct (Hpassed x Hx); [by left; left|by right].
  - unfold Set_has at 1. case_bool_decide as Hcontains.
    + apply IH; [lia|lia| | |].
      * intros x. rewrite pushSplice_mapping by done.
        rewrite Hset, (drop_S before b i Hb). simpl.
        rewrite take_0, elem_of_nil, elem_of_cons, not_elem_of_cons.
        split.
        -- intros [[[Hx|[->|Hx]] [Hne _]]|[]]; [by left|done|by right].
        -- intros [Hx|Hx]; left; (split; [tauto|]);
             (split; [by intros ->|by intros ?%elem_of_nil]).
      * intros x Hx. rewrite (take_S_r before i b Hb), elem_of_app.
        destruct (Hpassed x Hx); [by left; left|by right].
      * intros y. destruct (pushSplice_totals result i 1 []) as [_ ->].
        rewrite app_nil_r. apply Hfresh.
    + assert (Ha_new : a ∉ before) by (by rewrite <- mapping_before).
      apply IH; [lia|lia| | |].
      * intros x. rewrite pushSplice_mapping by done. simpl.
        rewrite Hset, (take_S_r after j a Ha), elem_of_app,
                !list_elem_of_singleton, elem_of_nil.
        tauto.
      * intros x. rewrite (take_S_r after j a Ha), elem_of_app,
                          list_elem_of_singleton.
        intros [Hx| ->]; [by apply Hpassed|by right].
      * intros y. destruct (pushSplice_totals result i 0 [a]) as [_ ->].
        rewrite elem_of_app, list_elem_of_singleton.
        intros [Hy| ->]; [by apply Hfresh|done].
Qed.
End SetterWalk.

(** X5.  The [outputs] setter keeps [_outputMapping] in step with
    [_outputs]: if the outputs of the cell are distinct objects and the
    set holds exactly these, then after [cell.outputs = newOutputs] the
    outputs are [newOutputs], the set holds exactly the objects of
    [newOutputs], and the splices fired turn the old outputs into
    [newOutputs]. *)
Theorem outputs_setter_keeps_mapping_in_step
    (this : ExtHostCell T) (newOutputs : list T) :
  NoDup (_outputs this) ->
  (forall x, x ∈ _outputMapping this <-> x ∈ _outputs this) ->
  exists this' diffs,
    set_outputs this newOutputs = Some (this', diffs)
    /\ _outputs this' = newOutputs
    /\ (forall x, x ∈ _outputMapping this' <-> x ∈ newOutputs)
    /\ applySplices diffs (_outputs this) = newOutputs.
Proof.
  intros Hnd Hmap. unfold set_outputs.
  destruct (diff_returns (fun a b : T => bool_decide (a = b))
              (Set_has (_outputMapping this)) (_outputs this) newOutputs)
    as (diffs & Hdiffs & _).
  rewrite Hdiffs. eexists _, diffs. split; [done|]. simpl.
  split; [done|]. unfold diff in Hdiffs. split.
  - apply (diff_loop_mapping (_outputs this) newOutputs (_outputMapping this)
             Hnd Hmap (length (_outputs this) + length newOutputs + 1)
             0 0 [] diffs); [lia|lia| | | |done].
    + intros x. simpl. rewrite take_0, drop_0, elem_of_nil, Hmap. tauto.
    + intros x. rewrite take_0. by intros ?%elem_of_nil.
    + intros y. unfold insertedItems. simpl. by intros ?%elem_of_nil.
  - apply (diff_loop_apply (fun a b : T => bool_decide (a = b))
             (Set_has (_outputMapping this)) (_outputs this) newOutputs)
      with (fuel := length (_outputs this) + length newOutputs + 1)
           (i := 0) (j := 0) (result := []); [|lia|lia|done|done|done].
    intros x y Hxy. by apply bool_decide_eq_true in Hxy.
Qed.
End CellProperties.

Lemma outputs_setter_keeps_mapping_in_step_witness :
  NoDup (_outputs (mkCell [1; 2; 3] [3; 1; 2]))
  /\ (forall x, x ∈ _outputMapping (mkCell [1; 2; 3] [3; 1; 2])
                <-> x ∈ _outputs (mkCell [1; 2; 3] [3; 1; 2]))
  /\ exists this' diffs,
       set_outputs (mkCell [1; 2; 3] [3; 1; 2]) [3; 1; 4] = Some (this', diffs)
       /\ _outputs this' = [3; 1; 4]
       /\ (forall x, x ∈ _outputMapping this' <-> x ∈ [3; 1; 4])
       /\ applySplices diffs (_outputs (mkCell [1; 2; 3] [3; 1; 2])) = [3; 1; 4].
Proof.
  assert (Hnd : NoDup (_outputs (mkCell [1; 2; 3] [3; 1; 2])))
    by (apply (bool_decide_unpack _); vm_compute; reflexivity).
  assert (Hmap : forall x, x ∈ _outputMapping (mkCell [1; 2; 3] [3; 1; 2])
                           <-> x ∈ _outputs (mkCell [1; 2; 3] [3; 1; 2])).
  { intros x. simpl. rewrite !elem_of_cons, !elem_of_nil. tauto. }
  split; [exact Hnd|]. split; [exact Hmap|].
  apply (outputs_setter_keeps_mapping_in_step (mkCell [1; 2; 3] [3; 1; 2])
           [3; 1; 4] Hnd Hmap).
Defined.

Example outputs_setter_needs_distinct_outputs :
  set_outputs (mkCell [1; 1] [1]) [1]
  = Some (mkCell [1] [], [mkSplice 1 1 []]).
Proof. reflexivity. Qed.

(** ** More on the mime-type order *)

Section RankExtras.
Variable host : Host.
Implicit Types (m : string).

Lemma scanDisplayOrder_app (l1 l2 : list string) m order :
  scanDisplayOrder host (l1 ++ l2) m order
  = match scanDisplayOrder host l1 m order with
    | inl found => inl found
    | inr order' => scanDisplayOrder host l2 m order'
    end.
Proof.
  revert order. induction l1 as [|p l1 IH]; intros order; simpl; [done|].
  by destruct (matchGlobUniversal host p m).
Qed.

Lemma getMimeTypeOrder_app m (u d f : list string) :
  getMimeTypeOrder host m u d f = getMimeTypeOrder host m (u ++ d ++ f) [] [].
Proof.
  unfold getMimeTypeOrder. rewrite scanDisplayOrder_app. simpl.
  destruct (scanDisplayOrder host u m 0) as [?|o1]; [done|].
  rewrite scanDisplayOrder_app.
  destruct (scanDisplayOrder host d m o1) as [?|o2]; [done|].
  by destruct (scanDisplayOrder host f m o2).
Qed.

Lemma noMatch_nil m : noMatch host [] m.
Proof. intros p Hp. by apply elem_of_nil in Hp. Qed.

(** X6.  The three display orders act as one list: the rank of a mime type
    is its rank against [userOrder], [documentOrder] and [defaultOrder]
    put end to end.  The rank is at most the length of that list, and is
    below it exactly when some pattern of the three lists matches. *)
Theorem getMimeTypeOrder_ranks_against_the_concatenation
    m (userOrder0 documentOrder0 defaultOrder0 : list string) :
  getMimeTypeOrder host m userOrder0 documentOrder0 defaultOrder0
  = getMimeTypeOrder host m (userOrder0 ++ documentOrder0 ++ defaultOrder0) [] []
  /\ getMimeTypeOrder host m userOrder0 documentOrder0 defaultOrder0
     <= length userOrder0 + length documentOrder0 + length defaultOrder0
  /\ (getMimeTypeOrder host m userOrder0 documentOrder0 defaultOrder0
      < length userOrder0 + length documentOrder0 + length defaultOrder0
      <-> exists pattern,
            pattern ∈ userOrder0 ++ documentOrder0 ++ defaultOrder0
            /\ matchGlobUniversal host pattern m = true).
Proof.
  rewrite getMimeTypeOrder_app.
  assert (Hlen : length (userOrder0 ++ documentOrder0 ++ defaultOrder0)
                 = length userOrder0 + length documentOrder0 + length defaultOrder0)
    by (rewrite !length_app; lia).
  rewrite <- Hlen. clear Hlen.
  generalize (userOrder0 ++ documentOrder0 ++ defaultOrder0). intros all.
  split; [done|].
  destruct (firstMatchAt_or_noMatch host all m) as [(k & Hk & Hfirst)|Hnone].
  - rewrite (rank_user host all [] [] m k Hfirst).
    split; [lia|]. split; [|done].
    intros _. destruct Hfirst as [(p & Hp & Hm) _].
    exists p. split; [by eapply list_elem_of_lookup_2|done].
  - rewrite (rank_unmatched host all [] [] m Hnone (noMatch_nil m) (noMatch_nil m)).
    simpl. split; [lia|]. split; [lia|].
    intros (p & Hp & Hm). rewrite (Hnone p Hp) in Hm. done.
Qed.
End RankExtras.

Section SortExtras.
Context {A : Type} (rank : A -> nat).

Lemma array_sort_sorted_id (l : list A) :
  StronglySorted (fun a b => rank a <= rank b) l ->
  array_sort (fun a b => (Z.of_nat (rank a) - Z.of_nat (rank b))%Z) l = l.
Proof.
  induction 1 as [|x l Hl IH Hx]; [done|].
  unfold array_sort in *. simpl. rewrite IH.
  destruct l as [|y l]; [done|]. simpl.
  apply Forall_cons in Hx as [Hxy _].
  by rewrite (proj2 (Z.leb_le _ _)) by lia.
Qed.
End SortExtras.

(** X7.  Sorting is settled after one pass: [sortMimeTypes] of its own
    result returns that result, a list whose ranks already ascend comes
    back as it is, and without any display order every list comes back as
    it is. *)
Theorem sortMimeTypes_leaves_sorted_lists_alone
    (host : Host) (mimeTypes userOrder0 documentOrder0 defaultOrder0 : list string) :
  sortMimeTypes host
    (sortMimeTypes host mimeTypes userOrder0 documentOrder0 defaultOrder0)
    userOrder0 documentOrder0 defaultOrder0
  = sortMimeTypes host mimeTypes userOrder0 documentOrder0 defaultOrder0
  /\ (StronglySorted
        (fun a b =>
           getMimeTypeOrder host a userOrder0 documentOrder0 defaultOrder0
           <= getMimeTypeOrder host b userOrder0 documentOrder0 defaultOrder0)
        mimeTypes ->
      sortMimeTypes host mimeTypes userOrder0 documentOrder0 defaultOrder0
      = mimeTypes)
  /\ sortMimeTypes host mimeTypes [] [] [] = mimeTypes.
Proof.
  split; [|split].
  - apply (array_sort_sorted_id
             (fun m => getMimeTypeOrder host m userOrder0 documentOrder0
                                         defaultOrder0)).
    apply (array_sort_sorted
             (fun m => getMimeTypeOrder host m userOrder0 documentOrder0
                                         defaultOrder0)).
  - apply (array_sort_sorted_id
             (fun m => getMimeTypeOrder host m userOrder0 documentOrder0
                                         defaultOrder0)).
  - apply (array_sort_sorted_id (fun m => getMimeTypeOrder host m [] [] [])).
    induction mimeTypes as [|m l IH]; constructor; [done|].
    apply Forall_forall. intros m' _. done.
Qed.

Section GlobExtras.
Lemma replaceSlashes_idemp (s : string) :
  replaceSlashes (replaceSlashes s) = replaceSlashes s.
Proof.
  induction s as [|c s IH]; simpl; [done|]. rewrite IH. f_equal.
  destruct (Ascii.eqb c "/") eqn:Hc; [done|]. by rewrite Hc.
Qed.

(** X8.  On a Windows host [matchGlobUniversal] does not tell a slash from
    a backslash, in the pattern or in the mime type: replacing the slashes
    of either by backslashes beforehand changes no answer. *)
Theorem matchGlobUniversal_ignores_slash_direction_on_windows
    (host : Host) (pattern path : string) :
  isWindows host = true ->
  matchGlobUniversal host (replaceSlashes pattern) path
  = matchGlobUniversal host pattern path
  /\ matchGlobUniversal host pattern (replaceSlashes path)
     = matchGlobUniversal host pattern path.
Proof.
  intros Hwin. unfold matchGlobUniversal. rewrite Hwin.
  by rewrite !replaceSlashes_idemp.
Qed.
End GlobExtras.

Lemma matchGlobUniversal_ignores_slash_direction_on_windows_witness :
  isWindows windowsHost = true
  /\ matchGlobUniversal windowsHost (replaceSlashes "text/html") "text/html"
     = matchGlobUniversal windowsHost "text/html" "text/html"
  /\ matchGlobUniversal windowsHost "text/html" (replaceSlashes "text/html")
     = matchGlobUniversal windowsHost "text/html" "text/html".
Proof.
  split; [reflexivity|].
  apply (matchGlobUniversal_ignores_slash_direction_on_windows windowsHost
           "text/html" "text/html").
  reflexivity.
Defined.

(** ** More on the resolver *)

Lemma indexOf_from_spec (arr : list string) (x : string) (i : Z) :
  (0 <= i)%Z ->
  (x ∈ arr -> (0 <= indexOf_from arr x i)%Z)
  /\ (x ∉ arr -> indexOf_from arr x i = (-1)%Z).
Proof.
  revert i. induction arr as [|y arr IH]; intros i Hi; simpl.
  { split; [by intros ?%elem_of_nil|done]. }
  destruct (String.eqb y x) eqn:Hy.
  - apply String.eqb_eq in Hy. subst y. split; [done|].
    intros Hnot. exfalso. apply Hnot, list_elem_of_here.
  - apply String.eqb_neq in Hy.
    destruct (IH (i + 1)%Z ltac:(lia)) as [IH1 IH2]. split.
    + intros [->|Hin]%elem_of_cons; [done|by apply IH1].
    + intros Hnot. apply IH2. intros Hin. apply Hnot. by right.
Qed.

Lemma indexOf_ge_0 (arr : list string) (x : string) :
  (indexOf arr x >=? 0)%Z = true <-> x ∈ arr.
Proof.
  unfold indexOf.
  destruct (indexOf_from_spec arr x 0 ltac:(lia)) as [H1 H2].
  rewrite Z.geb_le. split.
  - intros Hge. destruct (decide (x ∈ arr)) as [|Hnot]; [done|].
    rewrite (H2 Hnot) in Hge. lia.
  - apply H1.
Qed.

Section RegistryLookup.
Context {Payload DocRef Exn : Type}.
Local Abbreviation Controller := (ExtHostNotebookController Payload DocRef Exn).
Local Abbreviation Renderer := (ExtHostNotebookOutputRenderer Payload DocRef Exn).

Lemma matches_spec (r : Renderer) (m : string) :
  matches r m = true
  <-> exists types, subTypes (rendererFilter r) = Some types /\ m ∈ types.
Proof.
  unfold matches. destruct (subTypes (rendererFilter r)) as [types|].
  - destruct (indexOf types m >=? 0)%Z eqn:Hi.
    + apply indexOf_ge_0 in Hi. split; [|done]. intros _. by exists types.
    + split; [done|]. intros (types' & [= <-] & Hin).
      apply indexOf_ge_0 in Hin. congruence.
  - split; [done|]. by intros (types & ? & _).
Qed.

Lemma findBestMatchedRenderer_loop_filter
    (entries : list (Z * Renderer)) (m : string) (acc : list Renderer) :
  findBestMatchedRenderer_loop entries m acc
  = acc ++ filter (fun r => matches r m = true) (map snd entries).
Proof.
  revert acc. induction entries as [|e entries IH]; intros acc; simpl.
  { by rewrite app_nil_r. }
  rewrite filter_cons.
  destruct (matches (snd e) m) eqn:He; rewrite IH.
  - rewrite decide_True by done. by rewrite <- app_assoc.
  - by rewrite decide_False by done.
Qed.

(** X9.  [findBestMatchedRenderer] returns the registered renderers whose
    [filter.subTypes] lists the mime type, all of them and no other, in the
    order of registration; a renderer without [subTypes] is never
    returned. *)
Theorem findBestMatchedRenderer_lists_matches_in_registration_order
    (this : Controller) (m : string) :
  findBestMatchedRenderer this m
  = filter (fun r => matches r m = true)
           (map snd (_notebookOutputRenderers this))
  /\ (forall r, r ∈ findBestMatchedRenderer this m <->
        r ∈ map snd (_notebookOutputRenderers this)
        /\ exists types, subTypes (rendererFilter r) = Some types /\ m ∈ types)
  /\ (forall r, subTypes (rendererFilter r) = None ->
        r ∉ findBestMatchedRenderer this m).
Proof.
  assert (Heq : findBestMatchedRenderer this m
    = filter (fun r => matches r m = true)
             (map snd (_notebookOutputRenderers this))).
  { unfold findBestMatchedRenderer.
    by rewrite findBestMatchedRenderer_loop_filter. }
  split; [done|]. rewrite Heq. split.
  - intros r. rewrite list_elem_of_filter, matches_spec. tauto.
  - intros r Hnone [Hm _]%list_elem_of_filter.
    apply matches_spec in Hm as (types & Hsome & _). congruence.
Qed.
End RegistryLookup.

Section ResolverExtras.
Context {Payload DocRef Exn : Type}.
Variable host : Host.

Local Abbreviation Controller := (ExtHostNotebookController Payload DocRef Exn).
Local Abbreviation Document := (ExtHostNotebookDocument Payload DocRef Exn).
Local Abbreviation Output := (CellDisplayOutput Payload).
Local Abbreviation Calls := (list (Invocation Payload DocRef Exn)).

Implicit Types (this : Controller) (doc : Document) (o : Output).
Implicit Types (displayOrder : list string) (calls : Calls).

Lemma sortedMimeTypes_elem_of this displayOrder o m :
  m ∈ sortedMimeTypes host this displayOrder o <-> m ∈ Object_keys (data o).
Proof.
  unfold sortedMimeTypes. by rewrite sortMimeTypes_Permutation.
Qed.

Lemma sortedMimeTypes_nil this displayOrder o :
  sortedMimeTypes host this displayOrder o = [] <-> data o = [].
Proof.
  split.
  - intros Hnil.
    assert (Hperm : sortedMimeTypes host this displayOrder o
                    ≡ₚ Object_keys (data o)) by apply sortMimeTypes_Permutation.
    rewrite Hnil in Hperm. symmetry in Hperm.
    apply Permutation_nil_r in Hperm. unfold Object_keys in Hperm.
    by apply fmap_nil_inv in Hperm.
  - intros Hnil. unfold sortedMimeTypes. by rewrite Hnil.
Qed.

Lemma candidatesOf_resolved this (m html : string) c :
  c ∈ candidatesOf this m html -> isResolved c = true ->
  exists first others,
    findBestMatchedRenderer this m = first :: others
    /\ c = mkOrderedMimeType m true (Some (handle first)) (Some html).
Proof.
  unfold candidatesOf.
  destruct (findBestMatchedRenderer this m) as [|first others].
  { by intros ->%list_elem_of_singleton. }
  intros [->|[Hc|Hc]%elem_of_app]%elem_of_cons Hres; [by eauto| |].
  - apply list_elem_of_fmap in Hc as (h & -> & _). done.
  - destruct (mimeTypeSupportedByCore m).
    + by apply list_elem_of_singleton in Hc as ->.
    + by apply elem_of_nil in Hc.
Qed.

Lemma firstRendererCalls_mimeTypes this (sorted : list string) :
  map snd (firstRendererCalls this sorted)
  = filter (fun m => findBestMatchedRenderer this m <> []) sorted.
Proof.
  unfold firstRendererCalls.
  induction sorted as [|m sorted IH]; simpl; [done|].
  rewrite map_app, IH, filter_cons.
  destruct (findBestMatchedRenderer this m) as [|first others].
  - by rewrite decide_False by (by intros ?).
  - by rewrite decide_True by done.
Qed.

Lemma resolved_candidates_count this (html : string -> string)
    (sorted : list string) :
  length (filter (fun c => isResolved c = true)
                 (flat_map (fun m => candidatesOf this m (html m)) sorted))
  = length (firstRendererCalls this sorted).
Proof.
  unfold firstRendererCalls.
  induction sorted as [|m sorted IH]; simpl; [done|].
  rewrite filter_app, !length_app, IH. f_equal.
  unfold candidatesOf.
  destruct (findBestMatchedRenderer this m) as [|first others]; [done|].
  rewrite filter_cons, decide_True by done. simpl. f_equal.
  rewrite filter_app.
  assert (Hnone : forall l : list IOrderedMimeType,
            Forall (fun c => isResolved c = false) l ->
            filter (fun c => isResolved c = true) l = []).
  { intros l Hl. induction Hl as [|c l Hc _ IHl]; [done|].
    rewrite filter_cons, decide_False by congruence. done. }
  rewrite !Hnone; [done| |].
  - destruct (mimeTypeSupportedByCore m); by repeat constructor.
  - apply Forall_forall. intros c (h & -> & _)%list_elem_of_fmap. done.
Qed.

(** X10.  When the renderers called return, the candidates of the record
    cover the mime types of the output exactly: every candidate is for a
    key of [data], every key of [data] has a candidate, and the list of
    candidates is empty only for an output without keys. *)
Theorem candidates_cover_the_mime_types_of_the_output
    this doc displayOrder o calls :
  rendersReturn this (documentRef doc) o
                (sortedMimeTypes host this displayOrder o) ->
  exists calls' dto,
    _transformMimeTypes host this doc displayOrder o calls = (calls', Normal dto)
    /\ transformMimeTypes host
         (mkDocument (documentRef doc) displayOrder this) o calls
       = (calls', Normal dto)
    /\ (forall c, c ∈ orderedMimeTypes dto ->
          mimeType c ∈ Object_keys (data o))
    /\ (forall key, key ∈ Object_keys (data o) ->
          exists c, c ∈ orderedMimeTypes dto /\ mimeType c = key)
    /\ (orderedMimeTypes dto = [] <-> data o = []).
Proof.
  intros Hret.
  destruct (transforms_return host this doc displayOrder o calls Hret)
    as (dto & H1 & H2 & _ & _ & Hcands & _).
  eexists _, dto. split; [exact H1|]. split; [exact H2|].
  rewrite Hcands. split; [|split].
  - intros c Hc. apply flat_map_candidates_mimeType in Hc as [Hc _].
    by apply sortedMimeTypes_elem_of in Hc.
  - intros key Hkey.
    apply (sortedMimeTypes_elem_of this displayOrder) in Hkey.
    destruct (candidatesOf this key
                (renderedOutputOf this (documentRef doc) o key))
      as [|c cs] eqn:Hc; [by apply candidatesOf_nonempty in Hc|].
    exists c. split.
    + apply list_elem_of_In, in_flat_map. exists key.
      split; [by apply list_elem_of_In|]. rewrite Hc. by left.
    + apply (candidatesOf_mimeType this key
               (renderedOutputOf this (documentRef doc) o key)).
      rewrite Hc. apply list_elem_of_here.
  - rewrite <- (sortedMimeTypes_nil this displayOrder o).
    destruct (sortedMimeTypes host this displayOrder o) as [|m sorted];
      [done|].
    simpl. split; [|done]. intros Hnil.
    apply app_eq_nil in Hnil as [Hnil _].
    by apply candidatesOf_nonempty in Hnil.
Qed.

(** X11.  Rendering is eager.  When the renderers called return, a
    transform has called [render] once for every mime type of the output
    that has a matching renderer, in sorted order, whichever candidate is
    picked; the resolved candidates of the record are as many as these
    calls. *)
Theorem every_mime_type_with_a_renderer_is_rendered
    this doc displayOrder o calls :
  rendersReturn this (documentRef doc) o
                (sortedMimeTypes host this displayOrder o) ->
  exists calls' dto,
    _transformMimeTypes host this doc displayOrder o calls
      = (calls ++ calls', Normal dto)
    /\ transformMimeTypes host
         (mkDocument (documentRef doc) displayOrder this) o calls
       = (calls ++ calls', Normal dto)
    /\ map snd calls'
       = filter (fun m => findBestMatchedRenderer this m <> [])
                (sortedMimeTypes host this displayOrder o)
    /\ length (filter (fun c => isResolved c = true) (orderedMimeTypes dto))
       = length calls'.
Proof.
  intros Hret.
  destruct (transforms_return host this doc displayOrder o calls Hret)
    as (dto & H1 & H2 & _ & _ & Hcands & _).
  eexists _, dto. split; [exact H1|]. split; [exact H2|].
  split; [apply firstRendererCalls_mimeTypes|].
  rewrite Hcands. apply resolved_candidates_count.
Qed.

(** X12.  The picked candidate.  For an output with at least one mime type
    whose renderers return, index [pickedMimeTypeIndex] holds a candidate;
    it is for a mime type of the output of least rank, and it is resolved
    exactly when that mime type has a matching renderer, in which case its
    [rendererId] is the handle of the first one. *)
Theorem picked_candidate_is_first_choice
    this doc displayOrder o calls :
  data o <> [] ->
  rendersReturn this (documentRef doc) o
                (sortedMimeTypes host this displayOrder o) ->
  exists calls' dto picked,
    _transformMimeTypes host this doc displayOrder o calls = (calls', Normal dto)
    /\ transformMimeTypes host
         (mkDocument (documentRef doc) displayOrder this) o calls
       = (calls', Normal dto)
    /\ orderedMimeTypes dto !! pickedMimeTypeIndex dto = Some picked
    /\ mimeType picked ∈ Object_keys (data o)
    /\ (forall key, key ∈ Object_keys (data o) ->
          getMimeTypeOrder host (mimeType picked)
            (orEmpty (outputDisplayOrder this ≫= userOrder)) displayOrder
            (orEmpty (defaultOrder <$> outputDisplayOrder this))
          <= getMimeTypeOrder host key
               (orEmpty (outputDisplayOrder this ≫= userOrder)) displayOrder
               (orEmpty (defaultOrder <$> outputDisplayOrder this)))
    /\ (isResolved picked = true
        <-> findBestMatchedRenderer this (mimeType picked) <> [])
    /\ (forall first others,
          findBestMatchedRenderer this (mimeType picked) = first :: others ->
          rendererId picked = Some (handle first)).
Proof.
  intros Hdata Hret.
  destruct (transforms_return host this doc displayOrder o calls Hret)
    as (dto & H1 & H2 & _ & _ & Hcands & Hpicked).
  destruct (sortedMimeTypes host this displayOrder o) as [|m sorted] eqn:Hsorted.
  { by apply sortedMimeTypes_nil in Hsorted. }
  assert (Hhead : exists picked rest,
    orderedMimeTypes dto = picked :: rest
    /\ mimeType picked = m
    /\ (isResolved picked = true <-> findBestMatchedRenderer this m <> [])
    /\ (forall first others, findBestMatchedRenderer this m = first :: others ->
          rendererId picked = Some (handle first))).
  { rewrite Hcands. simpl. unfold candidatesOf at 1.
    destruct (findBestMatchedRenderer this m) as [|first others].
    - eexists _, _. split; [done|]. split; [done|]. split; [done|].
      by intros first others.
    - eexists _, _. split; [simpl; done|]. split; [done|]. split; [done|].
      by intros f' o' [= <- <-]. }
  destruct Hhead as (picked & rest & Hlist & Hm & Hres & Hid).
  eexists _, dto, picked. split; [exact H1|]. split; [exact H2|].
  rewrite Hpicked, Hlist, Hm. split; [done|].
  assert (Hin : m ∈ Object_keys (data o)).
  { apply (sortedMimeTypes_elem_of this displayOrder). rewrite Hsorted.
    apply list_elem_of_here. }
  split; [done|]. split; [|done].
  intros key Hkey.
  apply (sortedMimeTypes_elem_of this displayOrder) in Hkey.
  rewrite Hsorted in Hkey.
  apply list_elem_of_lookup in Hkey as [j Hj].
  destruct j as [|j]; [simpl in Hj; by injection Hj as ->|].
  apply (sortMimeTypes_sorted host _ _ _ (Object_keys (data o)) 0 (S j));
    [lia| |]; fold (sortedMimeTypes host this displayOrder o);
    by rewrite Hsorted.
Qed.
End ResolverExtras.

(** ** More on [eventuallyUpdateCellOutputs] *)

Lemma set_add_NoDup (x : option Z) (s : list (option Z)) :
  NoDup s -> NoDup (set_add x s).
Proof.
  intros Hs. unfold set_add. case_bool_decide as Hx; [done|].
  apply NoDup_app. split; [done|]. split; [|apply NoDup_singleton].
  intros y Hy ->%list_elem_of_singleton. done.
Qed.

Lemma elem_of_set_add (x y : option Z) (s : list (option Z)) :
  y ∈ set_add x s <-> y ∈ s \/ y = x.
Proof.
  unfold set_add. case_bool_decide as Hx.
  - split; [by left|]. by intros [?| ->].
  - by rewrite elem_of_app, list_elem_of_singleton.
Qed.

Section CallerExtras.
Context {Payload DocRef Exn : Type}.
Variable host : Host.
Variable typeError : Exn.

Local Abbreviation Document := (ExtHostNotebookDocument Payload DocRef Exn).
Local Abbreviation Calls := (list (Invocation Payload DocRef Exn)).

Implicit Types (doc : Document) (calls : Calls).

(** A property of the captured variable and of the calls made that every
    turn of the callback keeps is kept by [map]. *)
Lemma mapM_invariant {A B S : Type} (I : S -> Calls -> Prop)
    (callback : S -> A -> Eff Payload DocRef Exn (S * B)) (arr : list A) :
  (forall s x calls calls' r,
     I s calls -> callback s x calls = (calls', Normal r) -> I (fst r) calls') ->
  forall s calls calls' r,
    I s calls -> mapM callback arr s calls = (calls', Normal r) ->
    I (fst r) calls'.
Proof.
  intros Hstep. induction arr as [|x arr IH]; intros s calls calls' r HI; simpl.
  { unfold ret. by intros [= <- <-]. }
  unfold bind at 1.
  destruct (callback s x calls) as [calls1 [r1|e]] eqn:H1; [|done].
  unfold bind at 1.
  destruct (mapM callback arr (fst r1) calls1) as [calls2 [r2|e]] eqn:H2;
    [|done].
  unfold ret. intros [= <- <-]. simpl.
  eapply IH; [|exact H2]. by eapply Hstep.
Qed.

Lemma transformOutput_reported doc calls0 renderers out calls calls' r :
  reportedSince calls0 renderers calls ->
  transformOutput typeError (transformMimeTypes host doc) renderers out calls
    = (calls', Normal r) ->
  reportedSince calls0 (fst r) calls'.
Proof.
  intros (Hnd & made & -> & Hmade).
  destruct out as [s|e|rich]; simpl.
  - unfold ret. intros [= <- <-]. simpl. split; [done|]. by exists made.
  - unfold ret. intros [= <- <-]. simpl. split; [done|]. by exists made.
  - unfold bind.
    destruct (transformMimeTypes host doc rich (calls0 ++ made))
      as [calls1 [dto|e]] eqn:Ht; [|done].
    assert (Hret : rendersReturn (renderingHandler doc) (documentRef doc) rich
              (sortedMimeTypes host (renderingHandler doc) (_displayOrder doc)
                               rich)).
    { apply (transforms_return_iff host (renderingHandler doc) doc
               (_displayOrder doc) rich (calls0 ++ made)).
      exists calls1, dto. by rewrite <- transformMimeTypes_unfold. }
    rewrite transformMimeTypes_unfold in Ht.
    rewrite (_transformMimeTypes_returns host _ _ _ _ _ Hret) in Ht.
    injection Ht as <- <-. simpl.
    set (sorted := sortedMimeTypes host (renderingHandler doc)
                                   (_displayOrder doc) rich).
    assert (Hkeep : forall x, x ∈ renderers ->
      exists r0 m, (r0, m) ∈ made ++ firstRendererCalls (renderingHandler doc) sorted
                   /\ x = Some (handle r0)).
    { intros x Hx. destruct (Hmade x Hx) as (r0 & m & Hin & ->).
      exists r0, m. split; [|done]. apply elem_of_app. by left. }
    destruct (flat_map _ sorted !! 0) as [picked|] eqn:Hpicked; [|done].
    destruct (isResolved picked) eqn:Hres; unfold ret; intros [= <- <-]; simpl.
    + split; [by apply set_add_NoDup|].
      exists (made ++ firstRendererCalls (renderingHandler doc) sorted).
      split; [by rewrite app_assoc|].
      intros x [Hx| ->]%elem_of_set_add; [by apply Hkeep|].
      apply list_elem_of_lookup_2 in Hpicked.
      pose proof Hpicked as Hc.
      apply flat_map_candidates_mimeType in Hc as [Hin Hc].
      apply candidatesOf_resolved in Hc as (first & others & Hfirst & ->);
        [|done].
      exists first, (mimeType picked). split; [|done].
      apply elem_of_app. right.
      apply list_elem_of_In, in_flat_map. exists (mimeType picked).
      split; [by apply list_elem_of_In|]. rewrite Hfirst. by left.
    + split; [done|].
      exists (made ++ firstRendererCalls (renderingHandler doc) sorted).
      split; [by rewrite app_assoc|done].
Qed.

(** X13.  The renderer ids that [eventuallyUpdateCellOutputs] reports to
    the proxy are distinct, and each of them is the handle of a renderer
    whose [render] was called during this update: never [undefined], and
    never the [-1] of the core candidates unless a renderer has that
    handle. *)
Theorem reported_renderers_were_called
    doc cellHandle diffs calls calls' call :
  eventuallyUpdateCellOutputs host typeError doc cellHandle diffs calls
    = (calls', Normal call) ->
  NoDup (call_renderers call)
  /\ exists made,
       calls' = calls ++ made
       /\ forall x, x ∈ call_renderers call ->
            exists r m, (r, m) ∈ made /\ x = Some (handle r).
Proof.
  unfold eventuallyUpdateCellOutputs, bind at 1.
  match goal with |- context [mapM ?f diffs [] calls] =>
    destruct (mapM f diffs [] calls) as [calls1 [r|e]] eqn:Hmap; [|done]
  end.
  unfold ret. intros [= <- <-]. simpl.
  apply (mapM_invariant (reportedSince calls) _ diffs) in Hmap; [exact Hmap| |].
  - intros s diff c c' r0 HI. unfold bind at 1.
    destruct (mapM _ (toInsert diff) s c) as [c1 [t|e]] eqn:Hin; [|done].
    unfold ret. intros [= <- <-]. simpl.
    apply (mapM_invariant (reportedSince calls)
             (transformOutput typeError (transformMimeTypes host doc))
             (toInsert diff)) in Hin; [exact Hin| |exact HI].
    intros s1 out c2 c3 r1. apply transformOutput_reported.
  - split; [apply NoDup_nil_2|]. exists []. split; [by rewrite app_nil_r|].
    by intros x ?%elem_of_nil.
Qed.

Lemma mapM_forwarded doc (outputs : list (CellOutput Payload))
    (renderers : list (option Z)) calls :
  Forall (fun out => outputKind out <> Rich) outputs ->
  mapM (transformOutput typeError (transformMimeTypes host doc))
       outputs renderers calls
  = (calls, Normal (renderers, omap forwarded outputs)).
Proof.
  induction 1 as [|out outputs Hout _ IH]; [done|].
  simpl. unfold bind at 1.
  destruct out as [s|e|rich]; [| |done]; simpl; unfold bind at 1;
    by rewrite IH.
Qed.

(** X14.  Splices that insert only stream and error outputs are handed to
    the proxy as they are, output for output, without any call of a
    renderer, without a reported renderer and without an exception. *)
Theorem plain_outputs_are_handed_on_untouched
    doc cellHandle (diffs : list (ISplice (CellOutput Payload))) calls :
  (forall diff out, diff ∈ diffs -> out ∈ toInsert diff ->
                    outputKind out <> Rich) ->
  eventuallyUpdateCellOutputs host typeError doc cellHandle diffs calls
  = (calls,
     Normal {| call_cellHandle := cellHandle;
               call_outputDtos :=
                 map (fun diff => (start diff, deleteCount diff,
                                   omap forwarded (toInsert diff))) diffs;
               call_renderers := [] |}).
Proof.
  intros Hplain. unfold eventuallyUpdateCellOutputs, bind at 1.
  match goal with |- context [mapM ?f diffs [] calls] =>
    assert (Hmap : mapM f diffs [] calls
      = (calls, Normal ([], map (fun diff => (start diff, deleteCount diff,
                                              omap forwarded (toInsert diff)))
                                diffs)))
  end.
  { induction diffs as [|diff diffs IH]; [done|].
    simpl. unfold bind at 1. unfold bind at 1.
    rewrite mapM_forwarded.
    2:{ apply Forall_forall. intros out Hout.
        apply (Hplain diff); [apply list_elem_of_here|done]. }
    unfold ret at 1. simpl. unfold bind at 1.
    rewrite IH; [done|].
    intros d out Hd. apply Hplain. by apply list_elem_of_further. }
  by rewrite Hmap.
Qed.

(** X15.  Every splice is answered.  When each inserted rich output has at
    least one mime type and the renderers called for it return,
    [eventuallyUpdateCellOutputs] reaches the proxy, with the handle of the
    cell and one output splice per input splice, in the same order, with
    the same [start] and [deleteCount], whose outputs are the transforms
    of the rich outputs and the other outputs as received. *)
Theorem every_splice_is_answered_in_order doc cellHandle diffs calls :
  (forall diff out, diff ∈ diffs -> out ∈ toInsert diff ->
                    wellBehaved host doc out) ->
  exists calls' call,
    eventuallyUpdateCellOutputs host typeError doc cellHandle diffs calls
      = (calls', Normal call)
    /\ call_cellHandle call = cellHandle
    /\ Forall2 (spliceHandedOn host doc) diffs (call_outputDtos call).
Proof. apply eventuallyUpdateCellOutputs_returns. Qed.

(** X16.  Clearing.  When a cell's outputs are set to the empty array, the
    one splice that [diff] computes (none for a cell without outputs)
    reaches the proxy as it is: no renderer is called and nothing is
    thrown, whatever the old outputs were. *)
Theorem clearing_outputs_calls_no_renderer
    (same : CellOutput Payload -> CellOutput Payload -> bool)
    (contains : CellOutput Payload -> bool)
    (before : list (CellOutput Payload)) doc cellHandle calls :
  exists diffs,
    diff same before [] contains = Some diffs
    /\ eventuallyUpdateCellOutputs host typeError doc cellHandle diffs calls
       = (calls,
          Normal {| call_cellHandle := cellHandle;
                    call_outputDtos :=
                      match before with
                      | [] => []
                      | _ => [(0, length before, [])]
                      end;
                    call_renderers := [] |}).
Proof.
  destruct before as [|b l].
  - exists []. split; reflexivity.
  - exists [mkSplice 0 (length (b :: l)) []]. split; [|reflexivity].
    unfold diff. simpl. done.
Qed.
End CallerExtras.

(** ** Moving a cell *)

Section MoveCell.
Context {C : Type}.
Implicit Types (cells : list C).

Lemma moveCell_in_range cells index newIdx c :
  cells !! index = Some c ->
  moveCell cells index newIdx
  = take newIdx (take index cells ++ drop (S index) cells)
    ++ c :: drop newIdx (take index cells ++ drop (S index) cells).
Proof.
  intros Hc. unfold moveCell, array_splice. simpl.
  rewrite (drop_S cells c index Hc). simpl.
  by rewrite Nat.add_0_r, Nat.add_1_r.
Qed.

Lemma moveCell_out_of_range cells index newIdx :
  length cells <= index -> moveCell cells index newIdx = cells.
Proof.
  intros Hge. unfold moveCell, array_splice. simpl.
  rewrite (drop_ge cells index), (drop_ge cells (index + 1)) by lia.
  rewrite take_nil, (take_ge cells index) by lia.
  rewrite !app_nil_r, Nat.add_0_r. simpl.
  apply take_drop.
Qed.

(** X17.  [$moveCell] moves one cell and nothing else.  The cells
    afterwards are the cells before in another order; a source index
    outside the array changes nothing; for indices inside the array the
    cell of [index] ends up at [newIdx], the other cells keep their order,
    and moving it back from [newIdx] to [index] restores the array. *)
Theorem moveCell_moves_one_cell cells index newIdx :
  moveCell cells index newIdx ≡ₚ cells
  /\ (length cells <= index -> moveCell cells index newIdx = cells)
  /\ (index < length cells -> newIdx < length cells ->
        moveCell cells index newIdx !! newIdx = cells !! index
        /\ array_splice (moveCell cells index newIdx) newIdx 1 []
           = array_splice cells index 1 []
        /\ moveCell (moveCell cells index newIdx) newIdx index = cells).
Proof.
  split; [|split].
  - destruct (cells !! index) as [c|] eqn:Hc.
    + rewrite (moveCell_in_range _ _ _ _ Hc).
      rewrite <- Permutation_middle, take_drop.
      rewrite <- (take_drop index cells) at 3.
      rewrite (drop_S cells c index Hc).
      by rewrite <- Permutation_middle.
    + apply lookup_ge_None in Hc. by rewrite moveCell_out_of_range.
  - apply moveCell_out_of_range.
  - intros Hi Hj.
    destruct (lookup_lt_is_Some_2 cells index Hi) as [c Hc].
    rewrite (moveCell_in_range _ _ _ _ Hc), Hc.
    set (rest := take index cells ++ drop (S index) cells).
    assert (Hrest : length rest = length cells - 1).
    { unfold rest. rewrite length_app, length_take, length_drop. lia. }
    assert (Htake : length (take newIdx rest) = newIdx)
      by (rewrite length_take; lia).
    assert (Hdrop : drop (S newIdx) (take newIdx rest ++ c :: drop newIdx rest)
                    = drop newIdx rest).
    { change (c :: drop newIdx rest) with ([c] ++ drop newIdx rest).
      rewrite app_assoc. rewrite drop_app_length'; [done|].
      rewrite length_app. simpl. lia. }
    split; [|split].
    + rewrite lookup_app_r by lia. rewrite Htake, Nat.sub_diag. done.
    + unfold array_splice. simpl.
      rewrite take_app_length' by done.
      rewrite !Nat.add_1_r, Hdrop, take_drop. done.
    + assert (Hmoved : (take newIdx rest ++ c :: drop newIdx rest) !! newIdx
                       = Some c).
      { rewrite lookup_app_r by lia. by rewrite Htake, Nat.sub_diag. }
      rewrite (moveCell_in_range _ _ _ _ Hmoved).
      rewrite (take_app_length' (take newIdx rest)) by done.
      rewrite Hdrop, take_drop. unfold rest.
      rewrite take_app_length' by (rewrite length_take; lia).
      rewrite drop_app_length' by (rewrite length_take; lia).
      rewrite <- (take_drop index cells) at 3.
      by rewrite (drop_S cells c index Hc).
Qed.
End MoveCell.

(** ** Lines of a source *)

Lemma split_lines_cons_line (c : ascii) (s : string) :
  isLineBreak c = false ->
  exists line lines,
    split_lines s = line :: lines
    /\ split_lines (String c s) = String c line :: lines.
Proof.
  intros Hc. simpl. rewrite Hc.
  destruct s as [|c' s']; simpl; [by eexists _, _|].
  destruct (isLineBreak c'); [by eexists _, _|].
  destruct (split_lines s'); by eexists _, _.
Qed.

Lemma split_lines_nonempty (s : string) : split_lines s <> [].
Proof.
  destruct s as [|c s]; simpl; [done|].
  destruct (isLineBreak c); [done|]. by destruct (split_lines s).
Qed.

Lemma split_lines_append (line rest : string) :
  isOneLine line = true ->
  split_lines (line ++ String "010"%char rest)%string
  = line :: split_lines rest.
Proof.
  induction line as [|c line IH]; simpl; [done|].
  intros [Hc Hline]%andb_true_iff. apply negb_true_iff in Hc.
  rewrite Hc, (IH Hline). done.
Qed.

Lemma split_lines_one_line (line : string) :
  isOneLine line = true -> split_lines line = [line].
Proof.
  induction line as [|c line IH]; simpl; [done|].
  intros [Hc Hline]%andb_true_iff. apply negb_true_iff in Hc.
  by rewrite Hc, (IH Hline).
Qed.

Lemma split_lines_length (s : string) :
  length (split_lines s) = S (lineBreaks s).
Proof.
  induction s as [|c s IH]; simpl; [done|].
  destruct (isLineBreak c); simpl; [by rewrite IH|].
  destruct (split_lines s) eqn:Hs; [by apply split_lines_nonempty in Hs|].
  simpl in *. lia.
Qed.

(** X18.  Sources survive the round trip.  A cell's source lines, joined
    with a line feed as [$spliceNotebookCells] does and split again as the
    [ExtHostCell] constructor does, come back unchanged when there is at
    least one line and no line holds a carriage return or line feed; an
    empty array of lines comes back as one empty line.  In general the
    split gives one line more than there are carriage returns and line
    feeds, so a CR LF pair leaves an empty line between its neighbours. *)
Theorem source_lines_survive_join_and_split (source0 : list string) :
  (Forall (fun line => isOneLine line = true) source0 ->
   split_lines (join_lines source0)
   = match source0 with [] => [EmptyString] | _ => source0 end)
  /\ (forall content, length (split_lines content) = S (lineBreaks content))
  /\ (forall first second,
        isOneLine first = true -> isOneLine second = true ->
        split_lines (first ++ String "013"%char (String "010"%char second))%string
        = [first; EmptyString; second]).
Proof.
  split; [|split].
  - induction 1 as [|line rest Hline Hrest IH]; [done|].
    destruct rest as [|line' rest'].
    + simpl. by apply split_lines_one_line.
    + change (join_lines (line :: line' :: rest'))
        with (line ++ String "010"%char (join_lines (line' :: rest')))%string.
      by rewrite split_lines_append, IH.
  - apply split_lines_length.
  - intros first second Hfirst Hsecond.
    induction first as [|c first IH]; simpl.
    + by rewrite split_lines_one_line.
    + simpl in Hfirst. apply andb_true_iff in Hfirst as [Hc Hfirst].
      apply negb_true_iff in Hc. rewrite Hc.
      simpl in IH. by rewrite (IH Hfirst).
Qed.

(** ** Compressing edits *)

Section CompressEdits.
Context {C : Type}.
Implicit Types (e prev : ICellEditOperation C).
Implicit Types (pre acc rest : list (ICellEditOperation C)).

Lemma insertedCells_app acc rest :
  insertedCells (acc ++ rest) = insertedCells acc ++ insertedCells rest.
Proof. unfold insertedCells. apply flat_map_app. Qed.

Lemma deletedCells_app acc rest :
  deletedCells (acc ++ rest) = deletedCells acc + deletedCells rest.
Proof. unfold deletedCells. apply sum_list_with_app. Qed.

Lemma neighboursDiffer_snoc pre prev e :
  neighboursDiffer (pre ++ [prev]) -> ~ sameKindAndIndex prev e ->
  neighboursDiffer ((pre ++ [prev]) ++ [e]).
Proof.
  intros Hnd Hne k e1 e2 H1 H2.
  destruct (decide (S k < length (pre ++ [prev]))) as [Hlt|Hge].
  - rewrite lookup_app_l in H1 by lia. rewrite lookup_app_l in H2 by lia.
    by eapply Hnd.
  - assert (Hk : S k = length (pre ++ [prev])).
    { apply lookup_lt_Some in H2. rewrite length_app in H2. simpl in H2. lia. }
    rewrite lookup_app_r in H2 by lia.
    replace (S k - length (pre ++ [prev])) with 0 in H2 by lia.
    injection H2 as <-.
    rewrite lookup_app_l in H1 by lia.
    rewrite length_app in Hk. simpl in Hk.
    rewrite lookup_app_r in H1 by lia.
    replace (k - length pre) with 0 in H1 by lia.
    by injection H1 as <-.
Qed.

Lemma neighboursDiffer_replace_last pre prev prev' :
  neighboursDiffer (pre ++ [prev]) ->
  (forall e, sameKindAndIndex e prev' -> sameKindAndIndex e prev) ->
  neighboursDiffer (pre ++ [prev']).
Proof.
  intros Hnd Hsame k e1 e2 H1 H2.
  assert (Hk : S k < length (pre ++ [prev'])) by by eapply lookup_lt_Some.
  rewrite length_app in Hk. simpl in Hk.
  destruct (decide (S k < length pre)) as [Hlt|Hge].
  - rewrite lookup_app_l in H1 by lia. rewrite lookup_app_l in H2 by lia.
    apply (Hnd k e1 e2); by rewrite lookup_app_l by lia.
  - rewrite lookup_app_r in H2 by lia.
    replace (S k - length pre) with 0 in H2 by lia. injection H2 as <-.
    rewrite lookup_app_l in H1 by lia.
    intros Hs. apply (Hnd k e1 prev).
    + by rewrite lookup_app_l by lia.
    + rewrite lookup_app_r by lia.
      by replace (S k - length pre) with 0 by lia.
    + by apply Hsame.
Qed.

Lemma last_entry pre prev :
  (pre ++ [prev]) !! Z.to_nat (Z.of_nat (length pre)) = Some prev.
Proof.
  rewrite Nat2Z.id, lookup_app_r by lia. by rewrite Nat.sub_diag.
Qed.

Lemma replace_last_entry pre prev prev' :
  <[Z.to_nat (Z.of_nat (length pre)) := prev']> (pre ++ [prev]) = pre ++ [prev'].
Proof.
  rewrite Nat2Z.id, insert_app_r_alt by lia. by rewrite Nat.sub_diag.
Qed.

(** The loop with at least one entry collected: [compressedEditsIndex] is
    the index of the last entry, the entries before it stay, and the
    totals and the differing neighbours are kept. *)
Lemma compressEdits_values_spec rest pre prev :
  exists r,
    compressEdits_values rest (pre ++ [prev]) (Z.of_nat (length pre)) = Some r
    /\ r <> []
    /\ length r <= length (pre ++ [prev]) + length rest
    /\ insertedCells r = insertedCells (pre ++ [prev]) ++ insertedCells rest
    /\ deletedCells r = deletedCells (pre ++ [prev]) + deletedCells rest
    /\ (neighboursDiffer (pre ++ [prev]) -> neighboursDiffer r)
    /\ (neighboursDiffer ((pre ++ [prev]) ++ rest) -> r = (pre ++ [prev]) ++ rest).
Proof.
  revert pre prev. induction rest as [|e rest IH]; intros pre prev.
  { exists (pre ++ [prev]). simpl. rewrite !app_nil_r, Nat.add_0_r.
    split; [done|]. split; [by destruct pre|].
    change (deletedCells (@nil (ICellEditOperation C))) with 0.
    rewrite Nat.add_0_r. done. }
  simpl. rewrite (proj2 (Z.ltb_ge _ _)) by lia. rewrite last_entry.
  assert (Hpush : exists r,
    compressEdits_values rest ((pre ++ [prev]) ++ [e])
                       (Z.of_nat (length pre) + 1)%Z = Some r
    /\ r <> []
    /\ length r <= length (pre ++ [prev]) + S (length rest)
    /\ insertedCells r
       = insertedCells (pre ++ [prev]) ++ insertedCells (e :: rest)
    /\ deletedCells r = deletedCells (pre ++ [prev]) + deletedCells (e :: rest)
    /\ (~ sameKindAndIndex prev e ->
        neighboursDiffer (pre ++ [prev]) -> neighboursDiffer r)
    /\ (neighboursDiffer ((pre ++ [prev]) ++ e :: rest) ->
        r = (pre ++ [prev]) ++ e :: rest)).
  { destruct (IH (pre ++ [prev]) e) as (r & Hr & Hne & Hlen & Hins & Hdel & Hnd & Hid).
    exists r.
    replace (Z.of_nat (length pre) + 1)%Z
      with (Z.of_nat (length (pre ++ [prev])))
      by (rewrite length_app; simpl; lia).
    split; [done|]. split; [done|]. split.
    { rewrite length_app in Hlen. simpl in Hlen. lia. }
    split.
    { rewrite Hins, (insertedCells_app (pre ++ [prev]) [e]).
      change (e :: rest) with ([e] ++ rest).
      by rewrite (insertedCells_app [e] rest), app_assoc. }
    split.
    { rewrite Hdel, (deletedCells_app (pre ++ [prev]) [e]).
      change (e :: rest) with ([e] ++ rest).
      rewrite (deletedCells_app [e] rest). lia. }
    split.
    { intros Hne' Hnd'. apply Hnd. by apply neighboursDiffer_snoc. }
    intros Hall.
    assert (Heq : ((pre ++ [prev]) ++ [e]) ++ rest
                  = (pre ++ [prev]) ++ e :: rest)
      by (by rewrite <- (app_assoc _ [e] rest)).
    rewrite Heq in Hid. by apply Hid. }
  assert (Hnotmerged : neighboursDiffer ((pre ++ [prev]) ++ e :: rest) ->
                       ~ sameKindAndIndex prev e).
  { intros Hall. apply (Hall (length pre)).
    - rewrite lookup_app_l by (rewrite length_app; simpl; lia).
      rewrite lookup_app_r by lia. by rewrite Nat.sub_diag.
    - rewrite lookup_app_r by (rewrite length_app; simpl; lia).
      rewrite length_app. simpl.
      by replace (S (length pre) - (length pre + 1)) with 0 by lia. }
  destruct prev as [pi pcells|pi pcount], e as [ei ecells|ei ecount].
  - destruct (pi =? ei) eqn:Hidx.
    + apply Nat.eqb_eq in Hidx. subst ei. rewrite replace_last_entry.
      destruct (IH pre (CellInsert pi (pcells ++ ecells)))
        as (r & Hr & Hne & Hlen & Hins & Hdel & Hnd & _).
      exists r. split; [done|]. split; [done|]. split.
      { rewrite !length_app in *. simpl in *. lia. }
      split.
      { rewrite Hins, !insertedCells_app. unfold insertedCells. simpl.
        by rewrite !app_nil_r, <- !app_assoc. }
      split.
      { rewrite Hdel, !deletedCells_app. unfold deletedCells. simpl. lia. }
      split.
      { intros Hnd'. apply Hnd.
        apply (neighboursDiffer_replace_last pre (CellInsert pi pcells));
          [done|]. by intros [] Hs. }
      intros Hall. by destruct (Hnotmerged Hall).
    + apply Nat.eqb_neq in Hidx.
      destruct Hpush as (r & Hr & Hne & Hlen & Hins & Hdel & Hnd & Hid).
      exists r. repeat (split; [done|]). split; [|done]. by apply Hnd.
  - destruct Hpush as (r & Hr & Hne & Hlen & Hins & Hdel & Hnd & Hid).
    exists r. repeat (split; [done|]). split; [|done]. apply Hnd. by intros [].
  - destruct Hpush as (r & Hr & Hne & Hlen & Hins & Hdel & Hnd & Hid).
    exists r. repeat (split; [done|]). split; [|done]. apply Hnd. by intros [].
  - destruct (pi =? ei) eqn:Hidx.
    + apply Nat.eqb_eq in Hidx. subst ei. rewrite replace_last_entry.
      destruct (IH pre (CellDelete pi (pcount + ecount)))
        as (r & Hr & Hne & Hlen & Hins & Hdel & Hnd & _).
      exists r. split; [done|]. split; [done|]. split.
      { rewrite !length_app in *. simpl in *. lia. }
      split.
      { rewrite Hins, !insertedCells_app. unfold insertedCells. simpl. done. }
      split.
      { rewrite Hdel, !deletedCells_app. unfold deletedCells. simpl. lia. }
      split.
      { intros Hnd'. apply Hnd.
        apply (neighboursDiffer_replace_last pre (CellDelete pi pcount));
          [done|]. by intros [] Hs. }
      intros Hall. by destruct (Hnotmerged Hall).
    + apply Nat.eqb_neq in Hidx.
      destruct Hpush as (r & Hr & Hne & Hlen & Hins & Hdel & Hnd & Hid).
      exists r. repeat (split; [done|]). split; [|done]. by apply Hnd.
Qed.

Lemma compressEdits_spec (edits0 : list (ICellEditOperation C)) :
  edits0 <> [] ->
  exists r,
    compressEdits_values edits0 [] (-1)%Z = Some r
    /\ r <> []
    /\ length r <= length edits0
    /\ insertedCells r = insertedCells edits0
    /\ deletedCells r = deletedCells edits0
    /\ neighboursDiffer r
    /\ (neighboursDiffer edits0 -> r = edits0).
Proof.
  destruct edits0 as [|e rest]; [done|]. intros _.
  destruct (compressEdits_values_spec rest [] e)
    as (r & Hr & Hne & Hlen & Hins & Hdel & Hnd & Hid).
  exists r. split; [exact Hr|]. split; [done|].
  split; [simpl in Hlen |- *; lia|].
  split.
  { rewrite Hins. unfold insertedCells. simpl. by rewrite app_nil_r. }
  split.
  { rewrite Hdel. unfold deletedCells. simpl. lia. }
  split; [|exact Hid].
  apply Hnd. intros k e1 e2 H1 H2. by destruct k.
Qed.
(** *** The edit objects behind [compressedEdits] *)

Lemma resolve_cons (store : list (ICellEditOperation C)) r refs :
  resolve store (r :: refs)
  = match store !! r with
    | Some y => y :: resolve store refs
    | None => resolve store refs
    end.
Proof. reflexivity. Qed.

Lemma resolve_ext (store store' : list (ICellEditOperation C)) refs :
  (forall ref, ref ∈ refs -> store !! ref = store' !! ref) ->
  resolve store refs = resolve store' refs.
Proof.
  induction refs as [|r refs IH]; intros Hext; [done|].
  rewrite !resolve_cons, (Hext r) by apply list_elem_of_here.
  rewrite IH; [done|]. intros ref Href. apply Hext. by right.
Qed.

Lemma resolve_lookup (store : list (ICellEditOperation C)) refs k :
  (forall ref, ref ∈ refs -> ref < length store) ->
  resolve store refs !! k = refs !! k ≫= (fun ref => store !! ref).
Proof.
  revert k. induction refs as [|r refs IH]; intros k Hrange; [done|].
  destruct (lookup_lt_is_Some_2 store r) as [x Hx];
    [apply Hrange, list_elem_of_here|].
  rewrite resolve_cons, Hx. destruct k as [|k]; simpl; [done|].
  apply IH. intros ref Href. apply Hrange. by right.
Qed.

Lemma resolve_snoc (store : list (ICellEditOperation C)) refs edit :
  (forall ref, ref ∈ refs -> ref < length store) ->
  resolve (store ++ [edit]) (refs ++ [length store]) = resolve store refs ++ [edit].
Proof.
  intros Hrange. unfold resolve at 1. rewrite omap_app.
  change (omap (fun ref => (store ++ [edit]) !! ref) refs)
    with (resolve (store ++ [edit]) refs).
  change (omap (fun ref => (store ++ [edit]) !! ref) [length store])
    with (resolve (store ++ [edit]) [length store]).
  rewrite (resolve_cons _ (length store) []).
  rewrite lookup_app_r, Nat.sub_diag by lia. simpl. f_equal.
  apply resolve_ext. intros ref Href.
  by rewrite lookup_app_l by by apply Hrange.
Qed.

Lemma resolve_insert (store : list (ICellEditOperation C)) refs k ref e edit :
  NoDup refs ->
  (forall r, r ∈ refs -> r < length store) ->
  refs !! k = Some ref ->
  resolve (<[ref := e]> store ++ [edit]) refs = <[k := e]> (resolve store refs).
Proof.
  revert k. induction refs as [|r refs IH]; intros k Hnd Hrange Hk; [done|].
  apply NoDup_cons in Hnd as [Hr Hnd].
  destruct (lookup_lt_is_Some_2 store r) as [x Hx];
    [apply Hrange, list_elem_of_here|].
  assert (Hrange' : forall r', r' ∈ refs -> r' < length store)
    by (intros r' Hr'; apply Hrange; by right).
  rewrite !resolve_cons, Hx.
  rewrite lookup_app_l
    by (rewrite length_insert; apply Hrange, list_elem_of_here).
  destruct k as [|k]; simpl in Hk.
  - injection Hk as ->. simpl.
    rewrite list_lookup_insert_eq by (apply Hrange, list_elem_of_here).
    f_equal. apply resolve_ext. intros r' Hr'.
    rewrite lookup_app_l by (rewrite length_insert; by apply Hrange').
    apply list_lookup_insert_ne. by intros ->.
  - assert (r <> ref) by (intros ->; apply Hr; by eapply list_elem_of_lookup_2).
    rewrite list_lookup_insert_ne by done. rewrite Hx. simpl. f_equal.
    by apply IH.
Qed.

(** What the entries of [compressedEdits] read as is what the loop on
    values computes. *)
Lemma compressEdits_loop_values rest seen refs idx :
  NoDup refs ->
  (forall ref, ref ∈ refs -> ref < length seen) ->
  match compressEdits_loop rest seen refs idx with
  | Some (store, refs') =>
      compressEdits_values rest (resolve seen refs) idx
      = Some (resolve store refs')
  | None => compressEdits_values rest (resolve seen refs) idx = None
  end.
Proof.
  revert seen refs idx.
  induction rest as [|edit rest IH]; intros seen refs idx Hnd Hrange; [done|].
  assert (Hpush :
    match compressEdits_loop rest (seen ++ [edit]) (refs ++ [length seen])
                             (idx + 1)%Z with
    | Some (store, refs') =>
        compressEdits_values rest (resolve seen refs ++ [edit]) (idx + 1)%Z
        = Some (resolve store refs')
    | None =>
        compressEdits_values rest (resolve seen refs ++ [edit]) (idx + 1)%Z
        = None
    end).
  { rewrite <- resolve_snoc by done. apply IH.
    - apply NoDup_app. split; [done|]. split; [|apply NoDup_singleton].
      intros ref Href ->%list_elem_of_singleton.
      apply Hrange in Href. lia.
    - intros ref. rewrite elem_of_app, list_elem_of_singleton, length_app.
      simpl. intros [Href| ->]; [apply Hrange in Href|]; lia. }
  simpl. destruct (idx <? 0)%Z; [exact Hpush|].
  rewrite resolve_lookup by done.
  destruct (refs !! Z.to_nat idx) as [ref|] eqn:Hk; simpl; [|done].
  destruct (lookup_lt_is_Some_2 seen ref) as [prev Hprev];
    [apply Hrange; by eapply list_elem_of_lookup_2|].
  rewrite Hprev.
  assert (Hrange' : forall e r, r ∈ refs -> r < length (<[ref := e]> seen ++ [edit])).
  { intros e r Hr. rewrite length_app, length_insert.
    apply Hrange in Hr. lia. }
  destruct prev as [pi pcells|pi pcount], edit as [ei ecells|ei ecount];
    try exact Hpush.
  - destruct (pi =? ei); [|exact Hpush].
    rewrite <- (resolve_insert seen refs (Z.to_nat idx) ref
                  (CellInsert pi (pcells ++ ecells)) (CellInsert ei ecells))
      by done.
    apply IH; [done|apply Hrange'].
  - destruct (pi =? ei); [|exact Hpush].
    rewrite <- (resolve_insert seen refs (Z.to_nat idx) ref
                  (CellDelete pi (pcount + ecount)) (CellDelete ei ecount))
      by done.
    apply IH; [done|apply Hrange'].
Qed.

Local Abbreviation editKey e :=
  (match e with
   | CellInsert index _ => inl index
   | CellDelete index _ => inr index
   end : nat + nat).

Lemma sameKindAndIndex_editKey (e1 e2 : ICellEditOperation C) :
  sameKindAndIndex e1 e2 <-> editKey e1 = editKey e2.
Proof.
  destruct e1, e2; simpl; split; try done; try congruence.
Qed.

(** The loop leaves every edit object an edit of its kind at its index. *)
Lemma compressEdits_loop_store rest seen refs idx store refs' :
  compressEdits_loop rest seen refs idx = Some (store, refs') ->
  Forall2 sameKindAndIndex (seen ++ rest) store.
Proof.
  intros Hloop.
  enough (Hkeys : map (fun e => editKey e) store
                  = map (fun e => editKey e) (seen ++ rest)).
  { apply (Forall2_impl (fun e1 e2 => editKey e1 = editKey e2));
      [|intros e1 e2; apply sameKindAndIndex_editKey].
    apply (Forall2_fmap_1 (fun e : ICellEditOperation C => editKey e)
                          (fun e : ICellEditOperation C => editKey e) eq).
    apply list_eq_Forall2. symmetry. exact Hkeys. }
  revert seen refs idx Hloop.
  induction rest as [|edit rest IH]; intros seen refs idx Hloop; simpl in Hloop.
  { injection Hloop as -> _. by rewrite app_nil_r. }
  assert (Hpush : forall refs0 idx0,
    compressEdits_loop rest (seen ++ [edit]) refs0 idx0 = Some (store, refs') ->
    map (fun e => editKey e) store
    = map (fun e => editKey e) (seen ++ edit :: rest)).
  { intros refs0 idx0 H0. rewrite (IH _ _ _ H0). by rewrite <- app_assoc. }
  assert (Hmerge : forall ref prev merged,
    seen !! ref = Some prev -> editKey merged = editKey prev ->
    compressEdits_loop rest (<[ref := merged]> seen ++ [edit]) refs idx
    = Some (store, refs') ->
    map (fun e => editKey e) store
    = map (fun e => editKey e) (seen ++ edit :: rest)).
  { intros ref prev merged Hprev Hkey H0. rewrite (IH _ _ _ H0).
    rewrite <- app_assoc, !map_app. f_equal.
    change (map (fun e => editKey e) (<[ref := merged]> seen))
      with ((fun e => editKey e) <$> <[ref := merged]> seen).
    rewrite list_fmap_insert. apply list_insert_id.
    rewrite list_lookup_fmap, Hprev. simpl. by rewrite Hkey. }
  destruct (idx <? 0)%Z; [by eapply Hpush|].
  destruct (refs !! Z.to_nat idx) as [ref|]; [|done].
  destruct (seen !! ref) as [prev|] eqn:Hprev; [|done].
  destruct prev as [pi pcells|pi pcount], edit as [ei ecells|ei ecount];
    try (by eapply Hpush).
  - destruct (pi =? ei); [|by eapply Hpush].
    by apply (Hmerge ref (CellInsert pi pcells)
                     (CellInsert pi (pcells ++ ecells))).
  - destruct (pi =? ei); [|by eapply Hpush].
    by apply (Hmerge ref (CellDelete pi pcount)
                     (CellDelete pi (pcount + ecount))).
Qed.

(** Without two neighbours to fold, no edit object is changed. *)
Lemma compressEdits_loop_unchanged rest seen refs ref prev :
  seen !! ref = Some prev ->
  neighboursDiffer (prev :: rest) ->
  exists refs',
    compressEdits_loop rest seen (refs ++ [ref]) (Z.of_nat (length refs))
    = Some (seen ++ rest, refs').
Proof.
  revert seen refs ref prev.
  induction rest as [|edit rest IH]; intros seen refs ref prev Hprev Hnd.
  { exists (refs ++ [ref]). simpl. by rewrite app_nil_r. }
  assert (Hdiff : ~ sameKindAndIndex prev edit) by by apply (Hnd 0).
  assert (Hnd' : neighboursDiffer (edit :: rest)).
  { intros k e1 e2 H1 H2. by apply (Hnd (S k)). }
  simpl. rewrite (proj2 (Z.ltb_ge _ _)) by lia.
  rewrite Nat2Z.id, lookup_app_r, Nat.sub_diag by lia. simpl. rewrite Hprev.
  destruct (IH (seen ++ [edit]) (refs ++ [ref]) (length seen) edit)
    as [refs' Hrefs']; [|done|].
  { rewrite lookup_app_r by lia. by rewrite Nat.sub_diag. }
  rewrite <- (app_assoc seen [edit] rest) in Hrefs'.
  change ([edit] ++ rest) with (edit :: rest) in Hrefs'.
  replace (Z.of_nat (length (refs ++ [ref])))
    with (Z.of_nat (length refs) + 1)%Z in Hrefs'
    by (rewrite length_app; simpl; lia).
  exists refs'.
  destruct prev as [pi pcells|pi pcount], edit as [ei ecells|ei ecount];
    try exact Hrefs'.
  - destruct (pi =? ei) eqn:Hidx; [|exact Hrefs'].
    apply Nat.eqb_eq in Hidx. by destruct Hdiff.
  - destruct (pi =? ei) eqn:Hidx; [|exact Hrefs'].
    apply Nat.eqb_eq in Hidx. by destruct Hdiff.
Qed.

(** Two inserts at the same index: the first edit object ends up holding
    both cells, in [compressedEdits] and in the collected edits alike. *)
Example compressEdits_loop_changes_the_collected_edits (a b : C) :
  compressEdits_loop [CellInsert 0 [a]; CellInsert 0 [b]; CellDelete 3 1]
                     [] [] (-1)%Z
  = Some ([CellInsert 0 [a; b]; CellInsert 0 [b]; CellDelete 3 1], [0; 2]).
Proof. reflexivity. Qed.
End CompressEdits.

Section ApplyEdit.
Context {Payload DocRef Exn : Type}.
Variable host : Host.
Variables typeError editFinalized : Exn.

Local Abbreviation Builder := (NotebookEditorCellEditBuilder Payload DocRef Exn).
Local Abbreviation Calls := (list (Invocation Payload DocRef Exn)).

(** X19.  [_applyEdit] closes the builder and sends the edits compressed.
    It finalizes the builder, so that a later [insert] or [delete] throws
    before anything is called.  Without collected edits it resolves to
    [true] and sends nothing.  Otherwise it sends, with the version id and
    the renderers of the builder, a non-empty list of edits that is no
    longer than the collected one, inserts the same cells in the same
    order, deletes as many cells, and has no two neighbours that are two
    inserts or two deletes at the same index; collected edits that have no
    such neighbours are sent as they are.  The edits sent are the edit
    objects of the builder: afterwards every collected edit is still an
    edit of its kind at its index, and the collected edits are unchanged
    when no two neighbours were folded into one. *)
Theorem _applyEdit_closes_the_builder_and_sends_compressed_edits
    (editBuilder : Builder) :
  exists editBuilder' result,
    _applyEdit editBuilder = Some (editBuilder', result)
    /\ _finalized editBuilder' = true
    /\ Forall2 sameKindAndIndex (_collectedEdits editBuilder)
               (_collectedEdits editBuilder')
    /\ (neighboursDiffer (_collectedEdits editBuilder) ->
        _collectedEdits editBuilder' = _collectedEdits editBuilder)
    /\ (forall index content language0 type outputs0 metadata0 (calls : Calls),
          insert host typeError editFinalized editBuilder' index content
                 language0 type outputs0 metadata0 calls
          = (calls, Throw editFinalized))
    /\ (forall index (calls : Calls),
          delete editFinalized editBuilder' index calls
          = (calls, Throw editFinalized))
    /\ (_collectedEdits editBuilder = [] -> result = ResolvedTrue)
    /\ (_collectedEdits editBuilder <> [] ->
        exists compressedEdits,
          result = TryApplyEdits (_documentVersionId editBuilder)
                                 compressedEdits (_renderers editBuilder)
          /\ compressedEdits <> []
          /\ length compressedEdits <= length (_collectedEdits editBuilder)
          /\ insertedCells compressedEdits
             = insertedCells (_collectedEdits editBuilder)
          /\ deletedCells compressedEdits
             = deletedCells (_collectedEdits editBuilder)
          /\ neighboursDiffer compressedEdits
          /\ (neighboursDiffer (_collectedEdits editBuilder) ->
              compressedEdits = _collectedEdits editBuilder)).
Proof.
  unfold _applyEdit. simpl.
  destruct (_collectedEdits editBuilder) as [|e rest] eqn:Hedits.
  { simpl. eexists _, _. split; [done|]. simpl.
    split; [done|]. split; [constructor|]. repeat (split; [done|]). done. }
  destruct (compressEdits_spec (e :: rest) ltac:(done))
    as (r & Hr & Hne & Hlen & Hins & Hdel & Hnd & Hid).
  change (length (e :: rest) =? 0) with false. cbv iota.
  pose proof (compressEdits_loop_values (e :: rest) [] [] (-1)%Z
                (NoDup_nil_2 (A:=nat))
                ltac:(by intros ref ?%elem_of_nil)) as Hval.
  change (compressEdits_values (e :: rest) (resolve [] []) (-1)%Z)
    with (compressEdits_values (e :: rest) [] (-1)%Z) in Hval.
  rewrite Hr in Hval.
  destruct (compressEdits_loop (e :: rest) [] [] (-1)%Z)
    as [[store refs']|] eqn:Hloop; [|done].
  assert (Hsent : resolve store refs' = r) by by injection Hval as <-.
  eexists _, _. split; [done|]. simpl. split; [done|].
  split; [exact (compressEdits_loop_store _ _ _ _ _ _ Hloop)|].
  split.
  { intros Hall.
    destruct (compressEdits_loop_unchanged rest [e] [] 0 e eq_refl Hall)
      as [refs'' Hsame].
    change (compressEdits_loop (e :: rest) [] [] (-1)%Z = Some ([e] ++ rest, refs''))
      in Hsame.
    rewrite Hloop in Hsame. by injection Hsame as -> _. }
  repeat (split; [done|]). intros _. exists r. by rewrite Hsent.
Qed.
End ApplyEdit.

(** ** Registering renderers *)

Section Registry.
Context {Payload DocRef Exn : Type}.

Local Abbreviation Registry := (RendererRegistry Payload DocRef Exn).
Local Abbreviation Renderer := (ExtHostNotebookOutputRenderer Payload DocRef Exn).

Lemma Map_set_fresh {V : Type} (entries : list (Z * V)) (key : Z) (value : V) :
  (forall entry, entry ∈ entries -> fst entry <> key) ->
  Map_set entries key value = entries ++ [(key, value)].
Proof.
  induction entries as [|entry entries IH]; intros Hfresh; simpl; [done|].
  rewrite (proj2 (Z.eqb_neq _ _)) by (apply Hfresh, list_elem_of_here).
  rewrite IH; [done|]. intros e He. apply Hfresh. by right.
Qed.

Lemma Map_delete_fresh {V : Type} (entries : list (Z * V)) (key : Z) (value : V) :
  (forall entry, entry ∈ entries -> fst entry <> key) ->
  Map_delete (entries ++ [(key, value)]) key = entries.
Proof.
  intros Hfresh. unfold Map_delete.
  rewrite filter_app, filter_cons, decide_False by (simpl; tauto).
  rewrite filter_nil, app_nil_r.
  induction entries as [|entry entries IH]; [done|].
  rewrite filter_cons, decide_True by (apply Hfresh, list_elem_of_here).
  rewrite IH; [done|]. intros e He. apply Hfresh. by right.
Qed.

(** X20.  A new renderer comes last and can be taken out again.  As long
    as the handles in the map are below the counter (which registering
    keeps true), [registerNotebookOutputRenderer] gives the renderer the
    value of the counter as its handle and leaves every registered
    renderer in place: for every mime type [findBestMatchedRenderer]
    returns what it returned before, followed by the new renderer if it
    matches, so an earlier registration keeps its priority.  Disposing
    the registration restores the map, and the proxy has seen the
    registration and the removal of that one handle. *)
Theorem registered_renderer_comes_last_and_can_be_removed
    (st : Registry) (type : string) (filter0 : NotebookOutputSelector)
    (renderer0 : DocRef -> CellDisplayOutput Payload -> string
                 -> Completion Exn string) :
  (forall entry,
     entry ∈ _notebookOutputRenderers (registry_controller st) ->
     (fst entry < _handlePool st)%Z) ->
  exists st' r,
    registerNotebookOutputRenderer st type filter0 renderer0 = (st', r)
    /\ handle r = _handlePool st
    /\ (forall entry,
          entry ∈ _notebookOutputRenderers (registry_controller st') ->
          (fst entry < _handlePool st')%Z)
    /\ (forall m,
          findBestMatchedRenderer (registry_controller st') m
          = findBestMatchedRenderer (registry_controller st) m
            ++ (if matches r m then [r] else []))
    /\ registry_controller (disposeNotebookOutputRenderer st' r)
       = registry_controller st
    /\ registry_proxyCalls (disposeNotebookOutputRenderer st' r)
       = registry_proxyCalls st
         ++ [RegisterNotebookRenderer type filter0 (_handlePool st);
             UnregisterNotebookRenderer (_handlePool st)].
Proof.
  intros Hbelow. unfold registerNotebookOutputRenderer. eexists _, _.
  split; [done|]. simpl.
  assert (Hfresh : forall entry,
    entry ∈ _notebookOutputRenderers (registry_controller st) ->
    fst entry <> _handlePool st).
  { intros entry He. specialize (Hbelow entry He). lia. }
  rewrite (Map_set_fresh _ _ _ Hfresh).
  split; [done|]. split; [|split; [|split]].
  - intros entry [He| ->%list_elem_of_singleton]%elem_of_app.
    + specialize (Hbelow entry He). lia.
    + simpl. lia.
  - intros m. unfold findBestMatchedRenderer. simpl.
    rewrite !findBestMatchedRenderer_loop_filter. simpl.
    rewrite map_app, filter_app. f_equal. simpl.
    rewrite filter_cons.
    match goal with |- context [matches ?r m] =>
      destruct (matches r m) eqn:Hm
    end.
    + by rewrite decide_True by done.
    + by rewrite decide_False by done.
  - rewrite (Map_delete_fresh _ _ _ Hfresh).
    by destruct (registry_controller st).
  - by rewrite <- app_assoc.
Qed.
End Registry.

(** ** The further properties on the sample data *)

Lemma mixedOutput_has_keys : data mixedOutput <> [].
Proof. discriminate. Defined.

Lemma candidates_cover_the_mime_types_of_the_output_witness :
  rendersReturn htmlController "file:///notebook"%string mixedOutput
    (sortedMimeTypes literalHost htmlController [] mixedOutput)
  /\ exists calls' dto,
       _transformMimeTypes literalHost htmlController
         (sampleDocument htmlController) [] mixedOutput [] = (calls', Normal dto)
       /\ transformMimeTypes literalHost
            (mkDocument "file:///notebook"%string [] htmlController)
            mixedOutput [] = (calls', Normal dto)
       /\ (forall c, c ∈ orderedMimeTypes dto ->
             mimeType c ∈ Object_keys (data mixedOutput))
       /\ (forall key, key ∈ Object_keys (data mixedOutput) ->
             exists c, c ∈ orderedMimeTypes dto /\ mimeType c = key)
       /\ (orderedMimeTypes dto = [] <-> data mixedOutput = []).
Proof.
  split; [exact htmlController_rendersReturn|].
  apply (candidates_cover_the_mime_types_of_the_output literalHost
           htmlController (sampleDocument htmlController) [] mixedOutput []).
  exact htmlController_rendersReturn.
Defined.

Lemma every_mime_type_with_a_renderer_is_rendered_witness :
  rendersReturn htmlController "file:///notebook"%string mixedOutput
    (sortedMimeTypes literalHost htmlController [] mixedOutput)
  /\ exists calls' dto,
       _transformMimeTypes literalHost htmlController
         (sampleDocument htmlController) [] mixedOutput []
       = ([] ++ calls', Normal dto)
       /\ transformMimeTypes literalHost
            (mkDocument "file:///notebook"%string [] htmlController)
            mixedOutput []
          = ([] ++ calls', Normal dto)
       /\ map snd calls'
          = filter (fun m => findBestMatchedRenderer htmlController m <> [])
                   (sortedMimeTypes literalHost htmlController [] mixedOutput)
       /\ length (filter (fun c => isResolved c = true) (orderedMimeTypes dto))
          = length calls'.
Proof.
  split; [exact htmlController_rendersReturn|].
  apply (every_mime_type_with_a_renderer_is_rendered literalHost
           htmlController (sampleDocument htmlController) [] mixedOutput []).
  exact htmlController_rendersReturn.
Defined.

Lemma picked_candidate_is_first_choice_witness :
  data mixedOutput <> []
  /\ rendersReturn htmlController "file:///notebook"%string mixedOutput
       (sortedMimeTypes literalHost htmlController [] mixedOutput)
  /\ exists calls' dto picked,
       transformMimeTypes literalHost
         (mkDocument "file:///notebook"%string [] htmlController)
         mixedOutput [] = (calls', Normal dto)
       /\ orderedMimeTypes dto !! pickedMimeTypeIndex dto = Some picked
       /\ mimeType picked ∈ Object_keys (data mixedOutput)
       /\ (isResolved picked = true
           <-> findBestMatchedRenderer htmlController (mimeType picked) <> []).
Proof.
  split; [exact mixedOutput_has_keys|].
  split; [exact htmlController_rendersReturn|].
  destruct (picked_candidate_is_first_choice literalHost htmlController
              (sampleDocument htmlController) [] mixedOutput []
              mixedOutput_has_keys htmlController_rendersReturn)
    as (calls' & dto & picked & _ & H2 & H3 & H4 & _ & H6 & _).
  by exists calls', dto, picked.
Defined.

Lemma reported_renderers_were_called_witness :
  exists calls' call,
    eventuallyUpdateCellOutputs literalHost "TypeError"%string
      (sampleDocument htmlController) 7%Z richDiffs [] = (calls', Normal call)
    /\ NoDup (call_renderers call)
    /\ exists made,
         calls' = [] ++ made
         /\ forall x, x ∈ call_renderers call ->
              exists r m, (r, m) ∈ made /\ x = Some (handle r).
Proof.
  eexists _, _. split; [reflexivity|].
  apply (reported_renderers_were_called literalHost "TypeError"%string
           (sampleDocument htmlController) 7%Z richDiffs []).
  reflexivity.
Defined.

Lemma plainDiffs_are_plain :
  forall diff0 out, diff0 ∈ plainDiffs -> out ∈ toInsert diff0 ->
                    outputKind out <> Rich.
Proof.
  intros diff0 out Hd Ho. unfold plainDiffs in Hd.
  repeat (apply elem_of_cons in Hd as [->|Hd]); simpl in Ho;
    [ repeat (apply elem_of_cons in Ho as [->|Ho]);
      [discriminate..|by apply elem_of_nil in Ho] ..
    | by apply elem_of_nil in Hd ].
Defined.

Lemma plain_outputs_are_handed_on_untouched_witness :
  (forall diff0 out, diff0 ∈ plainDiffs -> out ∈ toInsert diff0 ->
                     outputKind out <> Rich)
  /\ eventuallyUpdateCellOutputs literalHost "TypeError"%string
       (sampleDocument throwingController) 7%Z plainDiffs []
     = ([],
        Normal {| call_cellHandle := 7%Z;
                  call_outputDtos :=
                    map (fun diff0 => (start diff0, deleteCount diff0,
                                       omap forwarded (toInsert diff0)))
                        plainDiffs;
                  call_renderers := [] |}).
Proof.
  split; [exact plainDiffs_are_plain|].
  apply (plain_outputs_are_handed_on_untouched literalHost "TypeError"%string
           (sampleDocument throwingController) 7%Z plainDiffs []).
  exact plainDiffs_are_plain.
Defined.

Lemma richDiffs_wellBehaved :
  forall diff0 out, diff0 ∈ richDiffs -> out ∈ toInsert diff0 ->
                    wellBehaved literalHost (sampleDocument htmlController) out.
Proof.
  intros diff0 out Hd Ho. unfold richDiffs in Hd.
  apply list_elem_of_singleton in Hd as ->. simpl in Ho.
  apply elem_of_cons in Ho as [->|Ho]; [exact I|].
  apply list_elem_of_singleton in Ho as ->.
  split; [exact mixedOutput_has_keys|exact htmlController_rendersReturn].
Defined.

Lemma every_splice_is_answered_in_order_witness :
  (forall diff0 out, diff0 ∈ richDiffs -> out ∈ toInsert diff0 ->
                     wellBehaved literalHost (sampleDocument htmlController) out)
  /\ exists calls' call,
       eventuallyUpdateCellOutputs literalHost "TypeError"%string
         (sampleDocument htmlController) 7%Z richDiffs []
       = (calls', Normal call)
       /\ call_cellHandle call = 7%Z
       /\ Forall2 (spliceHandedOn literalHost (sampleDocument htmlController))
                  richDiffs (call_outputDtos call).
Proof.
  split; [exact richDiffs_wellBehaved|].
  apply (every_splice_is_answered_in_order literalHost "TypeError"%string
           (sampleDocument htmlController) 7%Z richDiffs []).
  exact richDiffs_wellBehaved.
Defined.

Lemma htmlRegistry_handles_below_counter :
  forall entry,
    entry ∈ _notebookOutputRenderers (registry_controller htmlRegistry) ->
    (fst entry < _handlePool htmlRegistry)%Z.
Proof.
  intros entry He. simpl in He.
  repeat (apply elem_of_cons in He as [->|He]);
    [simpl; lia..|by apply elem_of_nil in He].
Defined.

Lemma registered_renderer_comes_last_and_can_be_removed_witness :
  (forall entry,
     entry ∈ _notebookOutputRenderers (registry_controller htmlRegistry) ->
     (fst entry < _handlePool htmlRegistry)%Z)
  /\ exists st' r,
       registerNotebookOutputRenderer htmlRegistry "late"
         {| selectorType := "display"; subTypes := Some ["text/html"]%string |}
         (fun _ _ _ => Normal "<u>late</u>"%string) = (st', r)
       /\ handle r = 2%Z
       /\ findBestMatchedRenderer (registry_controller st') "text/html"
          = findBestMatchedRenderer htmlController "text/html" ++ [r]
       /\ registry_controller (disposeNotebookOutputRenderer st' r)
          = htmlController.
Proof.
  split; [exact htmlRegistry_handles_below_counter|].
  destruct (registered_renderer_comes_last_and_can_be_removed htmlRegistry
              "late"
              {| selectorType := "display"; subTypes := Some ["text/html"]%string |}
              (fun _ _ _ => Normal "<u>late</u>"%string)
              htmlRegistry_handles_below_counter)
    as (st' & r & Hreg & Hhandle & _ & Hfind & Hdispose & _).
  exists st', r. split; [exact Hreg|]. split; [exact Hhandle|].
  split; [|exact Hdispose].
  rewrite (Hfind "text/html"%string).
  injection Hreg as _ <-. reflexivity.
Defined.
